(** * idf.py: the action table and its executor

    A shallow embedding of [tools/idf.py], the command line front end of
    ESP-IDF's CMake build.  The script maps action names to handlers in the
    table [ACTIONS] and runs the requested actions through the nested
    function [execute_action], which resolves dependencies recursively and
    records finished actions in the set [completed_actions].

    Layout: exceptions and the state/exception monad; the host interface
    (everything the script obtains from the operating system); the tool
    runner and the handlers; the table; the executor, [main] and the
    [__main__] block; the parser of the cmake cache and the functions that
    the host interface takes whole ([check_environment],
    [_ensure_build_directory], [monitor], [fullclean]), over the
    operations of the interpreter's library; the vocabulary of the
    verification (traces, the invariant of a run, reachability in the
    table, what a piece of code ensures, where exceptions come from); then
    the lemmas and theorems, and runs on a concrete host and a concrete
    system. *)

From stdpp Require Import base strings gmap list pretty.

Local Open Scope string_scope.
Local Open Scope list_scope.
Local Open Scope Z_scope.

(** ** Exceptions and outcomes *)

(** The exceptions that can travel through the script.  [FatalError] is the
    script's own class (line 34).  [RecursionError] is what the interpreter
    raises when the nesting of [execute_action] exceeds its recursion limit;
    no host operation is given a way to produce it. *)
Inductive exn :=
| FatalError (msg : string)
| KeyError (key : string)
| TypeError (msg : string)
| IndexError
| RecursionError
| SystemExit (code : Z)
| OtherError (name : string).

Inductive outcome (A : Type) :=
| Normal (a : A)
| Raised (e : exn).
Arguments Normal {A} a.
Arguments Raised {A} e.

(** What an operation of the host can fail with: the script's
    [FatalError], a [KeyError] or a [TypeError] (raised by code of the
    script that runs on the host's side of the interface), or any other
    exception, named. *)
Inductive failure :=
| Fatal (msg : string)
| Missing (key : string)
| Mistyped (msg : string)
| Crash (name : string).

Definition exn_of (f : failure) : exn :=
  match f with
  | Fatal msg => FatalError msg
  | Missing key => KeyError key
  | Mistyped msg => TypeError msg
  | Crash name => OtherError name
  end.

(** Result of [subprocess.check_call]. *)
Inductive proc_status :=
| Completed
| CalledProcessError (returncode : Z)
| NotRun (name : string).

(** ** The state and exception monad *)

Definition prog (S A : Type) : Type := S → outcome A * S.

Global Instance prog_ret {S} : MRet (prog S) := λ A a st, (Normal a, st).
Global Instance prog_bind {S} : MBind (prog S) := λ A B k m st,
  match m st with
  | (Normal a, st') => k a st'
  | (Raised e, st') => (Raised e, st')
  end.

Definition raise {S A} (e : exn) : prog S A := λ st, (Raised e, st).
Definition gets {S A} (f : S → A) : prog S A := λ st, (Normal (f st), st).
Definition modify {S} (f : S → S) : prog S unit := λ st, (Normal tt, f st).

(** [try: body except: handler] with a handler that sees every exception. *)
Definition try_except {S A} (body : prog S A) (handler : exn → prog S A) : prog S A :=
  λ st, match body st with
        | (Normal a, st') => (Normal a, st')
        | (Raised e, st') => handler e st'
        end.

(** [for x in l: body x] *)
Fixpoint for_each {S A} (l : list A) (body : A → prog S unit) : prog S unit :=
  match l with
  | [] => mret tt
  | x :: l' => body x ;; for_each l' body
  end.

(** ** Command line values *)

(** [args.baud] is the integer default 460800 or the text given after [-b]. *)
Inductive baud_value :=
| BaudInt (n : Z)
| BaudText (s : string).

Definition str (b : baud_value) : string :=
  match b with
  | BaudInt n => pretty n
  | BaudText s => s
  end.

(** The attributes of [args] that handlers read or write.  [build_dir] is
    [None] until [main] has filled it in.  The attribute [args.actions] is
    kept in the executor's state ([actions] below): no handler touches it. *)
Record Namespace := {
  port : option string;
  baud : baud_value;
  project_dir : string;
  build_dir : option string;
  generator : option string
}.

(** The positional and optional arguments as typed by the user; an absent
    option is [None].  These are the command lines without [-h] and
    [--help]: with one of the two argparse prints the help and exits with
    status 0 when it comes to it, and no such command line is a value of
    this type. *)
Record command_line := {
  opt_port : option string;
  opt_baud : option string;
  opt_project_dir : option string;
  opt_build_dir : option string;
  opt_generator : option string;
  opt_actions : list string
}.

(** ** The host *)

Inductive platform := MSYS | Windows | Posix.

(** Lines 48-56. *)
Definition MAKE_CMD (p : platform) : string :=
  match p with MSYS => "make" | Windows => "mingw32-make" | Posix => "make" end.
Definition MAKE_GENERATOR (p : platform) : string :=
  match p with
  | MSYS => "MSYS Makefiles"
  | Windows => "MinGW Makefiles"
  | Posix => "Unix Makefiles"
  end.

(** Everything the script asks of its surroundings, over a world [W].
    [_ensure_build_directory], [monitor] and [fullclean] only drive the file
    system, cmake and the serial monitor; they are taken whole, as
    operations that may fail and may rewrite [args.generator]. *)
Class Host (W : Type) := {
  os : platform;
  PYTHON : string;
  cpu_count : Z;
  path_join : string → string → string;
  getcwd : W → string;
  realpath : string → W → string;
  isdir : string → W → bool;
  environ : W → gmap string string;
  print : string → W → W;
  check_call : list string → string → W → proc_status * W;
  check_environment : W → option failure * W;
  _ensure_build_directory : Namespace → W → option failure * Namespace * W;
  monitor : string → Namespace → W → option failure * Namespace * W;
  fullclean : string → Namespace → W → option failure * Namespace * W
}.

(** The functions stored in [ACTIONS]. *)
Inductive function :=
| fn_build_target
| fn_flash
| fn_erase_flash
| fn_monitor
| fn_clean
| fn_fullclean.

Global Instance function_eq_dec : EqDecision function.
Proof. solve_decision. Defined.

(** First component of an [ACTIONS] entry: "function (or alias)". *)
Inductive operation :=
| Callable (f : function)
| Name (s : string).

Global Instance operation_eq_dec : EqDecision operation.
Proof. solve_decision. Defined.

(** action name : ( function (or alias), dependencies, order-only dependencies ) *)
Abbreviation entry := (operation * list string * list string)%type.
Abbreviation registry := (gmap string entry).

(** The double quote, as a string, and the blank, as a character. *)
Definition dq : string := String (Ascii.ascii_of_nat 34) EmptyString.
Definition space : Ascii.ascii := Ascii.ascii_of_nat 32.

(** [c in s] for a one-character [c]. *)
Fixpoint has_char (c : Ascii.ascii) (s : string) : bool :=
  match s with
  | EmptyString => false
  | String x s' => if Ascii.eqb x c then true else has_char c s'
  end.

(** Quote 'arg' if necessary (lines 66-70). *)
Definition quote_arg (arg : string) : string :=
  if has_char space arg && negb (String.prefix dq arg || String.prefix "'" arg)
  then "'" +:+ arg +:+ "'"
  else arg.

Section Handlers.
Context {W : Type} {host_ops : Host W}.

(** What a handler can see: [args] and the world. *)
Record ctx := { args : Namespace; host : W }.

Definition on_host {A} (f : W → A * W) : prog ctx A := λ c,
  let '(a, w) := f (host c) in (Normal a, {| args := args c; host := w |}).

Definition do_print (line : string) : prog ctx unit :=
  on_host (λ w, (tt, print line w)).

(** A host operation on [args]. *)
Definition host_call (f : Namespace → W → option failure * Namespace * W)
  : prog ctx unit := λ c,
  let '(r, a, w) := f (args c) (host c) in
  (match r with None => Normal tt | Some e => Raised (exn_of e) end,
   {| args := a; host := w |}).

(** Lines 58-63. *)
Definition GENERATORS : list (string * list string * list string) :=
  [ ("Ninja", ["ninja"], ["ninja"; "--version"]);
    (MAKE_GENERATOR os, [MAKE_CMD os; "-j"; pretty (cpu_count + 2)],
     ["make"; "--version"]) ].

(** [dict(...)] keeps the last value given for a key. *)
Definition GENERATOR_CMDS : gmap string (list string) :=
  foldl (λ m a, <[a.1.1 := a.1.2]> m) ∅ GENERATORS.

(** What [" " in None] and [os.path.isdir(None)] raise. *)
Definition none_path {A} : prog ctx A :=
  raise (TypeError "NoneType").

(** Lines 65-78.  [cwd] is [args.build_dir]; were it still [None],
    [quote_arg(cwd)] would raise before anything is printed. *)
Definition _run_tool (tool_name : string) (tool_args : list string)
    (cwd : option string) : prog ctx unit :=
  let display_args := String.concat " " (quote_arg <$> tool_args) in
  match cwd with
  | None => none_path
  | Some cwd =>
      do_print ("Running " +:+ tool_name +:+ " in directory " +:+ quote_arg cwd);;
      do_print ("Executing " +:+ dq +:+ display_args +:+ dq +:+ "...");;
      status ← on_host (check_call tool_args cwd);
      match status with
      | Completed => mret tt
      | CalledProcessError returncode =>
          raise (FatalError (tool_name +:+ " failed with exit code " +:+ pretty returncode))
      | NotRun name => raise (OtherError name)
      end
  end.

(** Lines 191-200. *)
Definition build_target (target_name : string) : prog ctx unit :=
  host_call _ensure_build_directory;;
  a ← gets args;
  match generator a with
  | None => raise (KeyError "None")
  | Some g =>
      match GENERATOR_CMDS !! g with
      | None => raise (KeyError g)
      | Some generator_cmd =>
          match generator_cmd with
          | [] => raise IndexError
          | tool :: _ => _run_tool tool (generator_cmd ++ [target_name]) (build_dir a)
          end
      end
  end.

(** Lines 203-209. *)
Definition _get_esptool_args : prog ctx (list string) :=
  e ← gets (λ c, environ (host c));
  match e !! "IDF_PATH" with
  | None => raise (KeyError "IDF_PATH")
  | Some idf_path =>
      a ← gets args;
      let esptool_path := path_join idf_path "components/esptool_py/esptool/esptool.py" in
      let result := [PYTHON; esptool_path] in
      let result := match port a with
                    | Some p => result ++ ["-p"; p]
                    | None => result
                    end in
      mret (result ++ ["-b"; str (baud a)])
  end.

(** action -> name of flasher args file generated by build system *)
Definition flasher_args_path : gmap string string :=
  <["bootloader-flash" := "flash_bootloader_args"]>
  (<["partition_table-flash" := "flash_partition_table_args"]>
  (<["app-flash" := "flash_app_args"]>
  (<["flash" := "flash_project_args"]> ∅))).

(** Lines 211-223. *)
Definition flash (action : string) : prog ctx unit :=
  match flasher_args_path !! action with
  | None => raise (KeyError action)
  | Some path =>
      esptool_args ← _get_esptool_args;
      a ← gets args;
      _run_tool "esptool.py" (esptool_args ++ ["write_flash"; "@" +:+ path]) (build_dir a)
  end.

(** Lines 226-229. *)
Definition erase_flash (action : string) : prog ctx unit :=
  esptool_args ← _get_esptool_args;
  a ← gets args;
  _run_tool "esptool.py" (esptool_args ++ ["erase_flash"]) (build_dir a).

(** Lines 254-258. *)
Definition clean (action : string) : prog ctx unit :=
  a ← gets args;
  match build_dir a with
  | None => none_path
  | Some dir =>
      d ← gets (λ c, isdir dir (host c));
      if negb d
      then do_print ("Build directory '" +:+ dir +:+ "' not found. Nothing to clean.")
      else build_target "clean"
  end.

(** [function(action, args)] for a function of the table. *)
Definition call (f : function) (action : string) : prog ctx unit :=
  match f with
  | fn_build_target => build_target action
  | fn_flash => flash action
  | fn_erase_flash => erase_flash action
  | fn_monitor => host_call (monitor action)
  | fn_clean => clean action
  | fn_fullclean => host_call (fullclean action)
  end.
End Handlers.
Arguments ctx W : clear implicits.

(** ** The table *)

(** Lines 284-304. *)
Definition ACTIONS : registry := list_to_map [
  ("all",                   (Callable fn_build_target, [], ["menuconfig"; "clean"; "fullclean"]));
  ("build",                 (Name "all",               [], []));
  ("clean",                 (Callable fn_clean,        [], ["fullclean"]));
  ("fullclean",             (Callable fn_fullclean,    [], []));
  ("menuconfig",            (Callable fn_build_target, [], []));
  ("size",                  (Callable fn_build_target, [], ["app"]));
  ("size-components",       (Callable fn_build_target, [], ["app"]));
  ("size-files",            (Callable fn_build_target, [], ["app"]));
  ("bootloader",            (Callable fn_build_target, [], []));
  ("bootloader-clean",      (Callable fn_build_target, [], []));
  ("bootloader-flash",      (Callable fn_flash,        ["bootloader"], []));
  ("app",                   (Callable fn_build_target, [], []));
  ("app-flash",             (Callable fn_flash,        [], ["app"]));
  ("partition_table",       (Callable fn_build_target, [], []));
  ("partition_table-flash", (Callable fn_flash,        ["partition_table"], []));
  ("flash",                 (Callable fn_flash,        ["all"], []));
  ("erase_flash",           (Callable fn_erase_flash,  [], []));
  ("monitor",               (Callable fn_monitor,      [],
       ["flash"; "partition_table-flash"; "bootloader-flash"; "app-flash"]))
].

(** ** The executor *)

(** What the run does at the boundary to the handlers: a handler is
    entered, returns, or raises. *)
Inductive event :=
| Call (f : function) (action : string)
| Ret (f : function) (action : string)
| Exc (f : function) (action : string) (e : exn).

Global Instance exn_eq_dec : EqDecision exn.
Proof. solve_decision. Defined.
Global Instance event_eq_dec : EqDecision event.
Proof. solve_decision. Defined.

Section Executor.
Context {W : Type} {host_ops : Host W}.

(** The variables of [main]: the set [completed_actions], the list
    [args.actions], [args] and the world; [trace] records the events. *)
Record state := {
  completed_actions : gset string;
  actions : list string;
  context : ctx W;
  trace : list event
}.

Definition set_completed (c : gset string) (st : state) : state :=
  {| completed_actions := c; actions := actions st;
     context := context st; trace := trace st |}.
Definition set_actions (l : list string) (st : state) : state :=
  {| completed_actions := completed_actions st; actions := l;
     context := context st; trace := trace st |}.
Definition set_context (c : ctx W) (st : state) : state :=
  {| completed_actions := completed_actions st; actions := actions st;
     context := c; trace := trace st |}.
Definition set_trace (t : list event) (st : state) : state :=
  {| completed_actions := completed_actions st; actions := actions st;
     context := context st; trace := t |}.

(** Run code that only sees [args] and the world. *)
Definition in_context {A} (m : prog (ctx W) A) : prog state A := λ st,
  let '(r, c) := m (context st) in (r, set_context c st).

Definition log (e : event) : prog state unit :=
  modify (λ st, set_trace (trace st ++ [e]) st).

(** Line 345, [function(action, args)], with its events. *)
Definition invoke (f : function) (action : string) : prog state unit :=
  log (Call f action);;
  try_except (in_context (call f action))
             (λ e, log (Exc f action e);; raise e);;
  log (Ret f action).

(** The table the executor reads, and the number of nested activations
    of [execute_action] the interpreter allows. *)
Variable table : registry.
Variable recursion_limit : nat.

(** Lines 329-347.  [depth] activations remain; with none left the call
    raises [RecursionError]. *)
Fixpoint execute_action (depth : nat) (action : string)
    (remaining_actions : list string) : prog state unit :=
  match depth with
  | O => raise RecursionError
  | S depth =>
      match table !! action with
      | None => raise (KeyError action)
      | Some (function, dependencies, order_dependencies) =>
          for_each dependencies (λ dep,
            completed ← gets completed_actions;
            if bool_decide (dep ∉ completed)
            then execute_action depth dep remaining_actions
            else mret tt);;
          for_each order_dependencies (λ dep,
            completed ← gets completed_actions;
            if bool_decide (dep ∈ remaining_actions) && bool_decide (dep ∉ completed)
            then execute_action depth dep remaining_actions
            else mret tt);;
          completed ← gets completed_actions;
          (if bool_decide (action ∈ completed) then mret tt
           else match function with
                | Name target =>
                    if bool_decide (target ∈ dom table)
                    then execute_action depth target remaining_actions
                    else raise (TypeError "str")
                | Callable f => invoke f action
                end);;
          modify (λ st, set_completed ({[action]} ∪ completed_actions st) st)
      end
  end.

(** Lines 349-351.  [queue] is [args.actions] at the loop test. *)
Fixpoint while_actions (queue : list string) : prog state unit :=
  match queue with
  | [] => mret tt
  | first :: rest =>
      execute_action recursion_limit first rest;;
      modify (λ st, set_actions (tail (actions st)) st);;
      while_actions rest
  end.

(** Line 313: [choices=GENERATOR_CMDS.keys()]. *)
Definition generator_ok (a : Namespace) : bool :=
  match generator a with
  | None => true
  | Some g => bool_decide (g ∈ dom GENERATOR_CMDS)
  end.

(** What [parser.parse_args()] accepts of a command line without [-h]
    and [--help]: a generator among the keys of [GENERATOR_CMDS], and one
    or more actions among the keys of the table; otherwise argparse exits
    with status 2.  The usage and the error that it then writes to
    [stderr] are not part of the world [W], which holds what the script
    prints and what it does to the file system and with processes. *)
Definition parse_args : prog state unit :=
  a ← gets (λ st, args (context st));
  l ← gets actions;
  if generator_ok a && bool_decide (l ≠ [])
     && forallb (λ x, bool_decide (x ∈ dom table)) l
  then mret tt
  else raise (SystemExit 2).

(** Lines 321-326. *)
Definition check_build_dir : prog (ctx W) unit :=
  a ← gets args;
  w ← gets host;
  match build_dir a with
  | Some dir =>
      if bool_decide (realpath (project_dir a) w = realpath dir w)
      then raise (FatalError "Setting the build directory to the project directory is not supported. Suggest dropping --build-dir option, the default is a 'build' subdirectory inside the project directory.")
      else mret tt
  | None => mret tt
  end;;
  let dir := default (path_join (project_dir a) "build") (build_dir a) in
  modify (λ c, {| args := {| port := port a; baud := baud a;
                             project_dir := project_dir a;
                             build_dir := Some (realpath dir w);
                             generator := generator a |};
                  host := host c |}).

(** Lines 307-351. *)
Definition main : prog state unit :=
  parse_args;;
  in_context (λ c, let '(r, w) := check_environment (host c) in
                   (match r with None => Normal tt | Some e => Raised (exn_of e) end,
                    {| args := args c; host := w |}));;
  in_context check_build_dir;;
  queue ← gets actions;
  while_actions queue.

(** The namespace argparse builds from the command line, with the
    defaults of lines 309-313, and the variables of [main] before its
    first statement. *)
Definition initial (cl : command_line) (w : W) : state :=
  {| completed_actions := ∅;
     actions := opt_actions cl;
     context := {| args := {| port := opt_port cl;
                               baud := from_option BaudText (BaudInt 460800) (opt_baud cl);
                               project_dir := default (getcwd w) (opt_project_dir cl);
                               build_dir := opt_build_dir cl;
                               generator := opt_generator cl |};
                   host := w |};
     trace := [] |}.

(** Lines 354-359: the exit status of the process and the final state.
    An exception other than [FatalError] and [SystemExit] ends the
    interpreter with status 1; its traceback goes to [stderr], which is
    not part of the world. *)
Definition idf_py (cl : command_line) (w : W) : Z * state :=
  match main (initial cl w) with
  | (Normal _, st) => (0, st)
  | (Raised (FatalError msg), st) =>
      (2, set_context {| args := args (context st);
                         host := print msg (host (context st)) |} st)
  | (Raised (SystemExit code), st) => (code, st)
  | (Raised _, st) => (1, st)
  end.
End Executor.
Arguments state W : clear implicits.

(** ** A host to run the script on

    A world that is the list of lines printed so far, a POSIX system with
    Ninja, every directory present, and tools whose exit status is chosen
    by [tool_status] from their command line. *)
Definition scripted_host (tool_status : list string → proc_status) : Host (list string) :=
  {| os := Posix;
     PYTHON := "python";
     cpu_count := 4;
     path_join := λ a b, a +:+ "/" +:+ b;
     getcwd := λ _, "/project";
     realpath := λ p _, p;
     isdir := λ _ _, true;
     environ := λ _, {[ "IDF_PATH" := "/idf" ]};
     print := λ line w, w ++ [line];
     check_call := λ tool_args _ w, (tool_status tool_args, w);
     check_environment := λ w, (None, w);
     _ensure_build_directory := λ a w,
       (None, {| port := port a; baud := baud a; project_dir := project_dir a;
                 build_dir := build_dir a;
                 generator := Some (default "Ninja" (generator a)) |}, w);
     monitor := λ _ a w, (None, a, w);
     fullclean := λ _ a w, (None, a, w) |}.

(** The command line [idf.py l], without options. *)
Definition request (l : list string) : command_line :=
  {| opt_port := None; opt_baud := None; opt_project_dir := None;
     opt_build_dir := None; opt_generator := None; opt_actions := l |}.

(** ** The cmake cache *)

(** The newline, as a character. *)
Definition newline : Ascii.ascii := Ascii.ascii_of_nat 10.

(** The longest prefix of [s] without a character of the class [stop], and
    what follows it: how a greedy [[^...]*] matches at the start of [s]. *)
Fixpoint span (stop : Ascii.ascii → bool) (s : string) : string * string :=
  match s with
  | EmptyString => (EmptyString, EmptyString)
  | String c s' =>
      if stop c then (EmptyString, s)
      else let '(p, r) := span stop s' in (String c p, r)
  end.

Definition is_newline (c : Ascii.ascii) : bool := Ascii.eqb c newline.

(** Line 186: [re.match(r"^([^#/:=]+):([^:=]+)=(.+)\n$", line)], giving
    the groups name, type and value.  No group can give up characters to
    let the next literal match, so each is the longest run of its class;
    [.] is any character but the newline, and [$] matches at the end of
    the string or in front of a newline that ends it. *)
Definition match_cache_line (line : string) : option (string * string * string) :=
  let '(name, r1) := span (λ c, has_char c "#/:=") line in
  match name, r1 with
  | String _ _, String c1 r2 =>
      if negb (has_char c1 ":") then None else
      let '(type, r3) := span (λ c, has_char c ":=") r2 in
      match type, r3 with
      | String _ _, String c2 r4 =>
          if negb (has_char c2 "=") then None else
          let '(value, r5) := span is_newline r4 in
          match value, r5 with
          | String _ _, String _ r6 =>
              match r6 with
              | EmptyString => Some (name, type, value)
              | String c3 EmptyString =>
                  if is_newline c3 then Some (name, type, value) else None
              | _ => None
              end
          | _, _ => None
          end
      | _, _ => None
      end
  | _, _ => None
  end.

(** [for line in f]: the text that the file object delivers, cut behind
    each newline. *)
Fixpoint lines_from (current : string) (text : string) : list string :=
  match text with
  | EmptyString => match current with EmptyString => [] | _ => [current] end
  | String c text' =>
      if is_newline c then (current +:+ String c EmptyString) :: lines_from EmptyString text'
      else lines_from (current +:+ String c EmptyString) text'
  end.

Definition file_lines (text : string) : list string := lines_from EmptyString text.

(** Lines 187-188: what one line does to [result]. *)
Definition cache_step (result : gmap string string) (line : string) : gmap string string :=
  match match_cache_line line with
  | Some (name, _, value) => <[name := value]> result
  | None => result
  end.

(** Lines 181-189, on the lines of the file. *)
Definition parse_cmakecache_lines (lines : list string) : gmap string string :=
  foldl cache_step ∅ lines.

(** The newline, as a string. *)
Definition nl : string := String newline EmptyString.

(** ** The system below the script *)

(** What [json.load] returns: [None], a [bool], a number (as it is
    written), a string, a [list], or a [dict] (its items; of two items
    with the same key the later one counts). *)
#[local] Unset Elimination Schemes.
Inductive json :=
| JNull
| JBool (b : bool)
| JNumber (text : string)
| JString (s : string)
| JArray (items : list json)
| JObject (members : list (string * json)).
#[local] Set Elimination Schemes.

(** What the script asks of the interpreter's library, over a world [W]:
    the file system, the terminal and the processes it starts.  An
    operation that can raise gives the name of its exception. *)
Class System (W : Type) := {
  (** lines 48-56, decided when the script is loaded *)
  sys_platform : platform;
  sys_executable : string;
  multiprocessing_cpu_count : Z;
  (** [os.path.dirname(__file__)] *)
  script_dir : string;
  os_path_join : string → string → string;
  (** what [os.path.join] raises when an argument is this value and not a
      string: [TypeError], [AttributeError] or [KeyError], by the
      version of the interpreter and the platform *)
  os_path_join_raises : json → failure;
  os_getcwd : W → string;
  os_path_realpath : string → W → string;
  os_path_isdir : string → W → bool;
  os_path_exists : string → W → bool;
  os_listdir : string → W → string + list string;
  os_mkdir : string → W → option string * W;
  os_remove : string → W → option string * W;
  shutil_rmtree : string → W → option string * W;
  (** [open(path)] and the text read from it *)
  read_text : string → W → string + string;
  sys_print : string → W → W;
  (** [subprocess.check_call(args, env=os.environ, cwd=cwd)] *)
  subprocess_check_call : list string → string → gmap string string → W → proc_status * W;
  subprocess_check_output : list string → gmap string string → W → proc_status * W;
  (** [with open(path, "r") as f: json.load(f)] *)
  json_load : string → W → string + json
}.

(** The interpreter's process: [os.environ] and the world. *)
Record process (W : Type) := {
  os_environ : gmap string string;
  world : W
}.
Arguments os_environ {W} _.
Arguments world {W} _.

(** An exception on its way through the interface of [Host].  The
    functions of the script behind the interface raise none of the last
    three ([system_operations_transfer] below), so that [exn_of] gives
    back what they raised. *)
Definition failure_of (e : exn) : failure :=
  match e with
  | FatalError msg => Fatal msg
  | KeyError key => Missing key
  | TypeError msg => Mistyped msg
  | OtherError name => Crash name
  | IndexError => Crash "IndexError"
  | RecursionError => Crash "RecursionError"
  | SystemExit _ => Crash "SystemExit"
  end.

(** Code on [args] and the world as an operation of a host. *)
Definition as_operation {W} (m : prog (ctx W) unit)
  : Namespace → W → option failure * Namespace * W := λ a w,
  let '(r, c) := m {| args := a; host := w |} in
  (match r with Normal _ => None | Raised e => Some (failure_of e) end, args c, host c).

Section System_host.
Context {W : Type} {system : System W}.

(** The host that a system is, given the four functions of the script
    that [Host] takes whole. *)
Definition host_of
    (check_environment : process W → option failure * process W)
    (_ensure_build_directory : Namespace → process W → option failure * Namespace * process W)
    (monitor fullclean : string → Namespace → process W → option failure * Namespace * process W)
  : Host (process W) :=
  {| os := sys_platform;
     PYTHON := sys_executable;
     cpu_count := multiprocessing_cpu_count;
     path_join := os_path_join;
     getcwd := λ p, os_getcwd (world p);
     realpath := λ path p, os_path_realpath path (world p);
     isdir := λ path p, os_path_isdir path (world p);
     environ := os_environ;
     print := λ line p, {| os_environ := os_environ p; world := sys_print line (world p) |};
     check_call := λ tool_args cwd p,
       let '(status, w) := subprocess_check_call tool_args cwd (os_environ p) (world p) in
       (status, {| os_environ := os_environ p; world := w |});
     check_environment := check_environment;
     _ensure_build_directory := _ensure_build_directory;
     monitor := monitor;
     fullclean := fullclean |}.

(** The library alone: enough for [_run_tool] and [GENERATORS]. *)
Definition library : Host (process W) :=
  host_of (λ p, (None, p)) (λ a p, (None, a, p)) (λ _ a p, (None, a, p)) (λ _ a p, (None, a, p)).
End System_host.

Module Sys.
Section Functions.
Context {W : Type} {system : System W}.
Local Existing Instance library.

(** An operation of the system that cannot raise. *)
Definition os_call {A} (f : W → A * W) : prog (process W) A := λ p,
  let '(a, w) := f (world p) in (Normal a, {| os_environ := os_environ p; world := w |}).

(** An operation of the system that returns nothing and can raise. *)
Definition try_call (f : W → option string * W) : prog (process W) unit :=
  r ← os_call f;
  match r with
  | None => mret tt
  | Some name => raise (OtherError name)
  end.

(** Code that does not see [args]. *)
Definition in_process {A} (m : prog (process W) A) : prog (ctx (process W)) A := λ c,
  let '(r, p) := m (host c) in (r, {| args := args c; host := p |}).

(** [os.path.isdir], [os.path.exists] and [os.listdir] where [args] is
    in sight. *)
Definition isdir (path : string) : prog (ctx (process W)) bool :=
  gets (λ c, os_path_isdir path (world (host c))).
Definition exists_ (path : string) : prog (ctx (process W)) bool :=
  gets (λ c, os_path_exists path (world (host c))).
Definition listdir (path : string) : prog (ctx (process W)) (list string) :=
  r ← gets (λ c, os_listdir path (world (host c)));
  match r with
  | inl name => raise (OtherError name)
  | inr names => mret names
  end.

(** Lines 99-104. *)
Definition executable_exists (args : list string) : prog (process W) bool :=
  e ← gets os_environ;
  status ← os_call (subprocess_check_output args e);
  mret (match status with Completed => true | _ => false end).

(** Lines 81-97. *)
Definition check_environment : prog (process W) unit :=
  ok ← executable_exists ["cmake"; "--version"];
  if negb ok
  then raise (FatalError "'cmake' must be available on the PATH to use idf.py")
  else
    detected_idf_path ← gets (λ p, os_path_realpath (os_path_join script_dir "..") (world p));
    e ← gets os_environ;
    match e !! "IDF_PATH" with
    | Some value =>
        set_idf_path ← gets (λ p, os_path_realpath value (world p));
        if bool_decide (set_idf_path ≠ detected_idf_path)
        then modify (print ("WARNING: IDF_PATH environment variable is set to "
                            +:+ set_idf_path
                            +:+ " but idf.py path indicates IDF directory "
                            +:+ detected_idf_path
                            +:+ ". Using the environment variable directory, but results may be unexpected..."))
        else mret tt
    | None =>
        modify (λ p, {| os_environ := <["IDF_PATH" := detected_idf_path]> (os_environ p);
                        world := world p |})
    end.

(** Lines 110-113, from the entry of [GENERATORS] the loop has come to. *)
Fixpoint detect_from (generators : list (string * list string * list string))
  : prog (process W) string :=
  match generators with
  | [] => raise (FatalError "To use idf.py, either the 'ninja' or 'GNU make' build tool must be available in the PATH")
  | (generator, _, version_check) :: rest =>
      ok ← executable_exists version_check;
      if (ok : bool) then mret generator else detect_from rest
  end.

(** Lines 106-113. *)
Definition detect_cmake_generator : prog (process W) string :=
  detect_from GENERATORS.

(** Lines 173-189. *)
Definition parse_cmakecache (path : string) : prog (process W) (gmap string string) :=
  r ← gets (λ p, read_text path (world p));
  match r with
  | inl name => raise (OtherError name)
  | inr text => mret (parse_cmakecache_lines (file_lines text))
  end.

(** [args.generator = g] *)
Definition set_generator (g : string) : prog (ctx (process W)) unit :=
  modify (λ c, {| args := {| port := port (args c); baud := baud (args c);
                             project_dir := project_dir (args c);
                             build_dir := build_dir (args c);
                             generator := Some g |};
                  host := host c |}).

(** Lines 115-170. *)
Definition _ensure_build_directory : prog (ctx (process W)) unit :=
  a ← gets args;
  let project := project_dir a in
  d ← isdir project;
  (if negb d
   then x ← exists_ project;
        if negb x
        then raise (FatalError "Project directory %s does not exist")
        else raise (FatalError "%s must be a project directory")
   else mret tt);;
  x ← exists_ (os_path_join project "CMakeLists.txt");
  (if negb x
   then raise (FatalError ("CMakeLists.txt not found in project directory " +:+ project))
   else mret tt);;
  match build_dir a with
  | None => none_path
  | Some build =>
      d ← isdir build;
      (if negb d then in_process (try_call (os_mkdir build)) else mret tt);;
      let cache_path := os_path_join build "CMakeCache.txt" in
      x ← exists_ cache_path;
      (if negb x
       then
         (match generator a with
          | None => g ← in_process detect_cmake_generator; set_generator g
          | Some _ => mret tt
          end);;
         try_except
           (a ← gets args;
            match generator a with
            | None => none_path
            | Some g => _run_tool "cmake" ["cmake"; "-G"; g; project] (build_dir a)
            end)
           (λ e, x ← exists_ cache_path;
                 (if (x : bool) then in_process (try_call (os_remove cache_path)) else mret tt);;
                 raise e)
       else mret tt);;
      cache ← in_process (parse_cmakecache cache_path);
      configured ← match cache !! "CMAKE_GENERATOR" with
                   | Some g => mret g
                   | None => in_process detect_cmake_generator
                   end;
      a ← gets args;
      (match generator a with
       | None => set_generator configured
       | Some _ => mret tt
       end);;
      let given := default configured (generator a) in
      (if bool_decide (configured ≠ given)
       then raise (FatalError ("Build is configured for generator '" +:+ configured
                               +:+ "' not '" +:+ given
                               +:+ "'. Run 'idf.py fullclean' to start again."))
       else mret tt);;
      match cache !! "CMAKE_HOME_DIRECTORY" with
      | Some home_dir =>
          home ← gets (λ c, os_path_realpath home_dir (world (host c)));
          here ← gets (λ c, os_path_realpath project (world (host c)));
          if bool_decide (home ≠ here)
          then raise (FatalError ("Build directory '" +:+ build
                                  +:+ "' configured for project '" +:+ home
                                  +:+ "' not '" +:+ here
                                  +:+ "'. Run 'idf.py fullclean' to start again."))
          else mret tt
      | None => mret tt
      end
  end.

(** What a [dict] read from these items has for [key]: the value of the
    last item with this key. *)
Definition member (members : list (string * json)) (key : string) : option json :=
  foldl (λ found item, if String.eqb item.1 key then Some item.2 else found)
        None members.

(** [value[key]] for what [json.load] has returned: the value that a
    [dict] has for [key], [KeyError] when it has none, and [TypeError]
    for anything that is not a [dict]. *)
Definition subscript {S} (value : json) (key : string) : prog S json :=
  match value with
  | JObject members =>
      match member members key with
      | Some found => mret found
      | None => raise (KeyError key)
      end
  | _ => raise (TypeError "subscript")
  end.

(** [" " == item] *)
Definition is_blank (item : json) : bool :=
  match item with
  | JString s => String.eqb s " "
  | _ => false
  end.

(** What [_run_tool] raises, before it prints, for an argument that is
    not a string (lines 68 and 71): the [TypeError] of [" " in arg] for
    [None], a [bool] or a number; for a [list] or a [dict] that holds a
    blank the [AttributeError] of [arg.startswith], and otherwise the
    [TypeError] of [" ".join]. *)
Definition quote_arg_raises (arg : json) : exn :=
  match arg with
  | JArray items =>
      if existsb is_blank items then OtherError "AttributeError" else TypeError "join"
  | JObject members =>
      if existsb (λ item, String.eqb item.1 " ") members
      then OtherError "AttributeError" else TypeError "join"
  | _ => TypeError "in"
  end.

(** Lines 232-251. *)
Definition monitor (action : string) : prog (ctx (process W)) unit :=
  a ← gets args;
  match build_dir a with
  | None => raise (exn_of (os_path_join_raises JNull))
  | Some build =>
      let desc_path := os_path_join build "project_description.json" in
      x ← exists_ desc_path;
      (if negb x then _ensure_build_directory else mret tt);;
      loaded ← gets (λ c, json_load desc_path (world (host c)));
      match loaded with
      | inl name => raise (OtherError name)
      | inr project_desc =>
          a ← gets args;
          app_elf ← subscript project_desc "app_elf";
          match build_dir a, app_elf with
          | None, _ => raise (exn_of (os_path_join_raises JNull))
          | Some build, JString app_elf =>
              let elf_file := os_path_join build app_elf in
              x ← exists_ elf_file;
              if negb x
              then raise (FatalError ("ELF file '" +:+ elf_file +:+ "' not found. You need to build & flash the project before running 'monitor', and the binary on the device must match the one in the build directory exactly. Try 'idf.py flash monitor'."))
              else
                e ← gets (λ c, os_environ (host c));
                match e !! "IDF_PATH" with
                | None => raise (KeyError "IDF_PATH")
                | Some idf_path =>
                    let idf_monitor := os_path_join idf_path "tools/idf_monitor.py" in
                    let monitor_args := [sys_executable; idf_monitor] in
                    a ← gets args;
                    let monitor_args := match port a with
                                        | Some p => monitor_args ++ ["-p"; p]
                                        | None => monitor_args
                                        end in
                    monitor_baud ← subscript project_desc "monitor_baud";
                    match monitor_baud with
                    | JString monitor_baud =>
                        _run_tool "idf_monitor"
                          (monitor_args ++ ["-b"; monitor_baud] ++ [elf_file])
                          (build_dir a)
                    | _ => raise (quote_arg_raises monitor_baud)
                    end
                end
          | Some _, value => raise (exn_of (os_path_join_raises value))
          end
      end
  end.

Definition red_flags : list string := ["CMakeLists.txt"; ".git"; ".svn"].

(** Lines 260-282. *)
Definition fullclean (action : string) : prog (ctx (process W)) unit :=
  a ← gets args;
  match build_dir a with
  | None => none_path
  | Some build =>
      d ← isdir build;
      if negb d
      then do_print ("Build directory '" +:+ build +:+ "' not found. Nothing to clean.")
      else
        names ← listdir build;
        if bool_decide (length names = 0%nat)
        then do_print ("Build directory '" +:+ build +:+ "' is empty. Nothing to clean.")
        else
          x ← exists_ (os_path_join build "CMakeCache.txt");
          if negb x
          then raise (FatalError ("Directory '" +:+ build +:+ "' doesn't seem to be a CMake build directory. Refusing to automatically delete files in this directory. Delete the directory manually to 'clean' it."))
          else
            for_each red_flags (λ red,
              let red := os_path_join build red in
              x ← exists_ red;
              if (x : bool)
              then raise (FatalError ("Refusing to automatically delete files in directory containing '" +:+ red +:+ "'. Delete files manually if you're sure."))
              else mret tt);;
            names ← listdir build;
            for_each names (λ f,
              let f := os_path_join build f in
              d ← isdir f;
              if (d : bool) then in_process (try_call (shutil_rmtree f))
              else in_process (try_call (os_remove f)))
  end.
End Functions.
End Sys.

(** The script on a system: a host whose four functions are those of the
    script. *)
Definition system_host {W} {system : System W} : Host (process W) :=
  host_of (λ p, let '(r, p') := Sys.check_environment p in
                (match r with Normal _ => None | Raised e => Some (failure_of e) end, p'))
          (as_operation Sys._ensure_build_directory)
          (λ action, as_operation (Sys.monitor action))
          (λ action, as_operation (Sys.fullclean action)).

(** * Vocabulary of the verification *)

(** ** Traces *)

(** The actions whose handler was entered, in order. *)
Definition calls (t : list event) : list string :=
  omap (λ e, match e with Call _ a => Some a | _ => None end) t.

(** A trace in which every handler that was entered has returned. *)
Inductive paired : list event → Prop :=
| paired_nil : paired []
| paired_snoc t f a : paired t → paired (t ++ [Call f a; Ret f a]).

(** [x] occurs in [t] strictly before an occurrence of [y]. *)
Definition before (x y : event) (t : list event) : Prop :=
  ∃ t1 t2 t3, t = t1 ++ x :: t2 ++ y :: t3.

(** How often the handler of [a] was entered. *)
Definition invocations (a : string) (t : list event) : nat :=
  length (filter (λ x, x = a) (calls t)).

(** ** Programs *)

(** Code that does not raise the interpreter's [RecursionError]. *)
Definition shallow {S A} (m : prog S A) : Prop :=
  ∀ st e st', m st = (Raised e, st') → e ≠ RecursionError.

(** ** States of a run *)

Section Notions.
Context {W : Type} {host_ops : Host W}.
Variable table : registry.

Implicit Types (st : state W) (t : list event) (rem : list string).

(** [a] names, through aliases, the action [b]. *)
Inductive alias_of : string → string → Prop :=
| alias_refl a : alias_of a a
| alias_step a b c hs os :
    table !! a = Some (Name b, hs, os) → alias_of b c → alias_of a c.

(** The handler behind [d] has returned before the event [e]. *)
Definition handled_before (d : string) (e : event) t : Prop :=
  ∀ b f hs os, alias_of d b → table !! b = Some (Callable f, hs, os) →
               before (Ret f b) e t.

(** What holds between two statements of a run that has not failed, while
    [rem] is (or contains) the [remaining_actions] of the calls made. *)
Record Inv rem st : Prop := {
  inv_calls : ∀ f a, Call f a ∈ trace st → a ∈ completed_actions st;
  inv_rets : ∀ a f hs os, a ∈ completed_actions st →
      table !! a = Some (Callable f, hs, os) → Ret f a ∈ trace st;
  inv_alias : ∀ a b hs os, a ∈ completed_actions st →
      table !! a = Some (Name b, hs, os) → b ∈ completed_actions st;
  inv_hard : ∀ a op hs os d, a ∈ completed_actions st →
      table !! a = Some (op, hs, os) → d ∈ hs → d ∈ completed_actions st;
  inv_order : ∀ a op hs os d, a ∈ completed_actions st →
      table !! a = Some (op, hs, os) → d ∈ os → d ∈ rem → d ∈ completed_actions st;
  inv_nodup : NoDup (calls (trace st));
  inv_paired : paired (trace st)
}.

(** What holds once [e] has been raised: the trace is that of a healthy
    run, possibly followed by the handler call that raised [e]. *)
Definition failed (e : exn) st : Prop :=
  NoDup (calls (trace st)) ∧
  (paired (trace st) ∨
   ∃ t f a, trace st = t ++ [Call f a; Exc f a e] ∧ paired t).

(** How a piece of the run started with [rem] as [remaining_actions]
    moves the state: the set grows, [args.actions] stays, and every
    handler it enters belongs to an action that was not completed, after
    the handlers of its dependencies and of those order-only
    dependencies that are in [rem]. *)
Record extends rem st st' : Prop := {
  ext_completed : completed_actions st ⊆ completed_actions st';
  ext_actions : actions st' = actions st;
  ext_trace : ∃ new, trace st' = trace st ++ new ∧
    ∀ f a, Call f a ∈ new →
      (a ∉ completed_actions st) ∧
      ∃ hs os, table !! a = Some (Callable f, hs, os) ∧
        ∀ d, d ∈ hs ∨ (d ∈ os ∧ d ∈ rem) →
             handled_before d (Call f a) (trace st')
}.

(** What a call for [a] leaves behind, by its outcome. *)
Definition post rem (a : string) (r : outcome unit) st : Prop :=
  match r with
  | Normal _ => Inv rem st ∧ a ∈ completed_actions st
  | Raised e => failed e st
  end.

(** Line 347, [completed_actions.add(action)]. *)
Definition add_completed (a : string) st : state W :=
  set_completed ({[a]} ∪ completed_actions st) st.

(** One round of either dependency loop: [q] is the part of the test
    that does not read [completed_actions]. *)
Definition resolve (depth : nat) rem (q : string → bool) (dep : string)
  : prog (state W) unit :=
  completed ← gets completed_actions;
  if q dep && bool_decide (dep ∉ completed)
  then execute_action table depth dep rem
  else mret tt.

(** The calls with [depth] activations keep the invariant. *)
Definition sound (depth : nat) : Prop :=
  ∀ a rem st r st', Inv rem st → execute_action table depth a rem st = (r, st') →
                    extends rem st st' ∧ post rem a r st'.

(** What a whole run keeps of [extends]: across the rounds of the loop
    [remaining_actions] shrinks, so only the dependencies stay. *)
Record progress st st' : Prop := {
  prog_completed : completed_actions st ⊆ completed_actions st';
  prog_trace : ∃ new, trace st' = trace st ++ new ∧
    ∀ f a, Call f a ∈ new →
      (a ∉ completed_actions st) ∧
      ∃ hs os, table !! a = Some (Callable f, hs, os) ∧
        ∀ d, d ∈ hs → handled_before d (Call f a) (trace st')
}.

(** States that differ at most in [args], the world and [args.actions]. *)
Definition same_run st st' : Prop :=
  completed_actions st' = completed_actions st ∧ trace st' = trace st.

(** What the loop over [queue] leaves behind, by its outcome. *)
Definition run_post (queue : list string) (r : outcome unit) st : Prop :=
  match r with
  | Normal _ => Inv [] st ∧ actions st = [] ∧
                ∀ a, a ∈ queue → a ∈ completed_actions st
  | Raised e => failed e st
  end.

(** [rank] decreases along every dependency, order-only dependency and
    alias of the table. *)
Definition ranked (rank : string → nat) : Prop :=
  ∀ a op hs os, table !! a = Some (op, hs, os) →
    (∀ d, d ∈ hs → (rank d < rank a)%nat) ∧
    (∀ d, d ∈ os → (rank d < rank a)%nat) ∧
    (∀ b, op = Name b → (rank b < rank a)%nat).

(** A call that ends without [RecursionError] ends the same way with one
    activation more. *)
Definition deepens (depth : nat) : Prop :=
  ∀ a rem st r st', execute_action table depth a rem st = (r, st') →
    r ≠ Raised RecursionError →
    execute_action table (S depth) a rem st = (r, st').

(** [args.actions] is not read by [execute_action]: a different list is
    carried through unchanged. *)
Definition carries (l : list string) (m : prog (state W) unit) : Prop :=
  ∀ st, m (set_actions l st) = let '(r, st') := m st in (r, set_actions l st').

(** [main] up to its loop, for a request that argparse accepts. *)
Definition prelude : prog (state W) unit :=
  (a ← gets (λ st, args (context st));
   if generator_ok a then mret tt else raise (SystemExit 2));;
  in_context (λ c, let '(r, w) := check_environment (host c) in
                   (match r with None => Normal tt | Some e => Raised (exn_of e) end,
                    {| args := args c; host := w |}));;
  in_context check_build_dir.

(** [x] can be resolved by a call for [a] whose [remaining_actions] is
    [rem]: through dependencies, order-only dependencies that are in
    [rem], and aliases. *)
Inductive reaches rem : string → string → Prop :=
| reaches_refl a : reaches rem a a
| reaches_hard a op hs os d x :
    table !! a = Some (op, hs, os) → d ∈ hs → reaches rem d x → reaches rem a x
| reaches_order a op hs os d x :
    table !! a = Some (op, hs, os) → d ∈ os → d ∈ rem → reaches rem d x →
    reaches rem a x
| reaches_alias a b hs os x :
    table !! a = Some (Name b, hs, os) → reaches rem b x → reaches rem a x.

(** The calls with [depth] activations only enter handlers of names they
    reach. *)
Definition confined (depth : nat) : Prop :=
  ∀ a rem st r st', execute_action table depth a rem st = (r, st') →
    ∀ f x, Call f x ∈ trace st' → Call f x ∈ trace st ∨ reaches rem a x.

(** A set of names each of which is an alias, without dependencies, of
    another name of the set: an alias cycle, or a chain into one. *)
Definition alias_loop (names : string → Prop) : Prop :=
  ∀ x, names x → ∃ y, table !! x = Some (Name y, [], []) ∧ names y.
End Notions.

(** ** Strings and the lines of the cache *)

(** [arg] starts with a quote of either kind. *)
Definition quoted (s : string) : bool := String.prefix dq s || String.prefix "'" s.

(** All characters of [s] satisfy [p]. *)
Fixpoint all_chars (p : Ascii.ascii → bool) (s : string) : bool :=
  match s with
  | EmptyString => true
  | String c s' => p c && all_chars p s'
  end.

(** The classes of the three groups. *)
Definition name_char (c : Ascii.ascii) : bool := negb (has_char c "#/:=").
Definition type_char (c : Ascii.ascii) : bool := negb (has_char c ":=").
Definition value_char (c : Ascii.ascii) : bool := negb (is_newline c).

(** [line] sets [name] to [value]. *)
Definition assigns (line name value : string) : Prop :=
  ∃ type, match_cache_line line = Some (name, type, value).

(** No line of [lines] sets [name]. *)
Definition silent_on (name : string) (lines : list string) : Prop :=
  ∀ line value, line ∈ lines → ¬ assigns line name value.

(** ** What code ensures, and what the functions on a system keep *)

(** Run from [st], the code [m] ends in an outcome and a state that
    satisfy [Q]. *)
Definition ensures {S A} (m : prog S A) (st : S) (Q : outcome A → S → Prop) : Prop :=
  ∀ r st', m st = (r, st') → Q r st'.

(** Between two states of the script: [os.environ] is the same, and so
    is [args], but for a generator where there was none. *)
Record steady {W} (c c' : ctx (process W)) : Prop := {
  steady_port : port (args c') = port (args c);
  steady_baud : baud (args c') = baud (args c);
  steady_project_dir : project_dir (args c') = project_dir (args c);
  steady_build_dir : build_dir (args c') = build_dir (args c);
  steady_generator : ∀ g, generator (args c) = Some g → generator (args c') = Some g;
  steady_environ : os_environ (host c') = os_environ (host c)
}.

(** An exception of the script or of the system, and nothing else. *)
Definition plain (e : exn) : Prop :=
  match e with
  | FatalError _ | OtherError _ => True
  | _ => False
  end.

(** What lets [fullclean] delete the contents of [build]: it is a
    directory, not empty, with a [CMakeCache.txt] and without any of the
    red flags. *)
Definition deletable {W} {system : System W} (build : string) (w : W) : bool :=
  os_path_isdir build w
  && match os_listdir build w with
     | inr names => negb (bool_decide (length names = 0%nat))
     | inl _ => false
     end
  && os_path_exists (os_path_join build "CMakeCache.txt") w
  && forallb (λ red, negb (os_path_exists (os_path_join build red) w)) Sys.red_flags.

(** What [main] has established when its loop starts: [args.build_dir]
    is set and [IDF_PATH] is in the environment. *)
Definition ready {W} (c : ctx (process W)) : Prop :=
  is_Some (build_dir (args c)) ∧ is_Some (os_environ (host c) !! "IDF_PATH").

(** What [monitor] raises over a [project_description.json] that is not
    as the build writes it: the [KeyError] of a description without
    [app_elf] or [monitor_baud], the [TypeError] of a description that is
    not a [dict], what [os.path.join] raises for an [app_elf] that is not
    a string, and what [_run_tool] raises for a [monitor_baud] that is not
    a string. *)
Definition description_error {W} {system : System W} (e : exn) : Prop :=
  e = KeyError "app_elf" ∨ e = KeyError "monitor_baud" ∨ e = TypeError "subscript" ∨
  (∃ value, e = exn_of (os_path_join_raises value)) ∨
  (∃ value, e = Sys.quote_arg_raises value).

(** What a handler fails with on a system: an exception of the script or
    of the system, the [KeyError] of [GENERATOR_CMDS[args.generator]] for
    a generator that is not one of its keys, or what [monitor] raises
    over a description that is not as the build writes it. *)
Definition handler_failure {W} {system : System W} (e : exn) : Prop :=
  plain e ∨ (∃ g, e = KeyError g ∧ @GENERATOR_CMDS _ system_host !! g = None) ∨
  description_error e.

(** ** Where exceptions come from *)

(** Code all of whose exceptions satisfy [P]. *)
Definition raises {S A} (P : exn → Prop) (m : prog S A) : Prop :=
  ∀ st e st', m st = (Raised e, st') → P e.

(** What a handler can raise: not the interpreter's [RecursionError], not
    argparse's [SystemExit], and not the [IndexError] of [generator_cmd[0]]. *)
Definition handler_exn (e : exn) : Prop :=
  match e with
  | RecursionError | SystemExit _ | IndexError => False
  | _ => True
  end.

(** Every exception in the trace is one that a handler can raise. *)
Definition handler_excs (t : list event) : Prop :=
  ∀ f a e, Exc f a e ∈ t → handler_exn e.

Section Origins.
Context {W : Type} {host_ops : Host W}.
Variable table : registry.

Implicit Types (st : state W) (rem : list string).

(** [b] is named as a dependency or order-only dependency in the table
    without being one of its keys. *)
Definition dangling (b : string) : Prop :=
  table !! b = None ∧
  ∃ x op hs os, table !! x = Some (op, hs, os) ∧ (b ∈ hs ∨ b ∈ os).

(** Some entry holds a string that is not a key of the table. *)
Definition broken_alias : Prop :=
  ∃ x b hs os, table !! x = Some (Name b, hs, os) ∧ table !! b = None.

(** Every name the table mentions is one of its keys. *)
Definition closed : Prop :=
  ∀ x op hs os, table !! x = Some (op, hs, os) →
    (∀ d, d ∈ hs ∨ d ∈ os → is_Some (table !! d)) ∧
    (∀ b, op = Name b → is_Some (table !! b)).

(** The handlers of the table return, from whatever [args] and world
    satisfy [J], and leave [args] and a world that satisfy [J]. *)
Definition dependable (J : ctx W → Prop) : Prop :=
  ∀ f a hs os c, table !! a = Some (Callable f, hs, os) → J c →
    ∃ c', call f a c = (Normal tt, c') ∧ J c'.

(** [e] was raised by [execute_action] itself, in a call for [a]: the
    recursion limit, a name that is not in the table, or a string that is
    neither a key nor callable. *)
Definition raised_by_executor (a : string) (e : exn) : Prop :=
  e = RecursionError ∨
  (∃ b, e = KeyError b ∧ table !! b = None ∧ (b = a ∨ dangling b)) ∨
  (e = TypeError "str" ∧ broken_alias).

(** The last event is the call of a handler that raised [e]. *)
Definition handler_raised (e : exn) st : Prop :=
  ∃ t f x, trace st = t ++ [Call f x; Exc f x e].

(** The calls with [depth] activations keep [J] of [args] and the world,
    and an exception that leaves them was raised by [execute_action]
    itself, or it satisfies [P] and was raised by the handler whose call
    is the last event. *)
Definition guarded (J : ctx W → Prop) (P : exn → Prop) (depth : nat) : Prop :=
  ∀ a rem st, J (context st) →
    ensures (execute_action table depth a rem) st (λ r st',
      J (context st') ∧
      ∀ e, r = Raised e → raised_by_executor a e ∨ (P e ∧ handler_raised e st')).

(** What argparse accepts. *)
Definition accepted (cl : command_line) (w : W) : Prop :=
  generator_ok (args (context (initial cl w))) = true ∧
  opt_actions cl ≠ [] ∧
  ∀ a, a ∈ opt_actions cl → is_Some (table !! a).

(** [e] was raised by [main] before its loop: by argparse, by
    [check_environment], or by the check of the build directory. *)
Definition raised_before_loop (cl : command_line) (w : W) (e : exn) : Prop :=
  (e = SystemExit 2 ∧ ¬ accepted cl w) ∨
  (accepted cl w ∧ ∃ f w', check_environment w = (Some f, w') ∧ e = exn_of f) ∨
  (accepted cl w ∧ ∃ dir w' msg, opt_build_dir cl = Some dir ∧
     check_environment w = (None, w') ∧
     realpath (default (getcwd w) (opt_project_dir cl)) w' = realpath dir w' ∧
     e = FatalError msg).

(** [e] was raised by [execute_action] itself, in a run whose requested
    names are keys of the table. *)
Definition raised_by_table (e : exn) : Prop :=
  e = RecursionError ∨
  (∃ b, e = KeyError b ∧ dangling b) ∨
  (e = TypeError "str" ∧ broken_alias).
End Origins.

(** ** The states a run goes through *)

Section States.
Context {W : Type} {host_ops : Host W}.
Variable table : registry.

Implicit Types (st : state W) (rem : list string).

(** Every completed action is a name of the table, with its dependencies
    completed, and those of its order-only dependencies that are in
    [rem]. *)
Definition settled rem st : Prop :=
  ∀ a, a ∈ completed_actions st →
    ∃ op hs os, table !! a = Some (op, hs, os) ∧
      (∀ d, d ∈ hs → d ∈ completed_actions st) ∧
      (∀ d, d ∈ os → d ∈ rem → d ∈ completed_actions st).

(** From [st] to [st'] the completed actions stay settled, none is
    dropped, and [args.actions] is the same. *)
Definition settles rem st st' : Prop :=
  settled rem st' ∧ completed_actions st ⊆ completed_actions st' ∧
  actions st' = actions st.

(** The states that a run goes through while it has not failed.  It
    starts with nothing completed (line 328).  From one of its states it
    goes on when a call of [execute_action] returns, the call being for
    any action, at any depth, with the rest of [args.actions] as
    [remaining_actions] (lines 335, 338, 343 and 350); when a handler
    returns (line 345), before the action is added to
    [completed_actions]; and with [args.actions.pop(0)] (line 351). *)
Inductive run_state : state W → Prop :=
| run_state_start st :
    completed_actions st = ∅ → run_state st
| run_state_call st depth a st' :
    run_state st →
    execute_action table depth a (tail (actions st)) st = (Normal tt, st') →
    run_state st'
| run_state_handler st f a st' :
    run_state st → invoke f a st = (Normal tt, st') → run_state st'
| run_state_pop st :
    run_state st → run_state (set_actions (tail (actions st)) st).
End States.

(** ** Command lines, tables and hosts for concrete runs *)

(** The same command line with other positional arguments. *)
Definition with_actions (l : list string) (cl : command_line) : command_line :=
  {| opt_port := opt_port cl; opt_baud := opt_baud cl;
     opt_project_dir := opt_project_dir cl; opt_build_dir := opt_build_dir cl;
     opt_generator := opt_generator cl; opt_actions := l |}.

(** The longest chain below each name of the shipped table. *)
Definition ACTIONS_rank (a : string) : nat :=
  if bool_decide (a = "monitor") then 4
  else if bool_decide (a ∈ ["flash"; "build"]) then 3
  else if bool_decide (a = "all") then 2
  else if bool_decide (a ∈ ["clean"; "size"; "size-components"; "size-files";
                            "bootloader-flash"; "app-flash"; "partition_table-flash"])
  then 1 else 0.

(** A host on which every tool succeeds. *)
Definition obliging : Host (list string) := scripted_host (λ _, Completed).

(** A host on which esptool fails with status 3. *)
Definition no_device : Host (list string) :=
  scripted_host (λ tool_args,
    if bool_decide ("write_flash" ∈ tool_args) then CalledProcessError 3 else Completed).

(** A table in which [a] and [b] are aliases of each other, and [a]
    depends on [c]. *)
Definition cyclic : registry := list_to_map [
  ("a", (Name "b", ["c"], []));
  ("b", (Name "a", [], []));
  ("c", (Callable fn_fullclean, [], []))
].

(** A table in which [base] is a dependency of [left] and of [right], and
    these are the dependencies of [top]. *)
Definition diamond : registry := list_to_map [
  ("top", (Callable fn_build_target, ["left"; "right"], []));
  ("left", (Callable fn_build_target, ["base"], []));
  ("right", (Callable fn_build_target, ["base"], []));
  ("base", (Callable fn_build_target, [], []))
].

(** A table whose only name is an alias of itself. *)
Definition self_alias : registry := {[ "loop" := (Name "loop", [], []) ]}.

(** ** A system for concrete runs

    The world is the list of what has been printed, run and changed so
    far, over a file system that stays as it is: [files] gives the text
    of each file, [documents] what [json.load] reads from each JSON
    file, [dirs] the names in each directory; [tool_status] chooses the
    result of each command. *)
Definition scripted_system (files : gmap string string) (documents : gmap string json)
    (dirs : gmap string (list string))
    (tool_status : list string → proc_status) : System (list string) :=
  {| sys_platform := Posix;
     sys_executable := "python";
     multiprocessing_cpu_count := 4;
     script_dir := "/idf/tools";
     os_path_join := λ a b, a +:+ "/" +:+ b;
     os_path_join_raises := λ _, Mistyped "join";
     os_getcwd := λ _, "/project";
     os_path_realpath := λ path _, path;
     os_path_isdir := λ path _, bool_decide (path ∈ dom dirs);
     os_path_exists := λ path _,
       bool_decide (path ∈ dom dirs) || bool_decide (path ∈ dom files)
       || bool_decide (path ∈ dom documents);
     os_listdir := λ path _, from_option inr (inl "OSError") (dirs !! path);
     os_mkdir := λ path w, (None, w ++ ["mkdir " +:+ path]);
     os_remove := λ path w, (None, w ++ ["remove " +:+ path]);
     shutil_rmtree := λ path w, (None, w ++ ["rmtree " +:+ path]);
     read_text := λ path _, from_option inr (inl "IOError") (files !! path);
     json_load := λ path _, from_option inr (inl "IOError") (documents !! path);
     sys_print := λ line w, w ++ [line];
     subprocess_check_call := λ tool_args _ _ w,
       (tool_status tool_args, w ++ [String.concat " " tool_args]);
     subprocess_check_output := λ tool_args _ w, (tool_status tool_args, w) |}.

(** A project whose build directory cmake has configured for
    [generator], with [description] in its [project_description.json]. *)
Definition described_project (generator : string) (description : json)
  : System (list string) :=
  scripted_system
    {[ "/project/CMakeLists.txt" := "project(app)" +:+ nl;
       "/project/build/CMakeCache.txt" :=
         "# This is the CMakeCache file." +:+ nl
         +:+ "CMAKE_GENERATOR:INTERNAL=" +:+ generator +:+ nl
         +:+ "CMAKE_HOME_DIRECTORY:INTERNAL=/project" +:+ nl;
       "/project/build/app.elf" := EmptyString ]}
    {[ "/project/build/project_description.json" := description ]}
    {[ "/project" := ["CMakeLists.txt"; "build"];
       "/project/build" := ["CMakeCache.txt"; "app.elf"; "project_description.json"] ]}
    (λ _, Completed).

(** The same, with the description that the build writes. *)
Definition configured_project (generator : string) : System (list string) :=
  described_project generator
    (JObject [("app_elf", JString "app.elf"); ("monitor_baud", JString "115200")]).

(** A project whose description has no [monitor_baud]. *)
Definition misdescribed_project : System (list string) :=
  described_project "Ninja" (JObject [("app_elf", JString "app.elf")]).

(** A directory of sources given as the build directory. *)
Definition precious_directory : System (list string) :=
  scripted_system
    {[ "/work/CMakeCache.txt" := EmptyString; "/work/main.c" := EmptyString ]}
    ∅
    {[ "/work" := ["CMakeCache.txt"; ".git"; "main.c"]; "/work/.git" := [] ]}
    (λ _, Completed).

(** The process in which the interpreter starts, with an empty
    environment. *)
Definition fresh : process (list string) := {| os_environ := ∅; world := [] |}.

(** [args] for the project in [/project], as [main] hands it to the
    handlers when no option is given. *)
Definition project_args : Namespace :=
  {| port := None; baud := BaudInt 460800; project_dir := "/project";
     build_dir := Some "/project/build"; generator := None |}.

(** The same once a handler has set the generator. *)
Definition ninja_args : Namespace :=
  {| port := None; baud := BaudInt 460800; project_dir := "/project";
     build_dir := Some "/project/build"; generator := Some "Ninja" |}.

(** [args] is one of the two, whatever the world. *)
Definition project_context {W} (c : ctx W) : Prop :=
  args c = project_args ∨ args c = ninja_args.

(** * Verification *)

(** ** Running the monad *)

Lemma bind_run {S A B} (m : prog S A) (k : A → prog S B) (st : S) :
  (m ≫= k) st = match m st with
                | (Normal a, st1) => k a st1
                | (Raised e, st1) => (Raised e, st1)
                end.
Proof. reflexivity. Qed.

Lemma bind_inv {S A B} (m : prog S A) (k : A → prog S B) st r st' :
  (m ≫= k) st = (r, st') →
  (∃ a st1, m st = (Normal a, st1) ∧ k a st1 = (r, st')) ∨
  (∃ e, m st = (Raised e, st') ∧ r = Raised e).
Proof.
  rewrite bind_run. destruct (m st) as [[a|e] st1]; intros Hk.
  - left. eauto.
  - right. exists e. by inversion Hk.
Qed.

Lemma ret_run {S A} (a : A) (st : S) : (mret a : prog S A) st = (Normal a, st).
Proof. reflexivity. Qed.

Lemma gets_run {S A} (f : S → A) (st : S) : gets f st = (Normal (f st), st).
Proof. reflexivity. Qed.

Lemma modify_run {S} (f : S → S) (st : S) : modify f st = (Normal tt, f st).
Proof. reflexivity. Qed.

Lemma raise_run {S A} (e : exn) (st : S) : @raise S A e st = (Raised e, st).
Proof. reflexivity. Qed.

Ltac run_in H :=
  repeat first [ rewrite bind_run in H | rewrite ret_run in H
               | rewrite gets_run in H | rewrite modify_run in H
               | rewrite raise_run in H | progress simpl in H ].

Ltac run :=
  repeat first [ rewrite bind_run | rewrite ret_run | rewrite gets_run
               | rewrite modify_run | rewrite raise_run | progress simpl ].

(** ** Traces *)

Lemma calls_app t1 t2 : calls (t1 ++ t2) = calls t1 ++ calls t2.
Proof. apply omap_app. Qed.

Lemma elem_of_calls a t : a ∈ calls t ↔ ∃ f, Call f a ∈ t.
Proof.
  unfold calls. rewrite list_elem_of_omap. split.
  - intros ([f b|f b|f b e] & Hin & Heq); simplify_eq. eauto.
  - intros [f Hin]. exists (Call f a). done.
Qed.

Lemma paired_ret_call t f a : paired t → Ret f a ∈ t → Call f a ∈ t.
Proof.
  induction 1 as [|t g b Hp IH]; [by intros ?%elem_of_nil|].
  rewrite !elem_of_app, !elem_of_cons, elem_of_nil.
  intros [?|[?|[?|[]]]]; simplify_eq; auto.
Qed.

Lemma paired_call_ret t f a : paired t → Call f a ∈ t → Ret f a ∈ t.
Proof.
  induction 1 as [|t g b Hp IH]; [by intros ?%elem_of_nil|].
  rewrite !elem_of_app, !elem_of_cons, elem_of_nil.
  intros [?|[?|[?|[]]]]; simplify_eq; auto.
Qed.

Lemma paired_no_exc t f a e : paired t → Exc f a e ∉ t.
Proof.
  induction 1 as [|t g b Hp IH]; [apply not_elem_of_nil|].
  rewrite !elem_of_app, !elem_of_cons, elem_of_nil.
  intros [?|[?|[?|[]]]]; simplify_eq; auto.
Qed.

Lemma before_app_r x y t t' : before x y t → before x y (t ++ t').
Proof.
  intros (t1 & t2 & t3 & ->). exists t1, t2, (t3 ++ t').
  by rewrite <- !app_assoc, <- !app_comm_cons, <- !app_assoc.
Qed.

Lemma before_snoc x y t t' : x ∈ t → before x y (t ++ y :: t').
Proof.
  intros (t1 & t2 & ->)%list_elem_of_split. exists t1, t2, t'.
  by rewrite <- !app_assoc.
Qed.

Lemma before_elem_of x y t : before x y t → x ∈ t ∧ y ∈ t.
Proof.
  intros (t1 & t2 & t3 & ->). split.
  - set_solver.
  - rewrite !elem_of_app, !elem_of_cons, !elem_of_app, !elem_of_cons. auto.
Qed.

(** ** The invariant of a run *)

Section Soundness.
Context {W : Type} {host_ops : Host W}.
Variable table : registry.

Implicit Types (st : state W) (t : list event) (rem : list string).

Local Abbreviation alias_of := (alias_of table).
Local Abbreviation handled_before := (handled_before table).
Local Abbreviation Inv := (Inv table).
Local Abbreviation extends := (extends table).
Local Abbreviation post := (post table).
Local Abbreviation resolve := (resolve table).
Local Abbreviation sound := (sound table).
Local Abbreviation progress := (progress table).
Local Abbreviation run_post := (run_post table).

Lemma Inv_failed e rem st : Inv rem st → failed e st.
Proof. intros [? ? ? ? ? ? ?]. split; auto. Qed.

Lemma Inv_weaken rem rem' st : rem' ⊆ rem → Inv rem st → Inv rem' st.
Proof. intros Hsub [? ? ? ? ? ? ?]. split; eauto. Qed.

Lemma handled_before_app_r d e t t' :
  handled_before d e t → handled_before d e (t ++ t').
Proof. intros H b f hs os Hal Hb. apply before_app_r; eauto. Qed.

Lemma extends_refl rem st : extends rem st st.
Proof.
  split; [done..|]. exists []. rewrite app_nil_r. split; [done|].
  by intros f a ?%elem_of_nil.
Qed.

Lemma extends_trans rem st1 st2 st3 :
  extends rem st1 st2 → extends rem st2 st3 → extends rem st1 st3.
Proof.
  intros [Hc1 Ha1 (n1 & Ht1 & Hn1)] [Hc2 Ha2 (n2 & Ht2 & Hn2)].
  split; [set_solver|congruence|].
  exists (n1 ++ n2). split; [by rewrite Ht2, Ht1, app_assoc|].
  intros f a [Hin|Hin]%elem_of_app.
  - destruct (Hn1 f a Hin) as (Hna & hs & os & Hent & Hd).
    split; [done|]. exists hs, os. split; [done|].
    intros d Hdd. rewrite Ht2. apply handled_before_app_r; auto.
  - destruct (Hn2 f a Hin) as (Hna & hs & os & Hent & Hd).
    split; [set_solver|]. eauto.
Qed.

Lemma extends_weaken rem rem' st st' :
  rem' ⊆ rem → extends rem st st' → extends rem' st st'.
Proof.
  intros Hsub [Hc Ha (n & Ht & Hn)]. split; [done..|].
  exists n. split; [done|]. intros f a Hin.
  destruct (Hn f a Hin) as (Hna & hs & os & Hent & Hd).
  split; [done|]. exists hs, os. split; [done|].
  intros d [?|[? ?]]; apply Hd; auto.
Qed.

Lemma completed_alias rem st a b :
  Inv rem st → alias_of a b → a ∈ completed_actions st → b ∈ completed_actions st.
Proof. intros HI. induction 1; eauto using inv_alias. Qed.

Lemma completed_reaches rem st a x :
  Inv rem st → reaches table [] a x → a ∈ completed_actions st → x ∈ completed_actions st.
Proof.
  intros HI. induction 1 as [| | ?????? _ _ Hin |]; eauto using inv_alias, inv_hard.
  by apply elem_of_nil in Hin.
Qed.

Lemma completed_handled rem st a b f hs os :
  Inv rem st → a ∈ completed_actions st → alias_of a b →
  table !! b = Some (Callable f, hs, os) → Ret f b ∈ trace st.
Proof. intros HI Ha Hal Hb. eapply inv_rets; eauto using completed_alias. Qed.

(** *** The handler call *)

Lemma invoke_run f a st r st' :
  invoke f a st = (r, st') →
  completed_actions st' = completed_actions st ∧
  actions st' = actions st ∧
  trace st' = trace st ++ [Call f a;
                           match r with Normal _ => Ret f a | Raised e => Exc f a e end].
Proof.
  unfold invoke, log, try_except, in_context, modify, raise.
  rewrite !bind_run. simpl.
  destruct (call f a (context st)) as [[[]|e] c]; simpl;
    intros [= <- <-]; simpl; by rewrite <- ?app_assoc.
Qed.

Lemma invoke_sound rem f a hs os st r st' :
  Inv rem st → a ∉ completed_actions st →
  table !! a = Some (Callable f, hs, os) →
  (∀ d, d ∈ hs → d ∈ completed_actions st) →
  (∀ d, d ∈ os → d ∈ rem → d ∈ completed_actions st) →
  invoke f a st = (r, st') →
  extends rem st st' ∧
  match r with
  | Normal _ => Inv rem (add_completed a st')
  | Raised e => failed e st'
  end.
Proof.
  intros HI Hna Hent Hhs Hos (Hc & Ha & Ht)%invoke_run.
  assert (a ∉ calls (trace st)) as Hfresh.
  { intros [g Hin]%elem_of_calls. eauto using inv_calls. }
  split.
  - split; [by rewrite Hc|done|].
    eexists. split; [exact Ht|].
    intros g b Hin. assert (g = f ∧ b = a) as [-> ->].
    { destruct r; set_solver. }
    split; [done|]. exists hs, os. split; [done|].
    intros d Hd bb ff hh oo Hal Hbb. rewrite Ht. apply before_snoc.
    eapply completed_handled; eauto. destruct Hd as [?|[? ?]]; auto.
  - destruct r as [[]|e].
    + split; simpl; rewrite ?Ht, ?Hc.
      * intros g b [Hin|Hin]%elem_of_app; [|set_solver].
        apply elem_of_union_r. eauto using inv_calls.
      * intros b g hh oo [Hb|Hb]%elem_of_union Hbb.
        { apply elem_of_singleton in Hb as ->. simplify_eq. set_solver. }
        apply elem_of_app. left. eauto using inv_rets.
      * intros b c hh oo [Hb|Hb]%elem_of_union Hbb.
        { apply elem_of_singleton in Hb as ->. simplify_eq. }
        apply elem_of_union_r. eauto using inv_alias.
      * intros b op hh oo d [Hb|Hb]%elem_of_union Hbb Hd.
        { apply elem_of_singleton in Hb as ->. simplify_eq.
          apply elem_of_union_r. auto. }
        apply elem_of_union_r. eauto using inv_hard.
      * intros b op hh oo d [Hb|Hb]%elem_of_union Hbb Hd Hr.
        { apply elem_of_singleton in Hb as ->. simplify_eq.
          apply elem_of_union_r. auto. }
        apply elem_of_union_r. eauto using inv_order.
      * rewrite calls_app. simpl. apply NoDup_app. split; [apply HI|].
        split; [|apply NoDup_singleton].
        intros b Hb ->%list_elem_of_singleton. done.
      * apply paired_snoc, HI.
    + split.
      * rewrite Ht, calls_app. simpl. apply NoDup_app. split; [apply HI|].
        split; [|apply NoDup_singleton].
        intros b Hb ->%list_elem_of_singleton. done.
      * right. exists (trace st), f, a. split; [done|apply HI].
Qed.
(** *** Marking an action completed *)

Lemma add_completed_extends rem a st : extends rem st (add_completed a st).
Proof.
  split; simpl; [set_solver|done|].
  exists []. rewrite app_nil_r. split; [done|]. by intros f b ?%elem_of_nil.
Qed.

Lemma add_completed_done a st :
  a ∈ completed_actions st → add_completed a st = st.
Proof.
  intros Ha. destruct st as [c l x t]. unfold add_completed, set_completed. simpl in *.
  f_equal. set_solver.
Qed.

Lemma add_completed_alias rem a b hs os st :
  Inv rem st → table !! a = Some (Name b, hs, os) →
  b ∈ completed_actions st →
  (∀ d, d ∈ hs → d ∈ completed_actions st) →
  (∀ d, d ∈ os → d ∈ rem → d ∈ completed_actions st) →
  Inv rem (add_completed a st).
Proof.
  intros HI Hent Hb Hhs Hos. split; simpl.
  - intros g c Hin. apply elem_of_union_r. eauto using inv_calls.
  - intros c g hh oo [Hc|Hc]%elem_of_union Hcc.
    { apply elem_of_singleton in Hc as ->. simplify_eq. }
    eauto using inv_rets.
  - intros c d hh oo [Hc|Hc]%elem_of_union Hcc.
    { apply elem_of_singleton in Hc as ->. simplify_eq. set_solver. }
    apply elem_of_union_r. eauto using inv_alias.
  - intros c op hh oo d [Hc|Hc]%elem_of_union Hcc Hd.
    { apply elem_of_singleton in Hc as ->. simplify_eq. set_solver. }
    apply elem_of_union_r. eauto using inv_hard.
  - intros c op hh oo d [Hc|Hc]%elem_of_union Hcc Hd Hr.
    { apply elem_of_singleton in Hc as ->. simplify_eq. set_solver. }
    apply elem_of_union_r. eauto using inv_order.
  - apply HI.
  - apply HI.
Qed.

(** *** The recursion *)

Lemma execute_action_unfold depth a rem :
  execute_action table (S depth) a rem =
  match table !! a with
  | None => raise (KeyError a)
  | Some (function, dependencies, order_dependencies) =>
      for_each dependencies (resolve depth rem (λ _, true));;
      for_each order_dependencies (resolve depth rem (λ dep, bool_decide (dep ∈ rem)));;
      completed ← gets completed_actions;
      (if bool_decide (a ∈ completed) then mret tt
       else match function with
            | Name target =>
                if bool_decide (target ∈ dom table)
                then execute_action table depth target rem
                else raise (TypeError "str")
            | Callable f => invoke f a
            end);;
      modify (add_completed a)
  end.
Proof. reflexivity. Qed.

Lemma for_each_resolve_sound depth rem q deps :
  sound depth →
  ∀ st r st', Inv rem st → for_each deps (resolve depth rem q) st = (r, st') →
    extends rem st st' ∧
    match r with
    | Normal _ => Inv rem st' ∧ ∀ d, d ∈ deps → q d = true → d ∈ completed_actions st'
    | Raised e => failed e st'
    end.
Proof.
  intros IH. induction deps as [|dep deps IHdeps]; intros st r st' HI Hrun.
  - inversion Hrun; subst. split; [apply extends_refl|].
    split; [done|]. by intros d ?%elem_of_nil.
  - simpl in Hrun.
    apply bind_inv in Hrun as [([] & st1 & Hdep & Hrest)|(e & Hdep & ->)].
    + assert (extends rem st st1 ∧ Inv rem st1 ∧ (q dep = true → dep ∈ completed_actions st1))
        as (Hext1 & HI1 & Hdone).
      { unfold resolve in Hdep. rewrite bind_run in Hdep. simpl in Hdep.
        destruct (q dep); simpl in Hdep; [case_bool_decide as Hc; simpl in Hdep|].
        - destruct (IH _ _ _ _ _ HI Hdep) as [? [? ?]]. auto.
        - inversion Hdep; subst. split; [apply extends_refl|].
          split; [done|]. intros _. exact Hc.
        - inversion Hdep; subst. split; [apply extends_refl|]. done. }
      destruct (IHdeps _ _ _ HI1 Hrest) as [Hext2 Hpost].
      split; [eauto using extends_trans|].
      destruct r as [[]|e]; [|done]. destruct Hpost as [HI2 Hall].
      split; [done|]. intros d [->|Hd]%elem_of_cons Hq; [|auto].
      apply (ext_completed _ _ _ _ Hext2). auto.
    + unfold resolve in Hdep. rewrite bind_run in Hdep. simpl in Hdep.
      destruct (q dep && bool_decide (dep ∉ completed_actions st)); [|done].
      apply (IH _ _ _ _ _ HI Hdep).
Qed.

Lemma execute_action_sound depth : sound depth.
Proof.
  induction depth as [|depth IH]; intros a rem st r st' HI Hrun.
  { inversion Hrun; subst. split; [apply extends_refl|by eapply Inv_failed]. }
  rewrite execute_action_unfold in Hrun.
  destruct (table !! a) as [[[op hs] os]|] eqn:Hent; cycle 1.
  { inversion Hrun; subst. split; [apply extends_refl|by eapply Inv_failed]. }
  apply bind_inv in Hrun as [([] & st1 & Hhard & Hrun)|(e & Hhard & ->)]; cycle 1.
  { apply (for_each_resolve_sound _ _ _ _ IH _ _ _ HI Hhard). }
  destruct (for_each_resolve_sound _ _ _ _ IH _ _ _ HI Hhard) as (Hext1 & HI1 & Hhs).
  apply bind_inv in Hrun as [([] & st2 & Hord & Hrun)|(e & Hord & ->)]; cycle 1.
  { destruct (for_each_resolve_sound _ _ _ _ IH _ _ _ HI1 Hord) as (Hext2 & Hf).
    eauto using extends_trans. }
  destruct (for_each_resolve_sound _ _ _ _ IH _ _ _ HI1 Hord) as (Hext2 & HI2 & Hos).
  assert (extends rem st st2) as Hext by eauto using extends_trans.
  assert (∀ d, d ∈ hs → d ∈ completed_actions st2) as Hhs2.
  { intros d Hd. apply (ext_completed _ _ _ _ Hext2). auto. }
  assert (∀ d, d ∈ os → d ∈ rem → d ∈ completed_actions st2) as Hos2.
  { intros d Hd Hr. apply Hos; [done|]. by apply bool_decide_eq_true. }
  clear Hhard Hord Hhs Hos Hext1 Hext2 HI1 HI.
  rewrite bind_run in Hrun. simpl in Hrun.
  case_bool_decide as Hdone; simpl in Hrun.
  { (* we've already done this *)
    run_in Hrun. inversion Hrun; subst. rewrite add_completed_done by done.
    split; [done|]. by split. }
  destruct op as [f|target].
  - (* a function of the script *)
    rewrite bind_run in Hrun.
    destruct (invoke f a st2) as [[[]|e] st3] eqn:Hinv.
    + destruct (invoke_sound rem _ _ _ _ _ _ _ HI2 Hdone Hent Hhs2 Hos2 Hinv)
        as [Hext3 HI3].
      run_in Hrun. inversion Hrun; subst. split.
      * eauto using extends_trans, add_completed_extends.
      * split; [done|]. simpl. set_solver.
    + destruct (invoke_sound rem _ _ _ _ _ _ _ HI2 Hdone Hent Hhs2 Hos2 Hinv)
        as [Hext3 HI3].
      inversion Hrun; subst. eauto using extends_trans.
  - (* alias of another action *)
    case_bool_decide as Hkey; simpl in Hrun; cycle 1.
    { inversion Hrun; subst. split; [done|by eapply Inv_failed]. }
    rewrite bind_run in Hrun.
    destruct (execute_action table depth target rem st2) as [[[]|e] st3] eqn:Htgt.
    + destruct (IH _ _ _ _ _ HI2 Htgt) as [Hext3 [HI3 Hin3]].
      run_in Hrun. inversion Hrun; subst. split.
      * eauto using extends_trans, add_completed_extends.
      * split; [|simpl; set_solver].
        eapply add_completed_alias; eauto.
        -- intros d Hd. apply (ext_completed _ _ _ _ Hext3). auto.
        -- intros d Hd Hr. apply (ext_completed _ _ _ _ Hext3). auto.
    + destruct (IH _ _ _ _ _ HI2 Htgt) as [Hext3 Hf].
      inversion Hrun; subst. eauto using extends_trans.
Qed.
(** *** The loop over the requested actions and [main] *)

Lemma extends_progress rem st st' : extends rem st st' → progress st st'.
Proof.
  intros [Hc _ (n & Ht & Hn)]. split; [done|].
  exists n. split; [done|]. intros f a Hin.
  destruct (Hn f a Hin) as (Hna & hs & os & Hent & Hd).
  split; [done|]. exists hs, os. auto.
Qed.

Lemma progress_refl st : progress st st.
Proof. apply (extends_progress []), extends_refl. Qed.

Lemma progress_trans st1 st2 st3 :
  progress st1 st2 → progress st2 st3 → progress st1 st3.
Proof.
  intros [Hc1 (n1 & Ht1 & Hn1)] [Hc2 (n2 & Ht2 & Hn2)].
  split; [set_solver|].
  exists (n1 ++ n2). split; [by rewrite Ht2, Ht1, app_assoc|].
  intros f a [Hin|Hin]%elem_of_app.
  - destruct (Hn1 f a Hin) as (Hna & hs & os & Hent & Hd).
    split; [done|]. exists hs, os. split; [done|].
    intros d Hdd. rewrite Ht2. apply handled_before_app_r; auto.
  - destruct (Hn2 f a Hin) as (Hna & hs & os & Hent & Hd).
    split; [set_solver|]. eauto.
Qed.

Lemma same_run_Inv rem st st' : same_run st st' → Inv rem st → Inv rem st'.
Proof.
  intros [Hc Ht] [? ? ? ? ? ? ?]. split; rewrite ?Hc, ?Ht; auto.
Qed.

Lemma same_run_failed e st st' : same_run st st' → failed e st → failed e st'.
Proof. intros [Hc Ht]. unfold failed. by rewrite Ht. Qed.

Lemma same_run_progress st st' : same_run st st' → progress st st'.
Proof.
  intros [Hc Ht]. split; [by rewrite Hc|]. exists []. rewrite app_nil_r.
  split; [done|]. by intros f a ?%elem_of_nil.
Qed.

Lemma in_context_same {A} (m : prog (ctx W) A) st r st' :
  in_context m st = (r, st') → same_run st st' ∧ actions st' = actions st.
Proof.
  unfold in_context. destruct (m (context st)) as [r' c].
  by intros [= <- <-].
Qed.

Lemma while_actions_sound limit queue :
  ∀ st r st', Inv queue st → actions st = queue →
    while_actions table limit queue st = (r, st') →
    progress st st' ∧ run_post queue r st'.
Proof.
  induction queue as [|first rest IH]; intros st r st' HI Hq Hrun.
  { inversion Hrun; subst. split; [apply progress_refl|].
    split; [done|]. split; [done|]. by intros a ?%elem_of_nil. }
  simpl in Hrun.
  apply (Inv_weaken _ rest) in HI; [|set_solver].
  apply bind_inv in Hrun as [([] & st1 & Hfirst & Hrun)|(e & Hfirst & ->)]; cycle 1.
  { destruct (execute_action_sound _ _ _ _ _ _ HI Hfirst) as [Hext Hf].
    eauto using extends_progress. }
  destruct (execute_action_sound _ _ _ _ _ _ HI Hfirst) as [Hext [HI1 Hin1]].
  run_in Hrun.
  set (st2 := set_actions (tail (actions st1)) st1) in Hrun.
  assert (same_run st1 st2) as Hsame by done.
  assert (actions st2 = rest) as Hq2.
  { simpl. by rewrite (ext_actions _ _ _ _ Hext), Hq. }
  destruct (IH _ _ _ (same_run_Inv _ _ _ Hsame HI1) Hq2 Hrun) as [Hprog Hpost].
  split.
  - eauto using progress_trans, extends_progress, same_run_progress.
  - destruct r as [[]|e]; [|done]. destruct Hpost as (HI' & Hq' & Hall).
    split; [done|]. split; [done|].
    intros a [->|Ha]%elem_of_cons; [|auto].
    apply (prog_completed _ _ _ Hprog). done.
Qed.

Lemma initial_Inv rem cl w : Inv rem (initial cl w).
Proof.
  split; simpl; intros; try set_solver.
  - by apply NoDup_nil.
  - constructor.
Qed.

Lemma main_sound limit cl w r st' :
  main table limit (initial cl w) = (r, st') →
  progress (initial cl w) st' ∧ run_post (opt_actions cl) r st'.
Proof.
  unfold main. intros Hrun.
  pose proof (initial_Inv (opt_actions cl) cl w) as HI.
  apply bind_inv in Hrun as [([] & st1 & Hparse & Hrun)|(e & Hparse & ->)]; cycle 1.
  { unfold parse_args in Hparse. run_in Hparse.
    destruct (_ && _) in Hparse; inversion Hparse; subst.
    split; [apply progress_refl|by eapply Inv_failed]. }
  assert (st1 = initial cl w) as ->.
  { unfold parse_args in Hparse. run_in Hparse.
    destruct (_ && _) in Hparse; by inversion Hparse. }
  apply bind_inv in Hrun as [([] & st2 & Henv & Hrun)|(e & Henv & ->)]; cycle 1.
  { apply in_context_same in Henv as [Hsame _].
    split; [by apply same_run_progress|].
    eapply same_run_failed; [done|by eapply Inv_failed]. }
  apply in_context_same in Henv as [Hsame2 Hact2].
  apply bind_inv in Hrun as [([] & st3 & Hdir & Hrun)|(e & Hdir & ->)]; cycle 1.
  { apply in_context_same in Hdir as [Hsame3 _].
    split; [eauto using progress_trans, same_run_progress|].
    eapply same_run_failed; [done|].
    eapply same_run_failed; [done|by eapply Inv_failed]. }
  apply in_context_same in Hdir as [Hsame3 Hact3].
  run_in Hrun.
  assert (Inv (actions st3) st3) as HI3.
  { rewrite Hact3, Hact2. eauto using same_run_Inv. }
  destruct (while_actions_sound _ _ _ _ _ HI3 eq_refl Hrun) as [Hprog Hpost].
  split; [eauto using progress_trans, same_run_progress|].
  by rewrite Hact3, Hact2 in Hpost.
Qed.
End Soundness.


(** ** Counting and ordering handler calls *)

Lemma filter_eq_NoDup (a : string) (l : list string) :
  NoDup l → length (filter (λ x, x = a) l) = if bool_decide (a ∈ l) then 1%nat else 0%nat.
Proof.
  induction 1 as [|x l Hx Hl IH]; [done|].
  rewrite filter_cons. destruct (decide (x = a)) as [->|Hne]; simpl.
  - rewrite IH. rewrite (bool_decide_eq_false_2 _ Hx).
    by rewrite bool_decide_eq_true_2 by apply list_elem_of_here.
  - rewrite IH. apply (f_equal (λ b : bool, if b then 1%nat else 0%nat)).
    apply bool_decide_ext. set_solver.
Qed.

Lemma invocations_once a f t :
  NoDup (calls t) → Call f a ∈ t → invocations a t = 1%nat.
Proof.
  intros Hnd Hin. unfold invocations. rewrite filter_eq_NoDup by done.
  rewrite bool_decide_eq_true_2; [done|]. apply elem_of_calls. eauto.
Qed.

Lemma invocations_le a t : NoDup (calls t) → (invocations a t ≤ 1)%nat.
Proof.
  intros Hnd. unfold invocations. rewrite filter_eq_NoDup by done.
  case_bool_decide; lia.
Qed.

Lemma split_unique {A} (y : A) (l1 l2 l1' l2' : list A) :
  l1 ++ y :: l2 = l1' ++ y :: l2' → y ∉ l1 → y ∉ l1' → l1 = l1'.
Proof.
  revert l1'. induction l1 as [|x l1 IH]; intros [|x' l1'] Heq Hn Hn'; simpl in *.
  - done.
  - simplify_eq. set_solver.
  - simplify_eq. set_solver.
  - simplify_eq. f_equal. apply IH; set_solver.
Qed.

Lemma call_fresh_prefix f a t1 t2 : NoDup (calls (t1 ++ Call f a :: t2)) → Call f a ∉ t1.
Proof.
  rewrite calls_app. simpl. intros Hnd Hin.
  apply NoDup_app in Hnd as (_ & Hdisj & _). apply (Hdisj a).
  - apply elem_of_calls. eauto.
  - apply list_elem_of_here.
Qed.

(** With every handler entered at most once, "before the call" is
    "in the part of the trace in front of the call". *)
Lemma before_call_prefix x f a t t1 t2 :
  NoDup (calls t) → t = t1 ++ Call f a :: t2 → before x (Call f a) t → x ∈ t1.
Proof.
  intros Hnd -> (s1 & s2 & s3 & Heq).
  assert (t1 = s1 ++ x :: s2) as ->; [|set_solver].
  apply (split_unique (Call f a) _ t2 _ s3).
  - by rewrite Heq, <- app_assoc.
  - by eapply call_fresh_prefix.
  - rewrite Heq in Hnd. eapply call_fresh_prefix.
    by rewrite <- app_assoc, <- app_comm_cons.
Qed.

(** ** Properties of a run *)

Section Run.
Context {W : Type} {host_ops : Host W}.
Variable table : registry.
Variable recursion_limit : nat.

Implicit Types (st : state W) (cl : command_line) (w : W).

Lemma run_nodup cl w r st :
  main table recursion_limit (initial cl w) = (r, st) → NoDup (calls (trace st)).
Proof.
  intros [_ Hpost]%main_sound. destruct r; [apply Hpost|apply Hpost].
Qed.

(** C1 (dedup). In any run no action has its handler entered twice.  When
    the run completes, every requested name has had the handler it stands
    for (its own, or the one at the end of its alias chain) entered
    exactly once, however often the name was requested and whatever else
    depends on it; and so has every action [x] that a requested name
    reaches through dependencies and aliases, along however many paths,
    whether or not [x] was requested itself. *)
Theorem handler_invoked_exactly_once cl w r st :
  main table recursion_limit (initial cl w) = (r, st) →
  (∀ a, invocations a (trace st) ≤ 1)%nat ∧
  (r = Normal tt →
   ∀ a b f hs os, a ∈ opt_actions cl → alias_of table a b →
     table !! b = Some (Callable f, hs, os) →
     invocations b (trace st) = 1%nat) ∧
  (r = Normal tt →
   ∀ a x f hs os, a ∈ opt_actions cl → reaches table [] a x →
     table !! x = Some (Callable f, hs, os) →
     invocations x (trace st) = 1%nat).
Proof.
  intros Hrun. pose proof (run_nodup _ _ _ _ Hrun) as Hnd.
  split; [intros a; by apply invocations_le|].
  split.
  - intros -> a b f hs os Ha Hal Hb.
    destruct (main_sound _ _ _ _ _ _ Hrun) as [_ (HI & _ & Hall)].
    apply (invocations_once b f); [done|].
    apply paired_ret_call; [apply HI|].
    eapply completed_handled; eauto.
  - intros -> a x f hs os Ha Hreach Hx.
    destruct (main_sound _ _ _ _ _ _ Hrun) as [_ (HI & _ & Hall)].
    apply (invocations_once x f); [done|].
    apply paired_ret_call; [apply HI|].
    eapply inv_rets; [done| |done].
    eapply completed_reaches; eauto.
Qed.

(** C2 (hard-dependency precedence). Wherever the handler of [a] is
    entered in a run, the handler behind each of its dependencies [d] has
    returned earlier in that run, whether or not [d] was requested. *)
Theorem hard_dependency_precedence cl w r st a f hs os d :
  main table recursion_limit (initial cl w) = (r, st) →
  table !! a = Some (Callable f, hs, os) → d ∈ hs →
  ∀ t1 t2, trace st = t1 ++ Call f a :: t2 →
  ∀ b g hs' os', alias_of table d b → table !! b = Some (Callable g, hs', os') →
    Ret g b ∈ t1.
Proof.
  intros Hrun Hent Hd t1 t2 Ht b g hs' os' Hal Hb.
  pose proof (run_nodup _ _ _ _ Hrun) as Hnd.
  destruct (main_sound _ _ _ _ _ _ Hrun) as [[_ (new & Hnew & Hcalls)] _].
  simpl in Hnew. subst new.
  destruct (Hcalls f a) as (_ & hs0 & os0 & Hent0 & Hbefore).
  { rewrite Ht. set_solver. }
  simplify_eq.
  eapply before_call_prefix; [done..|]. eapply Hbefore; eauto.
Qed.

(** C10. When the run completes, every requested name is in
    [completed_actions], [args.actions] is empty, and each action whose
    handler was entered has all its dependencies in [completed_actions]. *)
Theorem completed_run_closed cl w st :
  main table recursion_limit (initial cl w) = (Normal tt, st) →
  (∀ a, a ∈ opt_actions cl → a ∈ completed_actions st) ∧
  actions st = [] ∧
  (∀ f a op hs os d, Call f a ∈ trace st → table !! a = Some (op, hs, os) →
     d ∈ hs → d ∈ completed_actions st).
Proof.
  intros Hrun.
  destruct (main_sound _ _ _ _ _ _ Hrun) as [_ (HI & Hq & Hall)].
  split; [done|]. split; [done|].
  intros f a op hs os d Hcall Hent Hd.
  eapply inv_hard; eauto using inv_calls.
Qed.

End Run.

(** ** The recursion limit *)

Section Depth.
Context {W : Type} {host_ops : Host W}.
Variable table : registry.

Implicit Types (rem : list string).

Local Abbreviation ranked := (ranked table).
Local Abbreviation deepens := (deepens table).

Lemma shallow_ret {S A} (a : A) : shallow (mret a : prog S A).
Proof. by intros st e st'. Qed.

Lemma shallow_gets {S A} (f : S → A) : shallow (gets f).
Proof. by intros st e st'. Qed.

Lemma shallow_raise {S A} (e : exn) : e ≠ RecursionError → shallow (@raise S A e).
Proof. intros He st e' st' [= <- <-]. done. Qed.

Lemma shallow_bind {S A B} (m : prog S A) (k : A → prog S B) :
  shallow m → (∀ a, shallow (k a)) → shallow (m ≫= k).
Proof.
  intros Hm Hk st e st' [(a & st1 & _ & Hrun)|(e' & Hrun & [= ->])]%bind_inv.
  - by eapply Hk.
  - by eapply Hm.
Qed.

Lemma shallow_on_host {A} (f : W → A * W) : shallow (on_host f).
Proof. intros c e c'. unfold on_host. by destruct (f (host c)). Qed.

Lemma shallow_host_call (f : Namespace → W → option failure * Namespace * W) :
  shallow (host_call f).
Proof.
  intros c e c'. unfold host_call.
  destruct (f (args c) (host c)) as [[[[]|]]]; intros [= <- <-]; done.
Qed.

Lemma shallow_run_tool tool_name tool_args cwd :
  shallow (_run_tool tool_name tool_args cwd).
Proof.
  unfold _run_tool, none_path, do_print. destruct cwd; [|by apply shallow_raise].
  repeat (apply shallow_bind; [apply shallow_on_host|intros ?]).
  case_match; by first [apply shallow_ret|apply shallow_raise].
Qed.

Lemma shallow_get_esptool_args : shallow _get_esptool_args.
Proof.
  unfold _get_esptool_args. apply shallow_bind; [apply shallow_gets|intros ?].
  case_match; [|by apply shallow_raise].
  apply shallow_bind; [apply shallow_gets|intros ?]. apply shallow_ret.
Qed.

Lemma shallow_build_target target_name : shallow (build_target target_name).
Proof.
  unfold build_target. apply shallow_bind; [apply shallow_host_call|intros ?].
  apply shallow_bind; [apply shallow_gets|intros ?].
  repeat case_match; by first [apply shallow_run_tool|apply shallow_raise].
Qed.

(** No handler raises it. *)
Lemma shallow_call f a : shallow (call f a).
Proof.
  destruct f; simpl.
  - apply shallow_build_target.
  - unfold flash. case_match; [|by apply shallow_raise].
    apply shallow_bind; [apply shallow_get_esptool_args|intros ?].
    apply shallow_bind; [apply shallow_gets|intros ?]. apply shallow_run_tool.
  - unfold erase_flash.
    apply shallow_bind; [apply shallow_get_esptool_args|intros ?].
    apply shallow_bind; [apply shallow_gets|intros ?]. apply shallow_run_tool.
  - apply shallow_host_call.
  - unfold clean, none_path. apply shallow_bind; [apply shallow_gets|intros ?].
    case_match; [|by apply shallow_raise].
    apply shallow_bind; [apply shallow_gets|intros ?].
    case_match; [unfold do_print; apply shallow_on_host|apply shallow_build_target].
  - apply shallow_host_call.
Qed.

Lemma shallow_invoke f a : shallow (invoke f a).
Proof.
  unfold invoke, log, try_except, in_context. intros st e st' Hrun. run_in Hrun.
  destruct (call f a (context st)) as [[[]|e'] c] eqn:Hcall; run_in Hrun; [done|].
  inversion Hrun; subst. by eapply shallow_call.
Qed.

(** *** A table without cycles needs only as many activations as its
    longest chain *)

Lemma shallow_for_each {A} (l : list A) (body : A → prog (state W) unit) :
  (∀ x, x ∈ l → shallow (body x)) → shallow (for_each l body).
Proof.
  induction l as [|x l IH]; intros Hbody; simpl.
  - apply shallow_ret.
  - apply shallow_bind; [apply Hbody; set_solver|intros _].
    apply IH. intros y Hy. apply Hbody. set_solver.
Qed.

Lemma execute_action_shallow rank depth :
  ranked rank → ∀ a rem, (rank a < depth)%nat → shallow (execute_action table depth a rem).
Proof.
  intros Hrk. induction depth as [|depth IH]; intros a rem Hlt; [lia|].
  rewrite execute_action_unfold.
  destruct (table !! a) as [[[op hs] os]|] eqn:Hent; [|by apply shallow_raise].
  destruct (Hrk _ _ _ _ Hent) as (Hhs & Hos & Hal).
  assert (∀ q deps, (∀ d, d ∈ deps → (rank d < rank a)%nat) →
                    shallow (for_each deps (resolve table depth rem q))) as Hloop.
  { intros q deps Hdeps. apply shallow_for_each. intros d Hd. unfold resolve.
    apply shallow_bind; [apply shallow_gets|intros c].
    case_match; [|apply shallow_ret]. apply IH. specialize (Hdeps d Hd). lia. }
  apply shallow_bind; [by apply Hloop|intros _].
  apply shallow_bind; [by apply Hloop|intros _].
  apply shallow_bind; [apply shallow_gets|intros c].
  apply shallow_bind; [|by intros _ st e st'].
  case_match; [apply shallow_ret|].
  destruct op as [f|b]; [apply shallow_invoke|].
  case_match; [|by apply shallow_raise].
  apply IH. specialize (Hal b eq_refl). lia.
Qed.

(** *** More activations change nothing for a call that had enough *)

Lemma for_each_resolve_deepens depth rem q deps :
  deepens depth →
  ∀ st r st', for_each deps (resolve table depth rem q) st = (r, st') →
    r ≠ Raised RecursionError →
    for_each deps (resolve table (S depth) rem q) st = (r, st').
Proof.
  intros IH. induction deps as [|dep deps IHdeps]; intros st r st' Hrun Hr; [done|].
  simpl in *. rewrite bind_run in *.
  assert (∀ r1 st1, resolve table depth rem q dep st = (r1, st1) →
                    r1 ≠ Raised RecursionError →
                    resolve table (S depth) rem q dep st = (r1, st1)) as Hdep.
  { unfold resolve. intros r1 st1. rewrite !bind_run, !gets_run.
    destruct (q dep && bool_decide (dep ∉ completed_actions st)); [apply IH|done]. }
  destruct (resolve table depth rem q dep st) as [[[]|e] st1] eqn:Hd.
  - rewrite (Hdep _ _ eq_refl) by done. auto.
  - inversion Hrun; subst. by rewrite (Hdep _ _ eq_refl).
Qed.

Lemma execute_action_deepens depth : deepens depth.
Proof.
  induction depth as [|depth IH]; intros a rem st r st' Hrun Hr.
  { inversion Hrun; subst. done. }
  rewrite execute_action_unfold in Hrun. rewrite execute_action_unfold.
  destruct (table !! a) as [[[op hs] os]|] eqn:Hent; [|done].
  rewrite bind_run in *.
  destruct (for_each hs _ st) as [[[]|e] st1] eqn:Hhard in Hrun; cycle 1.
  { inversion Hrun; subst.
    by rewrite (for_each_resolve_deepens _ _ _ _ IH _ _ _ Hhard). }
  rewrite (for_each_resolve_deepens _ _ _ _ IH _ _ _ Hhard) by done.
  rewrite bind_run in *.
  destruct (for_each os _ st1) as [[[]|e] st2] eqn:Hord in Hrun; cycle 1.
  { inversion Hrun; subst.
    by rewrite (for_each_resolve_deepens _ _ _ _ IH _ _ _ Hord). }
  rewrite (for_each_resolve_deepens _ _ _ _ IH _ _ _ Hord) by done.
  rewrite bind_run, gets_run in *.
  case_bool_decide; [done|].
  destruct op as [f|b]; [done|].
  case_bool_decide; [|done].
  rewrite bind_run in *.
  destruct (execute_action table depth b rem st2) as [[[]|e] st3] eqn:Htgt.
  - by rewrite (IH _ _ _ _ _ Htgt).
  - inversion Hrun; subst. by rewrite (IH _ _ _ _ _ Htgt).
Qed.
End Depth.

(** ** Calls that find their work done *)

Section Resolution.
Context {W : Type} {host_ops : Host W}.
Variable table : registry.

Implicit Types (st : state W) (rem : list string).

(** A dependency loop over names that are completed, or fail the static
    part of the test, does nothing. *)
Lemma for_each_resolve_skip depth rem q deps st :
  (∀ d, d ∈ deps → q d = true → d ∈ completed_actions st) →
  for_each deps (resolve table depth rem q) st = (Normal tt, st).
Proof.
  induction deps as [|dep deps IH]; intros Hdeps; [done|].
  simpl. rewrite bind_run. unfold resolve at 1. rewrite bind_run, gets_run.
  destruct (q dep) eqn:Hq; simpl.
  - rewrite bool_decide_eq_false_2; [|intros Hn; apply Hn, Hdeps; [set_solver|done]].
    run. apply IH. intros d Hd. apply Hdeps. set_solver.
  - run. apply IH. intros d Hd. apply Hdeps. set_solver.
Qed.

(** With the dependencies of [a] completed, and the order-only ones that
    are in [rem], a call for a function goes straight to the handler. *)
Lemma execute_action_ready depth a rem st f hs os :
  table !! a = Some (Callable f, hs, os) →
  a ∉ completed_actions st →
  (∀ d, d ∈ hs → d ∈ completed_actions st) →
  (∀ d, d ∈ os → d ∈ rem → d ∈ completed_actions st) →
  execute_action table (S depth) a rem st =
  (invoke f a;; modify (add_completed a)) st.
Proof.
  intros Hent Hna Hhs Hos. rewrite execute_action_unfold, Hent.
  rewrite bind_run, for_each_resolve_skip by auto.
  rewrite bind_run, for_each_resolve_skip; cycle 1.
  { intros d Hd Hq. apply Hos; [done|]. by apply bool_decide_eq_true in Hq. }
  rewrite bind_run, gets_run. by rewrite bool_decide_eq_false_2.
Qed.

(** The same for an alias. *)
Lemma execute_action_alias depth a rem st b hs os :
  table !! a = Some (Name b, hs, os) → is_Some (table !! b) →
  a ∉ completed_actions st →
  (∀ d, d ∈ hs → d ∈ completed_actions st) →
  (∀ d, d ∈ os → d ∈ rem → d ∈ completed_actions st) →
  execute_action table (S depth) a rem st =
  (execute_action table depth b rem;; modify (add_completed a)) st.
Proof.
  intros Hent Hb Hna Hhs Hos. rewrite execute_action_unfold, Hent.
  rewrite bind_run, for_each_resolve_skip by auto.
  rewrite bind_run, for_each_resolve_skip; cycle 1.
  { intros d Hd Hq. apply Hos; [done|]. by apply bool_decide_eq_true in Hq. }
  rewrite bind_run, gets_run. rewrite bool_decide_eq_false_2 by done.
  by rewrite bool_decide_eq_true_2 by by apply elem_of_dom.
Qed.

(** [execute_action] tests [action in completed_actions] after its two
    dependency loops.  For a completed action whose dependencies are
    completed, and whose order-only dependencies are completed or not in
    [remaining_actions], the call changes nothing. *)
Lemma execute_action_completed depth a rem st op hs os :
  table !! a = Some (op, hs, os) →
  a ∈ completed_actions st →
  (∀ d, d ∈ hs → d ∈ completed_actions st) →
  (∀ d, d ∈ os → d ∈ rem → d ∈ completed_actions st) →
  execute_action table (S depth) a rem st = (Normal tt, st).
Proof.
  intros Hent Ha Hhs Hos. rewrite execute_action_unfold, Hent.
  rewrite bind_run, for_each_resolve_skip by auto.
  rewrite bind_run, for_each_resolve_skip; cycle 1.
  { intros d Hd Hq. apply Hos; [done|]. by apply bool_decide_eq_true in Hq. }
  rewrite bind_run, gets_run. rewrite bool_decide_eq_true_2 by done.
  rewrite bind_run, ret_run, modify_run. by rewrite add_completed_done.
Qed.

(** The states of a run meet these conditions for each completed action. *)
Lemma Inv_completed_ready rem st a op hs os :
  Inv table rem st → table !! a = Some (op, hs, os) → a ∈ completed_actions st →
  (∀ d, d ∈ hs → d ∈ completed_actions st) ∧
  (∀ d, d ∈ os → d ∈ rem → d ∈ completed_actions st).
Proof. intros HI Hent Ha. split; eauto using inv_hard, inv_order. Qed.

(** [main] up to its loop: it has failed with nothing run, or it enters
    the loop with the requested list and nothing completed. *)
Lemma main_prelude limit cl w r st' :
  main table limit (initial cl w) = (r, st') →
  (trace st' = [] ∧ completed_actions st' = ∅ ∧ ∃ e, r = Raised e) ∨
  ∃ st0, trace st0 = [] ∧ completed_actions st0 = ∅ ∧
         actions st0 = opt_actions cl ∧
         while_actions table limit (opt_actions cl) st0 = (r, st').
Proof.
  unfold main. intros Hrun.
  apply bind_inv in Hrun as [([] & st1 & Hparse & Hrun)|(e & Hparse & ->)]; cycle 1.
  { unfold parse_args in Hparse. run_in Hparse.
    destruct (_ && _) in Hparse; inversion Hparse; subst. left. eauto. }
  assert (st1 = initial cl w) as ->.
  { unfold parse_args in Hparse. run_in Hparse.
    destruct (_ && _) in Hparse; by inversion Hparse. }
  apply bind_inv in Hrun as [([] & st2 & Henv & Hrun)|(e & Henv & ->)]; cycle 1.
  { apply in_context_same in Henv as [[Hc Ht] _]. left. rewrite Hc, Ht. eauto. }
  apply in_context_same in Henv as [[Hc2 Ht2] Hact2].
  apply bind_inv in Hrun as [([] & st3 & Hdir & Hrun)|(e & Hdir & ->)]; cycle 1.
  { apply in_context_same in Hdir as [[Hc Ht] _]. left. rewrite Hc, Ht, Hc2, Ht2. eauto. }
  apply in_context_same in Hdir as [[Hc3 Ht3] Hact3].
  run_in Hrun. right. exists st3.
  rewrite Hc3, Ht3, Hc2, Ht2, Hact3, Hact2 in *. done.
Qed.
End Resolution.

(** ** The shipped table *)

Lemma ACTIONS_entries a e :
  ACTIONS !! a = Some e →
  (a, e) ∈ [ ("all",                   (Callable fn_build_target, [], ["menuconfig"; "clean"; "fullclean"]));
             ("build",                 (Name "all",               [], []));
             ("clean",                 (Callable fn_clean,        [], ["fullclean"]));
             ("fullclean",             (Callable fn_fullclean,    [], []));
             ("menuconfig",            (Callable fn_build_target, [], []));
             ("size",                  (Callable fn_build_target, [], ["app"]));
             ("size-components",       (Callable fn_build_target, [], ["app"]));
             ("size-files",            (Callable fn_build_target, [], ["app"]));
             ("bootloader",            (Callable fn_build_target, [], []));
             ("bootloader-clean",      (Callable fn_build_target, [], []));
             ("bootloader-flash",      (Callable fn_flash,        ["bootloader"], []));
             ("app",                   (Callable fn_build_target, [], []));
             ("app-flash",             (Callable fn_flash,        [], ["app"]));
             ("partition_table",       (Callable fn_build_target, [], []));
             ("partition_table-flash", (Callable fn_flash,        ["partition_table"], []));
             ("flash",                 (Callable fn_flash,        ["all"], []));
             ("erase_flash",           (Callable fn_erase_flash,  [], []));
             ("monitor",               (Callable fn_monitor,      [],
                  ["flash"; "partition_table-flash"; "bootloader-flash"; "app-flash"])) ].
Proof. apply elem_of_list_to_map_2. Qed.

Ltac each_entry H :=
  apply ACTIONS_entries in H;
  repeat (apply elem_of_cons in H as [H|H]; [simplify_eq|]);
  [..|by apply elem_of_nil in H].

(** C9. Every name the table gives to [flash] is a key of the mapping
    in [flash], so [flash] never raises [KeyError] for its own action; and
    in a run over the table [flash] is only ever called with such a name. *)
Theorem flash_argfile_known :
  (∀ a hs os, ACTIONS !! a = Some (Callable fn_flash, hs, os) →
     a ∈ ["flash"; "app-flash"; "bootloader-flash"; "partition_table-flash"] ∧
     is_Some (flasher_args_path !! a)) ∧
  (∀ W (host_ops : Host W) limit cl w a,
     Call fn_flash a ∈ trace (main ACTIONS limit (initial cl w)).2 →
     is_Some (flasher_args_path !! a) ∧
     ∀ c : ctx W, (flash a c).1 ≠ Raised (KeyError a)).
Proof.
  assert (∀ a hs os, ACTIONS !! a = Some (Callable fn_flash, hs, os) →
     a ∈ ["flash"; "app-flash"; "bootloader-flash"; "partition_table-flash"] ∧
     is_Some (flasher_args_path !! a)) as Hkeys.
  { intros a hs os Hent. each_entry Hent;
      (split; [set_solver|eexists; vm_compute; reflexivity]). }
  split; [done|].
  intros W host_ops limit cl w a Hcall.
  destruct (main ACTIONS limit (initial cl w)) as [r st] eqn:Hrun.
  destruct (main_sound _ _ _ _ _ _ Hrun) as [[_ (new & Hnew & Hcalls)] _].
  simpl in Hnew, Hcall. subst new.
  destruct (Hcalls _ _ Hcall) as (_ & hs & os & Hent & _).
  destruct (Hkeys _ _ _ Hent) as [Hin [path Hpath]].
  split; [eauto|]. intros c. unfold flash. rewrite Hpath.
  unfold _get_esptool_args, _run_tool, none_path, do_print, on_host.
  run. repeat (case_match; run; simplify_eq; try done).
  all: intros [= ->]; set_solver.
Qed.

Lemma ACTIONS_clean : ACTIONS !! "clean" = Some (Callable fn_clean, [], ["fullclean"]).
Proof. by vm_compute. Qed.
Lemma ACTIONS_flash : ACTIONS !! "flash" = Some (Callable fn_flash, ["all"], []).
Proof. by vm_compute. Qed.
Lemma ACTIONS_all :
  ACTIONS !! "all" = Some (Callable fn_build_target, [], ["menuconfig"; "clean"; "fullclean"]).
Proof. by vm_compute. Qed.

Section Shipped.
Context {W : Type} {host_ops : Host W}.

Implicit Types (st : state W) (cl : command_line) (w : W).

Lemma invoke_add_run f a st r st' :
  (invoke f a;; modify (add_completed a)) st = (r, st') →
  actions st' = actions st ∧
  match r with
  | Normal _ => completed_actions st' = {[a]} ∪ completed_actions st ∧
                trace st' = trace st ++ [Call f a; Ret f a]
  | Raised e => completed_actions st' = completed_actions st ∧
                trace st' = trace st ++ [Call f a; Exc f a e]
  end.
Proof.
  rewrite bind_run. destruct (invoke f a st) as [[[]|e] st1] eqn:Hinv;
    apply invoke_run in Hinv as (Hc & Ha & Ht); run; intros [= <- <-]; simpl.
  - by rewrite Hc, Ha, Ht.
  - done.
Qed.

Lemma while_actions_cons table limit first rest st :
  while_actions table limit (first :: rest) st =
  (execute_action table limit first rest;;
   modify (λ st, set_actions (tail (actions st)) st);;
   while_actions table limit rest) st.
Proof. reflexivity. Qed.

Lemma for_each_cons {A} (x : A) l (body : A → prog (state W) unit) st :
  for_each (x :: l) body st = (body x;; for_each l body) st.
Proof. reflexivity. Qed.

Lemma for_each_nil {A} (body : A → prog (state W) unit) st :
  for_each [] body st = (Normal tt, st).
Proof. reflexivity. Qed.

Lemma resolve_pending table depth rem q dep st :
  q dep = true → dep ∉ completed_actions st →
  resolve table depth rem q dep st = execute_action table depth dep rem st.
Proof.
  intros Hq Hd. unfold resolve. rewrite bind_run, gets_run, Hq.
  by rewrite bool_decide_eq_true_2.
Qed.

(** C8. Requesting [clean flash]: the handlers entered are those of
    [clean], of [all] (the build, pulled in as the dependency of [flash])
    and of [flash], in this order and each once; a run that completes has
    entered all three. *)
Theorem clean_then_flash limit cl w r st :
  opt_actions cl = ["clean"; "flash"] →
  main ACTIONS (S (S limit)) (initial cl w) = (r, st) →
  calls (trace st) `prefix_of` ["clean"; "all"; "flash"] ∧
  (r = Normal tt →
   trace st = [Call fn_clean "clean"; Ret fn_clean "clean";
               Call fn_build_target "all"; Ret fn_build_target "all";
               Call fn_flash "flash"; Ret fn_flash "flash"]).
Proof.
  intros Hcl Hrun.
  apply main_prelude in Hrun as [(Ht & _ & e & ->)|(st0 & Ht0 & Hc0 & _ & Hrun)].
  { rewrite Ht. split; [apply prefix_nil|done]. }
  rewrite Hcl in Hrun. clear Hcl cl w.
  (* clean *)
  rewrite while_actions_cons, bind_run in Hrun.
  rewrite (execute_action_ready ACTIONS _ "clean" _ _ _ _ _ ACTIONS_clean) in Hrun.
  2: { rewrite Hc0. clear. set_solver. }
  2-3: clear; set_solver.
  destruct ((invoke fn_clean "clean";; modify (add_completed "clean")) st0)
    as [[[]|e] st1] eqn:Hclean;
    apply invoke_add_run in Hclean as [_ [Hc1 Ht1]]; rewrite Ht0 in Ht1; simpl in Ht1;
    cycle 1.
  { inversion Hrun; subst. rewrite Ht1. split; [by exists ["all"; "flash"]|done]. }
  rewrite Hc0 in Hc1. clear Hc0 Ht0 st0.
  rewrite bind_run, modify_run in Hrun.
  set (st2 := set_actions _ st1) in Hrun.
  assert (completed_actions st2 = {["clean"]} ∪ ∅) as Hc2 by exact Hc1.
  assert (trace st2 = [Call fn_clean "clean"; Ret fn_clean "clean"]) as Ht2 by exact Ht1.
  clearbody st2. clear Hc1 Ht1 st1.
  (* flash, and all before it *)
  rewrite while_actions_cons in Hrun.
  rewrite bind_run in Hrun.
  rewrite execute_action_unfold in Hrun.
  rewrite ACTIONS_flash in Hrun.
  rewrite bind_run, for_each_cons, bind_run in Hrun.
  rewrite resolve_pending in Hrun; [|done|rewrite Hc2; clear; set_solver].
  rewrite (execute_action_ready ACTIONS _ "all" _ _ _ _ _ ACTIONS_all) in Hrun;
    [|rewrite Hc2; clear; set_solver|clear; set_solver|clear; set_solver].
  destruct ((invoke fn_build_target "all";; modify (add_completed "all")) st2)
    as [[[]|e] st3] eqn:Hall;
    apply invoke_add_run in Hall as [_ [Hc3 Ht3]]; rewrite Ht2 in Ht3; simpl in Ht3;
    cycle 1.
  { inversion Hrun; subst. rewrite Ht3. split; [by exists ["flash"]|done]. }
  rewrite Hc2 in Hc3. clear Hc2 Ht2 st2.
  rewrite !for_each_nil, bind_run, for_each_nil, bind_run, gets_run in Hrun.
  rewrite bool_decide_eq_false_2 in Hrun by (rewrite Hc3; clear; set_solver).
  destruct ((invoke fn_flash "flash";; modify (add_completed "flash")) st3)
    as [[[]|e] st4] eqn:Hflash;
    apply invoke_add_run in Hflash as [_ [Hc4 Ht4]]; rewrite Ht3 in Ht4; simpl in Ht4;
    cycle 1.
  { inversion Hrun; subst. rewrite Ht4. split; [by exists []|done]. }
  rewrite bind_run, modify_run in Hrun. inversion Hrun; subst.
  simpl. rewrite Ht4. split; [by exists []|done].
Qed.
End Shipped.

(** ** Aliases *)

Section Alias.
Context {W : Type} {host_ops : Host W}.
Variable table : registry.

Implicit Types (st : state W) (rem : list string) (cl : command_line).

Local Abbreviation carries := (@carries W).

Lemma carries_bind l (m : prog (state W) unit) (k : unit → prog (state W) unit) :
  carries l m → (∀ u, carries l (k u)) → carries l (m ≫= k).
Proof.
  intros Hm Hk st. rewrite !bind_run, Hm.
  destruct (m st) as [[u|e] st1]; [apply Hk|done].
Qed.

Lemma carries_ret l : carries l (mret tt).
Proof. by intros st. Qed.

Lemma carries_raise l e : carries l (raise e).
Proof. by intros st. Qed.

Lemma carries_in_context l (m : prog (ctx W) unit) : carries l (in_context m).
Proof. intros st. unfold in_context. simpl. by destruct (m (context st)). Qed.

Lemma carries_invoke l f a : carries l (invoke f a).
Proof.
  intros st. unfold invoke, log, try_except, in_context. run.
  destruct (call f a (context st)) as [[[]|e] c]; by run.
Qed.

Lemma carries_for_each {A} l (deps : list A) (body : A → prog (state W) unit) :
  (∀ x, carries l (body x)) → carries l (for_each deps body).
Proof.
  intros Hbody. induction deps as [|x deps IH]; [apply carries_ret|].
  simpl. apply carries_bind; [apply Hbody|by intros _].
Qed.

Lemma carries_execute_action l depth : ∀ a rem, carries l (execute_action table depth a rem).
Proof.
  induction depth as [|depth IH]; intros a rem; [apply carries_raise|].
  rewrite execute_action_unfold.
  destruct (table !! a) as [[[op hs] os]|]; [|apply carries_raise].
  assert (∀ q dep, carries l (resolve table depth rem q dep)) as Hres.
  { intros q dep st. unfold resolve. rewrite !bind_run, !gets_run. simpl.
    destruct (q dep && _); [apply IH|done]. }
  apply carries_bind; [by apply carries_for_each|intros _].
  apply carries_bind; [by apply carries_for_each|intros _].
  intros st. rewrite (bind_run (gets _)), (bind_run (gets _) _ st), !gets_run.
  change (completed_actions (set_actions l st)) with (completed_actions st).
  apply carries_bind; [|by intros _ st'].
  case_bool_decide; [apply carries_ret|].
  destruct op as [f|b]; [apply carries_invoke|].
  case_bool_decide; [apply IH|apply carries_raise].
Qed.

Lemma carries_prelude l : carries l prelude.
Proof.
  unfold prelude. apply carries_bind; [|intros _; apply carries_bind; intros;
    apply carries_in_context].
  intros st. rewrite !bind_run, !gets_run. simpl. by destruct (generator_ok _).
Qed.

Lemma prelude_same st r st' : prelude st = (r, st') → same_run st st'.
Proof.
  unfold prelude. intros Hrun.
  apply bind_inv in Hrun as [([] & st1 & Hgen & Hrun)|(e & Hgen & ->)]; cycle 1.
  { run_in Hgen. by destruct (generator_ok _); inversion Hgen. }
  assert (st1 = st) as ->.
  { run_in Hgen. by destruct (generator_ok _); inversion Hgen. }
  apply bind_inv in Hrun as [([] & st2 & Henv & Hrun)|(e & Henv & ->)]; cycle 1.
  { by apply in_context_same in Henv as [? _]. }
  apply in_context_same in Henv as [[Hc2 Ht2] _].
  apply in_context_same in Hrun as [[Hc3 Ht3] _].
  split; congruence.
Qed.

Lemma main_request limit l st :
  l ≠ [] → Forall (λ a, a ∈ dom table) l →
  main table limit (set_actions l st) =
  let '(r, st1) := prelude st in
  match r with
  | Normal _ => while_actions table limit l (set_actions l st1)
  | Raised e => (Raised e, set_actions l st1)
  end.
Proof.
  intros Hne Hall. unfold main, parse_args, prelude.
  pose proof (carries_in_context l) as Hctx. unfold carries in Hctx.
  cbv beta iota delta [mbind prog_bind mret prog_ret gets raise].
  change (actions (set_actions l st)) with l.
  change (context (set_actions l st)) with (context st).
  rewrite (bool_decide_eq_true_2 (l ≠ [])) by done.
  replace (forallb _ l) with true; cycle 1.
  { symmetry. apply forallb_forall. intros a Ha%list_elem_of_In.
    apply bool_decide_eq_true_2. by eapply Forall_forall in Hall. }
  rewrite !andb_true_r.
  destruct (generator_ok _); [|done].
  rewrite Hctx. destruct (in_context _ st) as [[[]|e] st1]; [|done].
  rewrite Hctx. destruct (in_context check_build_dir st1) as [[[]|e] st2]; [|done].
  done.
Qed.

Lemma main_single limit a cl w :
  is_Some (table !! a) →
  main table limit (initial (with_actions [a] cl) w) =
  let '(r, st1) := prelude (initial cl w) in
  match r with
  | Normal _ =>
      let '(r', st2) := execute_action table limit a [] st1 in
      (r', set_actions (match r' with Normal _ => [] | Raised _ => [a] end) st2)
  | Raised e => (Raised e, set_actions [a] st1)
  end.
Proof.
  intros Ha.
  change (initial (with_actions [a] cl) w) with (set_actions [a] (initial cl w)).
  rewrite main_request; [|done|]; cycle 1.
  { apply Forall_singleton. by apply elem_of_dom. }
  destruct (prelude (initial cl w)) as [[[]|e] st1]; [|done].
  rewrite while_actions_cons, bind_run, carries_execute_action.
  by destruct (execute_action table limit a [] st1) as [[[]|e] st2].
Qed.

End Alias.

(** ** Order-only dependencies *)

Lemma before_app x y (t t' : list event) : x ∈ t → y ∈ t' → before x y (t ++ t').
Proof.
  intros (t1 & t2 & ->)%list_elem_of_split (s1 & s2 & ->)%list_elem_of_split.
  exists t1, (t2 ++ s1), s2. by rewrite <- !app_assoc.
Qed.

Section Order.
Context {W : Type} {host_ops : Host W}.
Variable table : registry.

Implicit Types (st : state W) (rem : list string) (cl : command_line).

Local Abbreviation reaches := (reaches table).
Local Abbreviation confined := (confined table).

Lemma for_each_resolve_confined depth rem q deps :
  confined depth →
  ∀ st r st', for_each deps (resolve table depth rem q) st = (r, st') →
    ∀ f x, Call f x ∈ trace st' →
      Call f x ∈ trace st ∨ ∃ d, d ∈ deps ∧ q d = true ∧ reaches rem d x.
Proof.
  intros IH. induction deps as [|dep deps IHdeps]; intros st r st' Hrun f x Hin.
  { inversion Hrun; subst. auto. }
  simpl in Hrun.
  assert (∀ r1 st1, resolve table depth rem q dep st = (r1, st1) →
            ∀ f x, Call f x ∈ trace st1 →
              Call f x ∈ trace st ∨ (q dep = true ∧ reaches rem dep x)) as Hdep.
  { intros r1 st1. unfold resolve. rewrite bind_run, gets_run.
    destruct (q dep); simpl; [case_bool_decide|].
    - intros Hd g y Hy. destruct (IH _ _ _ _ _ Hd g y Hy); auto.
    - intros [= <- <-]. auto.
    - intros [= <- <-]. auto. }
  apply bind_inv in Hrun as [([] & st1 & Hd & Hrest)|(e & Hd & ->)].
  - destruct (IHdeps _ _ _ Hrest f x Hin) as [Hin1|(d & Hd1 & Hq & Hr)].
    + destruct (Hdep _ _ Hd f x Hin1) as [?|[? ?]]; [auto|].
      right. exists dep. split; [set_solver|done].
    + right. exists d. split; [set_solver|done].
  - destruct (Hdep _ _ Hd f x Hin) as [?|[? ?]]; [auto|].
    right. exists dep. split; [set_solver|done].
Qed.

Lemma execute_action_confined depth : confined depth.
Proof.
  induction depth as [|depth IH]; intros a rem st r st' Hrun f x Hin.
  { inversion Hrun; subst. auto. }
  rewrite execute_action_unfold in Hrun.
  destruct (table !! a) as [[[op hs] os]|] eqn:Hent; cycle 1.
  { inversion Hrun; subst. auto. }
  assert (∀ st1 st2 r2, for_each hs (resolve table depth rem (λ _, true)) st1 = (r2, st2) →
            Call f x ∈ trace st2 → Call f x ∈ trace st1 ∨ reaches rem a x) as Hhs.
  { intros st1 st2 r2 Hloop Hx.
    destruct (for_each_resolve_confined _ _ _ _ IH _ _ _ Hloop f x Hx)
      as [?|(d & Hd & _ & Hr)]; [auto|]. right. eapply reaches_hard; eauto. }
  assert (∀ st1 st2 r2,
            for_each os (resolve table depth rem (λ dep, bool_decide (dep ∈ rem))) st1 = (r2, st2) →
            Call f x ∈ trace st2 → Call f x ∈ trace st1 ∨ reaches rem a x) as Hos.
  { intros st1 st2 r2 Hloop Hx.
    destruct (for_each_resolve_confined _ _ _ _ IH _ _ _ Hloop f x Hx)
      as [?|(d & Hd & Hq & Hr)]; [auto|]. right.
    apply bool_decide_eq_true in Hq. eapply reaches_order; eauto. }
  apply bind_inv in Hrun as [([] & st1 & Hhard & Hrun)|(e & Hhard & ->)]; [|eauto].
  apply bind_inv in Hrun as [([] & st2 & Hord & Hrun)|(e & Hord & ->)]; cycle 1.
  { destruct (Hos _ _ _ Hord Hin); [eauto|auto]. }
  assert (Call f x ∈ trace st2 → Call f x ∈ trace st ∨ reaches rem a x) as Hst2.
  { intros Hx. destruct (Hos _ _ _ Hord Hx); [eauto|auto]. }
  clear Hhs Hos Hhard Hord.
  rewrite bind_run, gets_run in Hrun.
  case_bool_decide.
  { run_in Hrun. inversion Hrun; subst. auto. }
  destruct op as [g|b].
  - rewrite bind_run in Hrun.
    destruct (invoke g a st2) as [r3 st3] eqn:Hinv.
    apply invoke_run in Hinv as (_ & _ & Ht).
    assert (trace st' = trace st3) as Ht'.
    { destruct r3 as [[]|e]; run_in Hrun; by inversion Hrun. }
    rewrite Ht', Ht in Hin. apply elem_of_app in Hin as [Hin|Hin]; [auto|].
    right. assert (x = a) as ->; [|constructor].
    destruct r3; set_solver.
  - case_bool_decide; cycle 1.
    { run_in Hrun. inversion Hrun; subst. auto. }
    rewrite bind_run in Hrun.
    destruct (execute_action table depth b rem st2) as [r3 st3] eqn:Htgt.
    assert (trace st' = trace st3) as Ht'.
    { destruct r3 as [[]|e]; run_in Hrun; by inversion Hrun. }
    rewrite Ht' in Hin. destruct (IH _ _ _ _ _ Htgt f x Hin); [auto|].
    right. eapply reaches_alias; eauto.
Qed.

Lemma main_pair limit a b cl w :
  is_Some (table !! a) → is_Some (table !! b) →
  main table limit (initial (with_actions [a; b] cl) w) =
  let '(r, st1) := prelude (initial cl w) in
  match r with
  | Normal _ =>
      let '(r1, st2) := execute_action table limit a [b] st1 in
      match r1 with
      | Normal _ =>
          let '(r2, st3) := execute_action table limit b [] st2 in
          (r2, set_actions (match r2 with Normal _ => [] | Raised _ => [b] end) st3)
      | Raised e => (Raised e, set_actions [a; b] st2)
      end
  | Raised e => (Raised e, set_actions [a; b] st1)
  end.
Proof.
  intros Ha Hb.
  change (initial (with_actions [a; b] cl) w) with (set_actions [a; b] (initial cl w)).
  rewrite main_request; [|done|]; cycle 1.
  { repeat constructor; by apply elem_of_dom. }
  destruct (prelude (initial cl w)) as [[[]|e] st1]; [|done].
  rewrite while_actions_cons, bind_run, carries_execute_action.
  destruct (execute_action table limit a [b] st1) as [[[]|e] st2]; [|done].
  rewrite bind_run, modify_run.
  change (set_actions _ (set_actions [a; b] st2)) with (set_actions [b] st2).
  rewrite while_actions_cons, bind_run, carries_execute_action.
  by destruct (execute_action table limit b [] st2) as [[[]|e] st3].
Qed.

(** [a] has the order-only dependency [d]; [d] is not among what [a]
    needs through dependencies and aliases, and [a] is not among what [d]
    resolves.  Then requesting [a] alone never enters the handler of [d];
    and requesting [a d] or [d a] enters the handler of [d] at most once,
    has it return before the handler of [a] is entered, and, when the run
    completes, has entered both exactly once. *)
Lemma order_only_resolution limit cl w a d fa fd hsa osa hsd osd :
  table !! a = Some (Callable fa, hsa, osa) → d ∈ osa →
  table !! d = Some (Callable fd, hsd, osd) →
  ¬ reaches [] a d → ¬ reaches [a] d a →
  (∀ r st f, main table limit (initial (with_actions [a] cl) w) = (r, st) →
     Call f d ∉ trace st) ∧
  (∀ l r st, l = [a; d] ∨ l = [d; a] →
     main table limit (initial (with_actions l cl) w) = (r, st) →
     (invocations d (trace st) ≤ 1)%nat ∧
     (∀ t1 t2, trace st = t1 ++ Call fa a :: t2 → Ret fd d ∈ t1) ∧
     (r = Normal tt →
      invocations d (trace st) = 1%nat ∧ invocations a (trace st) = 1%nat)).
Proof.
  intros Ha Hd Hdd Honly Hacyc. split.
  { intros r st f Hrun Hin. rewrite main_single in Hrun by eauto.
    destruct (prelude (initial cl w)) as [[[]|e] st1] eqn:Hpre;
      apply prelude_same in Hpre as [_ Ht1]; simpl in Ht1; cycle 1.
    { inversion Hrun; subst. simpl in Hin. rewrite Ht1 in Hin. set_solver. }
    destruct (execute_action table limit a [] st1) as [r1 st2] eqn:Hexec.
    inversion Hrun; subst. simpl in Hin.
    destruct (execute_action_confined _ _ _ _ _ _ Hexec _ _ Hin) as [Hold|?];
      [|done].
    rewrite Ht1 in Hold. set_solver. }
  intros l r st Hl Hrun.
  pose proof (run_nodup _ _ _ _ _ _ Hrun) as Hnd.
  split; [by apply invocations_le|]. split; cycle 1.
  { intros ->. destruct (main_sound _ _ _ _ _ _ Hrun) as [_ (HI & _ & Hall)].
    simpl in Hall.
    split; [apply (invocations_once d fd)|apply (invocations_once a fa)]; try done.
    all: apply paired_ret_call; [apply HI|]; eapply inv_rets; [done| |done].
    all: apply Hall; destruct Hl as [-> | ->]; set_solver. }
  intros t1 t2 Ht. eapply before_call_prefix; [done..|].
  assert (Call fa a ∈ trace st) as Hcall by (rewrite Ht; set_solver).
  clear Ht t1 t2 Hnd.
  destruct Hl as [-> | ->]; rewrite main_pair in Hrun by eauto.
  - (* [a d]: the call for [a] resolves [d] first *)
    destruct (prelude (initial cl w)) as [[[]|e] st1] eqn:Hpre;
      apply prelude_same in Hpre as Hsame; destruct (Hsame) as [_ Ht1];
      simpl in Ht1; cycle 1.
    { inversion Hrun; subst. simpl in Hcall. rewrite Ht1 in Hcall. set_solver. }
    assert (Inv table [d] st1) as HI by eauto using same_run_Inv, initial_Inv.
    destruct (execute_action table limit a [d] st1) as [r1 st2] eqn:Ha1.
    destruct (execute_action_sound _ _ _ _ _ _ _ HI Ha1) as [Hext Hpost].
    assert (Call fa a ∈ trace st2 → before (Ret fd d) (Call fa a) (trace st2)) as Hbef.
    { intros Hx. destruct Hext as [_ _ (new & Hnew & Hcalls)].
      rewrite Hnew, Ht1 in Hx. simpl in Hx.
      destruct (Hcalls _ _ Hx) as (_ & hs & os & Hent & Hdeps). simplify_eq.
      eapply (Hdeps d); [right; split; [done|set_solver]|constructor|done]. }
    destruct r1 as [[]|e]; cycle 1.
    { inversion Hrun; subst. auto. }
    destruct Hpost as [HI2 Hin2].
    destruct (execute_action table limit d [] st2) as [r2 st3] eqn:Hd2.
    apply (Inv_weaken _ _ []) in HI2; [|set_solver].
    destruct (execute_action_sound _ _ _ _ _ _ _ HI2 Hd2) as [Hext2 _].
    inversion Hrun; subst. simpl in *.
    destruct Hext2 as [_ _ (new & Hnew & Hcalls)].
    rewrite Hnew in Hcall |- *. apply elem_of_app in Hcall as [Hx|Hx].
    + by apply before_app_r, Hbef.
    + by destruct (Hcalls _ _ Hx) as [? _].
  - (* [d a]: [d] is done when the call for [a] starts *)
    destruct (prelude (initial cl w)) as [[[]|e] st1] eqn:Hpre;
      apply prelude_same in Hpre as Hsame; destruct (Hsame) as [_ Ht1];
      simpl in Ht1; cycle 1.
    { inversion Hrun; subst. simpl in Hcall. rewrite Ht1 in Hcall. set_solver. }
    assert (Inv table [a] st1) as HI by eauto using same_run_Inv, initial_Inv.
    destruct (execute_action table limit d [a] st1) as [r1 st2] eqn:Hd1.
    destruct (execute_action_sound _ _ _ _ _ _ _ HI Hd1) as [_ Hpost].
    assert (Call fa a ∉ trace st2) as Hnot.
    { intros Hx.
      destruct (execute_action_confined _ _ _ _ _ _ Hd1 _ _ Hx) as [Hold|?];
        [|done].
      rewrite Ht1 in Hold. set_solver. }
    destruct r1 as [[]|e]; cycle 1.
    { inversion Hrun; subst. done. }
    destruct Hpost as [HI2 Hin2].
    assert (Ret fd d ∈ trace st2) as Hret by eauto using inv_rets.
    destruct (execute_action table limit a [] st2) as [r2 st3] eqn:Ha2.
    apply (Inv_weaken _ _ []) in HI2; [|set_solver].
    destruct (execute_action_sound _ _ _ _ _ _ _ HI2 Ha2) as [Hext2 _].
    inversion Hrun; subst. simpl in *.
    destruct Hext2 as [_ _ (new & Hnew & _)].
    rewrite Hnew in Hcall |- *. apply elem_of_app in Hcall as [Hx|Hx]; [done|].
    by apply before_app.
Qed.
End Order.

(** ** Cycles *)

Lemma ACTIONS_ranked : ranked ACTIONS ACTIONS_rank.
Proof.
  intros a op hs os Hent. each_entry Hent.
  all: repeat split; intros d Hd; simplify_eq;
    repeat (apply elem_of_cons in Hd as [->|Hd]);
    try (by apply elem_of_nil in Hd); vm_compute; lia.
Qed.

Lemma ACTIONS_rank_le a : (ACTIONS_rank a < 5)%nat.
Proof. unfold ACTIONS_rank. repeat case_bool_decide; lia. Qed.

Section Cycles.
Context {W : Type} {host_ops : Host W}.
Variable table : registry.

Implicit Types (st : state W) (rem : list string) (cl : command_line).

Local Abbreviation alias_loop := (alias_loop table).

Lemma shallow_in_context {A} (m : prog (ctx W) A) : shallow m → shallow (in_context m).
Proof.
  intros Hm st e st'. unfold in_context.
  destruct (m (context st)) as [r c] eqn:Hrun. intros [= -> <-]. by eapply Hm.
Qed.

Lemma shallow_modify {S} (f : S → S) : shallow (modify f).
Proof. by intros st e st'. Qed.

Lemma shallow_check_build_dir : shallow check_build_dir.
Proof.
  unfold check_build_dir.
  apply shallow_bind; [apply shallow_gets|intros a].
  apply shallow_bind; [apply shallow_gets|intros w].
  apply shallow_bind; [|intros _; apply shallow_modify].
  destruct (build_dir a); [|apply shallow_ret].
  case_bool_decide; [by apply shallow_raise|apply shallow_ret].
Qed.

(** With a ranked table and more activations than the highest rank, a run
    never exceeds the recursion limit. *)
Lemma main_shallow rank limit :
  ranked table rank → (∀ a, (rank a < limit)%nat) → shallow (main table limit).
Proof.
  intros Hrk Hlt. unfold main.
  apply shallow_bind; [|intros _].
  { unfold parse_args. apply shallow_bind; [apply shallow_gets|intros a].
    apply shallow_bind; [apply shallow_gets|intros l].
    destruct (_ && _); [apply shallow_ret|by apply shallow_raise]. }
  apply shallow_bind; [|intros _].
  { apply shallow_in_context. intros c e c'.
    destruct (check_environment (host c)) as [[[]|] w]; by intros [= <- <-]. }
  apply shallow_bind; [apply shallow_in_context, shallow_check_build_dir|intros _].
  apply shallow_bind; [apply shallow_gets|intros queue].
  induction queue as [|first rest IH]; [apply shallow_ret|].
  simpl. apply shallow_bind; [by eapply execute_action_shallow|intros _].
  apply shallow_bind; [apply shallow_modify|by intros _].
Qed.

Lemma alias_loop_overflows names depth :
  alias_loop names →
  ∀ x rem st, names x → (∀ y, names y → y ∉ completed_actions st) →
    execute_action table depth x rem st = (Raised RecursionError, st).
Proof.
  intros Hloop. induction depth as [|depth IH]; intros x rem st Hx Hfresh; [done|].
  destruct (Hloop x Hx) as (y & Hent & Hy).
  destruct (Hloop y Hy) as (z & Hyent & _).
  rewrite (execute_action_alias table _ _ _ _ _ _ _ Hent); [|eauto|auto|set_solver..].
  by rewrite bind_run, IH.
Qed.
End Cycles.


(** ** What a piece of code ensures *)

Lemma ensures_weaken {S A} (m : prog S A) st (Q Q' : outcome A → S → Prop) :
  ensures m st Q → (∀ r st', Q r st' → Q' r st') → ensures m st Q'.
Proof. intros Hm HQ r st' Hrun. by apply HQ, Hm. Qed.

Lemma ensures_ret {S A} (a : A) (st : S) (Q : outcome A → S → Prop) :
  Q (Normal a) st → ensures (mret a : prog S A) st Q.
Proof. by intros HQ r st' [= <- <-]. Qed.

Lemma ensures_gets {S A} (f : S → A) (st : S) (Q : outcome A → S → Prop) :
  Q (Normal (f st)) st → ensures (gets f) st Q.
Proof. by intros HQ r st' [= <- <-]. Qed.

Lemma ensures_raise {S A} (e : exn) (st : S) (Q : outcome A → S → Prop) :
  Q (Raised e) st → ensures (@raise S A e) st Q.
Proof. by intros HQ r st' [= <- <-]. Qed.

Lemma ensures_modify {S} (f : S → S) (st : S) (Q : outcome unit → S → Prop) :
  Q (Normal tt) (f st) → ensures (modify f) st Q.
Proof. by intros HQ r st' [= <- <-]. Qed.

Lemma ensures_bind {S A B} (m : prog S A) (k : A → prog S B) st (Q : outcome B → S → Prop) :
  ensures m st (λ r st1, match r with
                         | Normal a => ensures (k a) st1 Q
                         | Raised e => Q (Raised e) st1
                         end) →
  ensures (m ≫= k) st Q.
Proof.
  intros Hm r st' [(a & st1 & Hrun & Hrest)|(e & Hrun & ->)]%bind_inv.
  - by apply (Hm _ _ Hrun).
  - by apply (Hm _ _ Hrun).
Qed.

Lemma ensures_seq {S A B} (m : prog S A) (k : A → prog S B) st
    (R : outcome A → S → Prop) (Q : outcome B → S → Prop) :
  ensures m st R →
  (∀ e st1, R (Raised e) st1 → Q (Raised e) st1) →
  (∀ a st1, R (Normal a) st1 → ensures (k a) st1 Q) →
  ensures (m ≫= k) st Q.
Proof.
  intros Hm He Hk. apply ensures_bind. eapply ensures_weaken; [done|].
  intros [a|e] st1; auto.
Qed.

Lemma ensures_try_except {S A} (body : prog S A) (handler : exn → prog S A) st
    (Q : outcome A → S → Prop) :
  ensures body st (λ r st1, match r with
                            | Normal a => Q (Normal a) st1
                            | Raised e => ensures (handler e) st1 Q
                            end) →
  ensures (try_except body handler) st Q.
Proof.
  intros Hb r st'. unfold try_except.
  destruct (body st) as [[a|e] st1] eqn:Hrun.
  - intros [= <- <-]. by apply (Hb _ _ Hrun).
  - by apply (Hb _ _ Hrun).
Qed.

(** A loop with the invariant [I] that an exception may leave by [Q]. *)
Lemma ensures_for_each {S A} (l : list A) (body : A → prog S unit) (I : S → Prop)
    (Q : outcome unit → S → Prop) :
  (∀ x st, x ∈ l → I st →
     ensures (body x) st (λ r st1, match r with
                                   | Normal _ => I st1
                                   | Raised e => Q (Raised e) st1
                                   end)) →
  (∀ st, I st → Q (Normal tt) st) →
  ∀ st, I st → ensures (for_each l body) st Q.
Proof.
  intros Hbody HQ. induction l as [|x l IH]; intros st HI; simpl.
  { apply ensures_ret. auto. }
  apply ensures_bind. eapply ensures_weaken; [apply Hbody; [set_solver|done]|].
  intros [[]|e] st1; [|done]. intros HI1. apply IH; [|done].
  intros y st2 Hy. apply Hbody. set_solver.
Qed.

(** ** Quoting *)

Lemma char_append c r : String c EmptyString +:+ r = String c r.
Proof. reflexivity. Qed.

Lemma has_char_append c (a b : string) :
  has_char c (a +:+ b) = has_char c a || has_char c b.
Proof.
  induction a as [|x a IH]; [done|].
  change (String x a +:+ b) with (String x (a +:+ b)). simpl.
  destruct (Ascii.eqb x c); [done|]. apply IH.
Qed.

(** X1. Quoting twice is quoting once, and what [quote_arg] returns is free
    of blanks or starts with a quote. *)
Theorem quote_arg_idempotent arg :
  quote_arg (quote_arg arg) = quote_arg arg ∧
  (has_char space (quote_arg arg) = true → quoted (quote_arg arg) = true).
Proof.
  assert (∀ r, String.prefix "'" ("'" +:+ r) = true) as Hquote.
  { intros r. rewrite char_append. by destruct r. }
  assert (∀ s, quote_arg s
               = if has_char space s && negb (quoted s) then "'" +:+ s +:+ "'" else s)
    as Hdef by reflexivity.
  rewrite (Hdef arg).
  destruct (has_char space arg && negb (quoted arg)) eqn:Hcase.
  - assert (quoted ("'" +:+ arg +:+ "'") = true) as Hq.
    { unfold quoted. by rewrite Hquote, orb_true_r. }
    split; [|done]. by rewrite Hdef, Hq, andb_false_r.
  - split; [by rewrite Hdef, Hcase|].
    intros Hsp. rewrite Hsp in Hcase. by destruct (quoted arg).
Qed.

(** ** The cmake cache *)

Lemma span_append stop p r :
  all_chars (λ c, negb (stop c)) p = true →
  (match r with EmptyString => True | String c _ => stop c = true end) →
  span stop (p +:+ r) = (p, r).
Proof.
  intros Hp Hr. induction p as [|c p IH]; simpl in *.
  - destruct r as [|c r]; [done|]. simpl. by rewrite Hr.
  - apply andb_prop in Hp as [Hc Hp]. apply negb_true_iff in Hc.
    by rewrite Hc, IH.
Qed.

Lemma span_inv stop s p r :
  span stop s = (p, r) →
  s = p +:+ r ∧ all_chars (λ c, negb (stop c)) p = true ∧
  match r with EmptyString => True | String c _ => stop c = true end.
Proof.
  revert p r. induction s as [|c s IH]; intros p r; simpl.
  - by intros [= <- <-].
  - destruct (stop c) eqn:Hc.
    + intros [= <- <-]. by rewrite Hc.
    + destruct (span stop s) as [p' r'] eqn:Hs. intros [= <- <-].
      destruct (IH _ _ eq_refl) as (-> & Hp & Hr). simpl. by rewrite Hc.
Qed.

(** X2. An entry line is read back as written. *)
Theorem match_cache_line_entry name type value :
  name ≠ EmptyString → all_chars name_char name = true →
  type ≠ EmptyString → all_chars type_char type = true →
  value ≠ EmptyString → all_chars value_char value = true →
  match_cache_line (name +:+ ":" +:+ type +:+ "=" +:+ value +:+ nl)
  = Some (name, type, value).
Proof.
  intros Hn Hnc Ht Htc Hv Hvc. unfold match_cache_line.
  rewrite (span_append _ name) by done.
  destruct name as [|n0 name]; [done|].
  rewrite char_append. change (negb (has_char _ ":")) with false. cbv iota.
  rewrite (span_append _ type) by done.
  destruct type as [|t0 type]; [done|].
  rewrite char_append. change (negb (has_char _ "=")) with false. cbv iota.
  rewrite (span_append _ value) by done.
  by destruct value.
Qed.

Lemma has_char_single c d : has_char c (String d EmptyString) = true → c = d.
Proof.
  simpl. destruct (Ascii.eqb d c) eqn:H; [|done]. by apply Ascii.eqb_eq in H.
Qed.

Lemma append_cons c (a b : string) : String c a +:+ b = String c (a +:+ b).
Proof. reflexivity. Qed.

Lemma string_append_assoc (a b c : string) : (a +:+ b) +:+ c = a +:+ b +:+ c.
Proof. induction a; [done|]. rewrite !append_cons. congruence. Qed.

Lemma all_chars_append p (a b : string) :
  all_chars p (a +:+ b) = all_chars p a && all_chars p b.
Proof. induction a as [|c a IH]; [done|]. rewrite append_cons. simpl. by rewrite IH, andb_assoc. Qed.

Lemma append_nl_inj (a b : string) : a +:+ nl = b +:+ nl → a = b.
Proof.
  revert b. induction a as [|c a IH]; intros [|d b]; rewrite ?append_cons; try done.
  - intros [= <- Hb]. by destruct b.
  - intros [= -> Ha]. by destruct a.
  - intros [= -> Hab]. f_equal. by apply IH.
Qed.

(** A line of a file has no newline but at its end. *)
Lemma lines_from_line current text line :
  all_chars value_char current = true → line ∈ lines_from current text →
  ∃ s, all_chars value_char s = true ∧ (line = s ∨ line = s +:+ nl).
Proof.
  revert current. induction text as [|c text IH]; intros current Hcur; simpl.
  - destruct current; [by intros ?%elem_of_nil|].
    intros ->%list_elem_of_singleton. eauto.
  - destruct (is_newline c) eqn:Hc.
    + apply Ascii.eqb_eq in Hc as ->.
      intros [->|Hin]%elem_of_cons; [by eauto|]. by apply (IH EmptyString).
    + apply IH. rewrite all_chars_append, Hcur. simpl. unfold value_char. by rewrite Hc.
Qed.

(** X3. A line that is read as an entry has the shape of one: name, type
    and value, each of its class and not empty, and a newline at the
    end, or two; a line of a file has one. *)
Theorem match_cache_line_shape line name type value :
  match_cache_line line = Some (name, type, value) →
  (line = name +:+ ":" +:+ type +:+ "=" +:+ value +:+ nl ∨
   line = name +:+ ":" +:+ type +:+ "=" +:+ value +:+ nl +:+ nl) ∧
  name ≠ EmptyString ∧ all_chars name_char name = true ∧
  type ≠ EmptyString ∧ all_chars type_char type = true ∧
  value ≠ EmptyString ∧ all_chars value_char value = true ∧
  (∀ text, line ∈ file_lines text →
           line = name +:+ ":" +:+ type +:+ "=" +:+ value +:+ nl).
Proof.
  intros Hmatch.
  assert ((line = name +:+ ":" +:+ type +:+ "=" +:+ value +:+ nl ∨
           line = name +:+ ":" +:+ type +:+ "=" +:+ value +:+ nl +:+ nl) ∧
          name ≠ EmptyString ∧ all_chars name_char name = true ∧
          type ≠ EmptyString ∧ all_chars type_char type = true ∧
          value ≠ EmptyString ∧ all_chars value_char value = true)
    as (Hline & ? & ? & ? & ? & ? & ?).
  { revert Hmatch. unfold match_cache_line.
    destruct (span _ line) as [n r1] eqn:H1. apply span_inv in H1 as (-> & Hn & _).
    destruct n as [|n0 n]; [done|]. destruct r1 as [|c1 r2]; [done|].
    destruct (has_char c1 ":") eqn:Hc1; [|done]. cbn [negb].
    apply has_char_single in Hc1 as ->.
    destruct (span _ r2) as [t r3] eqn:H2. apply span_inv in H2 as (-> & Ht & _).
    destruct t as [|t0 t]; [done|]. destruct r3 as [|c2 r4]; [done|].
    destruct (has_char c2 "=") eqn:Hc2; [|done]. cbn [negb].
    apply has_char_single in Hc2 as ->.
    destruct (span _ r4) as [v r5] eqn:H3. apply span_inv in H3 as (-> & Hv & Hnl).
    destruct v as [|v0 v]; [done|]. destruct r5 as [|c3 r6]; [done|].
    apply Ascii.eqb_eq in Hnl as ->.
    destruct r6 as [|c4 [|c5 r7]]; [| |done].
    - intros [= <- <- <-]. split; [left; reflexivity|done].
    - destruct (is_newline c4) eqn:Hc4; [|done]. apply Ascii.eqb_eq in Hc4 as ->.
      intros [= <- <- <-]. split; [right; reflexivity|done]. }
  do 7 (split; [done|]).
  intros text Hin. destruct Hline as [->| ->]; [done|]. exfalso.
  destruct (lines_from_line EmptyString _ _ eq_refl Hin) as (s & Hs & [Heq|Heq]).
  - rewrite <- Heq, !all_chars_append in Hs.
    change (all_chars value_char nl) with false in Hs.
    by rewrite !andb_false_r in Hs.
  - rewrite <- !string_append_assoc in Heq. apply append_nl_inj in Heq.
    rewrite <- Heq, all_chars_append in Hs.
    change (all_chars value_char nl) with false in Hs.
    by rewrite andb_false_r in Hs.
Qed.

(** X4. What is not read as an entry: a line that starts with [#] or [/] (a
    comment) or with [:] or [=], and an entry whose value is empty. *)
Theorem match_cache_line_ignores :
  (∀ c rest, has_char c "#/:=" = true → match_cache_line (String c rest) = None) ∧
  (∀ name type, all_chars name_char name = true → all_chars type_char type = true →
     match_cache_line (name +:+ ":" +:+ type +:+ "=" +:+ nl) = None).
Proof.
  split.
  - intros c rest Hc. unfold match_cache_line. cbn [span]. by rewrite Hc.
  - intros name type Hn Ht. unfold match_cache_line.
    rewrite (span_append _ name) by done.
    destruct name as [|n0 name]; [done|].
    rewrite char_append. change (negb (has_char _ ":")) with false. cbv iota.
    rewrite (span_append _ type) by done.
    by destruct type.
Qed.

Lemma parse_cmakecache_lines_snoc lines line :
  parse_cmakecache_lines (lines ++ [line])
  = cache_step (parse_cmakecache_lines lines) line.
Proof. unfold parse_cmakecache_lines. by rewrite foldl_app. Qed.

(** X5. The value the parsed cache has for a name is that of the last line
    of the file that sets it; names no line sets are absent. *)
Theorem parse_cmakecache_lookup lines name value :
  parse_cmakecache_lines lines !! name = Some value ↔
  ∃ before line after, lines = before ++ line :: after ∧
    assigns line name value ∧ silent_on name after.
Proof.
  revert value. induction lines as [|line lines IH] using rev_ind; intros value.
  { split; [done|]. intros (b & l & a & Heq & _). by destruct b. }
  rewrite parse_cmakecache_lines_snoc. unfold cache_step.
  destruct (match_cache_line line) as [[[n t] v]|] eqn:Hm.
  - destruct (decide (n = name)) as [->|Hne].
    + rewrite lookup_insert_eq. split.
      * intros [= ->]. exists lines, line, []. split; [done|]. split; [by exists t|].
        by intros l v' ?%elem_of_nil.
      * intros (b & l & a & Heq & Has & Hsil).
        destruct a as [|x a _] using rev_ind.
        -- apply app_inj_tail in Heq as [_ <-]. destruct Has as [t' Ht'].
           congruence.
        -- rewrite app_comm_cons, app_assoc in Heq.
           apply app_inj_tail in Heq as [_ <-].
           destruct (Hsil line v); [set_solver|by exists t].
    + rewrite lookup_insert_ne by done. rewrite IH. split.
      * intros (b & l & a & -> & Has & Hsil). exists b, l, (a ++ [line]).
        split; [by rewrite <- app_assoc|]. split; [done|].
        intros l' v' [Hin|Hin%list_elem_of_singleton]%elem_of_app; [by apply Hsil|].
        subst. intros [t' Ht']. congruence.
      * intros (b & l & a & Heq & Has & Hsil).
        destruct a as [|x a _] using rev_ind.
        -- apply app_inj_tail in Heq as [_ <-]. destruct Has as [t' Ht'].
           congruence.
        -- rewrite app_comm_cons, app_assoc in Heq.
           apply app_inj_tail in Heq as [-> <-].
           exists b, l, a. split; [done|]. split; [done|].
           intros l' v' Hin. apply Hsil. set_solver.
  - rewrite IH. split.
    + intros (b & l & a & -> & Has & Hsil). exists b, l, (a ++ [line]).
      split; [by rewrite <- app_assoc|]. split; [done|].
      intros l' v' [Hin|Hin%list_elem_of_singleton]%elem_of_app; [by apply Hsil|].
      subst. intros [t' Ht']. congruence.
    + intros (b & l & a & Heq & Has & Hsil).
      destruct a as [|x a _] using rev_ind.
      * apply app_inj_tail in Heq as [_ <-]. destruct Has as [t' Ht']. congruence.
      * rewrite app_comm_cons, app_assoc in Heq.
        apply app_inj_tail in Heq as [-> <-].
        exists b, l, a. split; [done|]. split; [done|].
        intros l' v' Hin. apply Hsil. set_solver.
Qed.

(** ** The states a run goes through *)

Section Run_states.
Context {W : Type} {host_ops : Host W}.
Variable table : registry.

Implicit Types (st : state W) (rem : list string).

Local Abbreviation settled := (settled table).
Local Abbreviation settles := (settles table).
Local Abbreviation run_state := (run_state table).

Lemma settled_weaken rem rem' st : rem' ⊆ rem → settled rem st → settled rem' st.
Proof.
  intros Hsub Hs a Ha. destruct (Hs a Ha) as (op & hs & os & Hent & Hhs & Hos).
  exists op, hs, os. split; [done|]. split; [done|]. auto.
Qed.

Lemma settled_same rem st st' :
  completed_actions st' = completed_actions st → settled rem st → settled rem st'.
Proof. intros Hc Hs a. rewrite Hc. apply Hs. Qed.

Lemma for_each_resolve_settled depth rem q deps :
  (∀ a st, settled rem st →
     ensures (execute_action table depth a rem) st (λ r st',
       settles rem st st' ∧ (r = Normal tt → a ∈ completed_actions st'))) →
  ∀ st, settled rem st →
    ensures (for_each deps (resolve table depth rem q)) st (λ r st',
      settles rem st st' ∧
      (r = Normal tt → ∀ d, d ∈ deps → q d = true → d ∈ completed_actions st')).
Proof.
  intros IH. induction deps as [|dep deps IHdeps]; intros st Hs; simpl.
  { apply ensures_ret. split; [by split|]. by intros _ d ?%elem_of_nil. }
  eapply (ensures_seq _ _ _ (λ r st1,
            settles rem st st1 ∧
            (r = Normal tt → q dep = true → dep ∈ completed_actions st1))).
  - unfold resolve. apply ensures_bind, ensures_gets.
    destruct (q dep); simpl; [|apply ensures_ret; by split].
    case_bool_decide as Hin.
    { eapply ensures_weaken; [by apply IH|]. intros r st1 [? ?]. auto. }
    apply ensures_ret. split; [by split|]. intros _ _.
    by destruct (decide (dep ∈ completed_actions st)).
  - intros e st1 [? _]. by split.
  - intros [] st1 [(Hs1 & Hsub1 & Hact1) Hdep].
    eapply ensures_weaken; [by apply IHdeps|].
    intros r st2 [(Hs2 & Hsub2 & Hact2) Hdeps]. split.
    + split; [done|]. split; [set_solver|congruence].
    + intros -> d [->|Hd]%elem_of_cons Hq; [|by apply Hdeps].
      apply Hsub2. by apply Hdep.
Qed.

(** A call of [execute_action] keeps the completed actions settled. *)
Lemma execute_action_settled depth : ∀ a rem st, settled rem st →
  ensures (execute_action table depth a rem) st (λ r st',
    settles rem st st' ∧ (r = Normal tt → a ∈ completed_actions st')).
Proof.
  induction depth as [|depth IH]; intros a rem st Hs.
  { apply ensures_raise. by split. }
  rewrite execute_action_unfold.
  destruct (table !! a) as [[[op hs] os]|] eqn:Hent; [|apply ensures_raise; by split].
  eapply ensures_seq; [apply (for_each_resolve_settled depth rem _ hs); [by intros; apply IH|done]|..].
  { intros e st1 [? _]. by split. }
  intros [] st1 [(Hs1 & Hsub1 & Hact1) Hhs].
  eapply ensures_seq; [apply (for_each_resolve_settled depth rem _ os); [by intros; apply IH|done]|..].
  { intros e st2 [(? & ? & ?) _]. split; [|done]. split; [done|]. split; [set_solver|congruence]. }
  intros [] st2 [(Hs2 & Hsub2 & Hact2) Hos].
  apply ensures_bind, ensures_gets.
  eapply (ensures_seq _ _ _ (λ r st3, settles rem st2 st3)).
  - case_bool_decide; [by apply ensures_ret|].
    destruct op as [f|b].
    + intros r st3 (Hc & Ha & _)%invoke_run.
      split; [by eapply settled_same|]. split; [by rewrite Hc|done].
    + case_bool_decide; [|by apply ensures_raise].
      eapply ensures_weaken; [by apply IH|]. by intros r st3 [? _].
  - intros e st3 (? & ? & ?). split; [|done].
    split; [done|]. split; [set_solver|congruence].
  - intros [] st3 (Hs3 & Hsub3 & Hact3). apply ensures_modify.
    unfold settles, add_completed. simpl.
    split; [|set_solver]. split; [|split; [set_solver|congruence]].
    intros x Hx. simpl in Hx.
    apply elem_of_union in Hx as [->%elem_of_singleton|Hx].
    + exists op, hs, os. split; [done|]. simpl. split.
      * intros d Hd. apply elem_of_union_r, Hsub3, Hsub2. by apply Hhs.
      * intros d Hd Hrem. apply elem_of_union_r, Hsub3. apply Hos; [done..|].
        by apply bool_decide_eq_true.
    + destruct (Hs3 x Hx) as (op' & hs' & os' & Hent' & Hhs' & Hos').
      exists op', hs', os'. split; [done|]. simpl. split; intros d Hd; set_solver.
Qed.

(** In every state of a run the completed actions are settled for the
    rest of [args.actions]. *)
Lemma run_state_settled st : run_state st → settled (tail (actions st)) st.
Proof.
  induction 1 as [st Hnone|st depth a st' _ IH Hrun|st f a st' _ IH Hrun|st _ IH].
  - intros a Ha. rewrite Hnone in Ha. by apply elem_of_empty in Ha.
  - destruct (execute_action_settled _ _ _ _ IH _ _ Hrun) as [(Hs & _ & Hact) _].
    by rewrite Hact.
  - apply invoke_run in Hrun as (Hc & Hact & _). rewrite Hact.
    by eapply settled_same.
  - simpl. eapply settled_same with (st := st); [done|].
    eapply settled_weaken; [|done].
    intros x Hx. destruct (tail (actions st)); [done|]. simpl in Hx. set_solver.
Qed.

(** The loop of [main] goes from state to state of the run. *)
Lemma while_actions_run_state limit queue :
  ∀ st st', run_state st → actions st = queue →
    while_actions table limit queue st = (Normal tt, st') → run_state st'.
Proof.
  induction queue as [|first rest IH]; intros st st' Hrs Hq Hrun; simpl in Hrun.
  { by injection Hrun as <-. }
  apply bind_inv in Hrun as [([] & st1 & Hcall & Hrun)|(e & _ & [=])].
  apply bind_inv in Hrun as [([] & st2 & Hpop & Hrun)|(e & _ & [=])].
  injection Hpop as <-.
  assert (tail (actions st) = rest) as Htail by by rewrite Hq.
  assert (actions st1 = actions st) as Hact.
  { rewrite <- Htail in Hcall.
    by destruct (execute_action_settled _ _ _ _ (run_state_settled _ Hrs) _ _ Hcall)
      as [(_ & _ & ?) _]. }
  apply (IH (set_actions (tail (actions st1)) st1)); [|simpl; by rewrite Hact|done].
  apply run_state_pop. eapply run_state_call; [done|]. rewrite Htail. done.
Qed.

(** The state in which a run ends is one of its states. *)
Lemma main_run_state limit cl w st :
  main table limit (initial cl w) = (Normal tt, st) → run_state st.
Proof.
  intros [(_ & _ & e & [=])|(st0 & _ & Hnone & Hact & Hrun)]%main_prelude.
  eapply while_actions_run_state; [|done..]. by apply run_state_start.
Qed.

(** C5. In every state of a run, whatever has been completed and whatever
    is left of [args.actions], a call of [execute_action] for an action
    that is in [completed_actions], with [remaining_actions] from the
    rest of [args.actions], returns with the state as it was: no
    handler is entered, neither its own nor that of a dependency, and
    [completed_actions] is unchanged. *)
Theorem completed_action_is_noop st depth a rem :
  run_state st → rem ⊆ tail (actions st) → a ∈ completed_actions st →
  execute_action table (S depth) a rem st = (Normal tt, st).
Proof.
  intros Hrs Hsub Ha.
  destruct (settled_weaken _ _ _ Hsub (run_state_settled _ Hrs) a Ha)
    as (op & hs & os & Hent & Hhs & Hos).
  by eapply execute_action_completed.
Qed.
End Run_states.

(** ** Where exceptions come from *)

(** *** What the handlers raise *)

Section Raises.
Context {W : Type} {host_ops : Host W}.
Variable P : exn → Prop.
Hypothesis P_key : ∀ k, P (KeyError k).
Hypothesis P_type : ∀ m, P (TypeError m).
Hypothesis P_fatal : ∀ m, P (FatalError m).
Hypothesis P_other : ∀ n, P (OtherError n).

Lemma raises_ret {S A} (a : A) : raises P (mret a : prog S A).
Proof. by intros st e st'. Qed.

Lemma raises_gets {S A} (f : S → A) : raises P (gets f).
Proof. by intros st e st'. Qed.

Lemma raises_raise {S A} (e : exn) : P e → raises P (@raise S A e).
Proof. intros He st e' st' [= <- <-]. done. Qed.

Lemma raises_bind {S A B} (m : prog S A) (k : A → prog S B) :
  raises P m → (∀ a, raises P (k a)) → raises P (m ≫= k).
Proof.
  intros Hm Hk st e st' [(a & st1 & _ & Hrun)|(e' & Hrun & [= ->])]%bind_inv.
  - by eapply Hk.
  - by eapply Hm.
Qed.

Lemma raises_on_host {A} (f : W → A * W) : raises P (on_host f).
Proof. intros c e c'. unfold on_host. by destruct (f (host c)). Qed.

Lemma raises_host_call (f : Namespace → W → option failure * Namespace * W) :
  raises P (host_call f).
Proof.
  intros c e c'. unfold host_call.
  destruct (f (args c) (host c)) as [[[[]|]]]; intros [= <- <-]; simpl; auto.
Qed.

Lemma raises_run_tool tool_name tool_args cwd :
  raises P (_run_tool tool_name tool_args cwd).
Proof.
  unfold _run_tool, none_path, do_print. destruct cwd; [|by apply raises_raise].
  repeat (apply raises_bind; [apply raises_on_host|intros ?]).
  case_match; first [apply raises_ret|by apply raises_raise].
Qed.

Lemma raises_get_esptool_args : raises P _get_esptool_args.
Proof.
  unfold _get_esptool_args. apply raises_bind; [apply raises_gets|intros ?].
  case_match; [|by apply raises_raise].
  apply raises_bind; [apply raises_gets|intros ?]. apply raises_ret.
Qed.

Lemma GENERATOR_CMDS_lookup g cmd :
  GENERATOR_CMDS !! g = Some cmd →
  (g = "Ninja" ∧ cmd = ["ninja"]) ∨
  (g = MAKE_GENERATOR os ∧ cmd = [MAKE_CMD os; "-j"; pretty (cpu_count + 2)%Z]).
Proof.
  unfold GENERATOR_CMDS, GENERATORS. simpl.
  intros [[<- <-]|[_ [[<- <-]|[_ ?]]%lookup_insert_Some]]%lookup_insert_Some; auto.
  done.
Qed.

Lemma raises_build_target target_name : raises P (build_target target_name).
Proof.
  unfold build_target. apply raises_bind; [apply raises_host_call|intros ?].
  apply raises_bind; [apply raises_gets|intros ns].
  destruct (generator ns) as [g|]; [|by apply raises_raise].
  destruct (GENERATOR_CMDS !! g) as [cmd|] eqn:Hcmd; [|by apply raises_raise].
  apply GENERATOR_CMDS_lookup in Hcmd as [[_ ->]|[_ ->]]; apply raises_run_tool.
Qed.

Lemma raises_call f a : raises P (call f a).
Proof.
  destruct f; simpl.
  - apply raises_build_target.
  - unfold flash. case_match; [|by apply raises_raise].
    apply raises_bind; [apply raises_get_esptool_args|intros ?].
    apply raises_bind; [apply raises_gets|intros ?]. apply raises_run_tool.
  - unfold erase_flash.
    apply raises_bind; [apply raises_get_esptool_args|intros ?].
    apply raises_bind; [apply raises_gets|intros ?]. apply raises_run_tool.
  - apply raises_host_call.
  - unfold clean, none_path. apply raises_bind; [apply raises_gets|intros ?].
    case_match; [|by apply raises_raise].
    apply raises_bind; [apply raises_gets|intros ?].
    case_match; [unfold do_print; apply raises_on_host|apply raises_build_target].
  - apply raises_host_call.
Qed.
End Raises.

Lemma call_handler_exn {W} {host_ops : Host W} f a : raises handler_exn (call f a).
Proof. by apply raises_call. Qed.

(** *** What [execute_action] raises and keeps *)

Section Guarded.
Context {W : Type} {host_ops : Host W}.
Variable table : registry.
Variable J : ctx W → Prop.
Variable P : exn → Prop.

Implicit Types (st : state W) (rem : list string) (cl : command_line) (w : W).

Local Abbreviation dangling := (dangling table).
Local Abbreviation broken_alias := (broken_alias table).
Local Abbreviation raised_by_executor := (raised_by_executor table).
Local Abbreviation raised_by_table := (raised_by_table table).
Local Abbreviation raised_before_loop := (raised_before_loop table).
Local Abbreviation guarded := (guarded table J P).
Local Abbreviation accepted := (accepted table).

(** The handlers of the table keep [J] and raise within [P]. *)
Hypothesis handlers_keep : ∀ f a hs os c,
  table !! a = Some (Callable f, hs, os) → J c →
  ensures (call f a) c (λ r c', J c' ∧ ∀ e, r = Raised e → P e).

Lemma invoke_guarded f a hs os st :
  table !! a = Some (Callable f, hs, os) → J (context st) →
  ensures (invoke f a) st (λ r st',
    J (context st') ∧ ∀ e, r = Raised e → P e ∧ handler_raised e st').
Proof.
  intros Hent HJ r st' Hrun.
  pose proof Hrun as (_ & _ & Ht)%invoke_run.
  revert Hrun. unfold invoke, log, try_except, in_context. intros Hrun. run_in Hrun.
  destruct (call f a (context st)) as [[[]|e'] c] eqn:Hcall; run_in Hrun;
    destruct (handlers_keep _ _ _ _ _ Hent HJ _ _ Hcall) as [HJ' HP];
    inversion Hrun; subst; simpl; (split; [done|]).
  - by intros ? [=].
  - intros ? [= <-]. split; [by apply HP|]. simpl in Ht. unfold handler_raised. eauto.
Qed.

Lemma for_each_resolve_guarded depth rem q deps :
  guarded depth →
  ∀ st, J (context st) →
    ensures (for_each deps (resolve table depth rem q)) st (λ r st',
      J (context st') ∧
      ∀ e, r = Raised e →
        (∃ d, d ∈ deps ∧ raised_by_executor d e) ∨ (P e ∧ handler_raised e st')).
Proof.
  intros IH. induction deps as [|dep deps IHdeps]; intros st HJ; simpl.
  { by apply ensures_ret. }
  eapply (ensures_seq _ _ _ (λ r st1, J (context st1) ∧
            ∀ e, r = Raised e → raised_by_executor dep e ∨ (P e ∧ handler_raised e st1))).
  - unfold resolve. apply ensures_bind, ensures_gets.
    destruct (q dep && _); [by apply IH|by apply ensures_ret].
  - intros e st1 [HJ1 He]. split; [done|]. intros ? [= <-].
    destruct (He e eq_refl); [|auto]. left. exists dep. split; [set_solver|done].
  - intros [] st1 [HJ1 _]. eapply ensures_weaken; [by apply IHdeps|].
    intros r st2 [HJ2 He]. split; [done|]. intros e ->.
    destruct (He e eq_refl) as [(d & Hd & Hex)|?]; [|auto].
    left. exists d. split; [set_solver|done].
Qed.

Lemma execute_action_guarded depth : guarded depth.
Proof.
  induction depth as [|depth IH]; intros a rem st HJ.
  { apply ensures_raise. split; [done|]. intros ? [= <-]. left. by left. }
  rewrite execute_action_unfold.
  destruct (table !! a) as [[[op hs] os]|] eqn:Hent; cycle 1.
  { apply ensures_raise. split; [done|]. intros ? [= <-]. left. right. left. eauto. }
  assert (∀ q deps st1, (∀ d, d ∈ deps → d ∈ hs ∨ d ∈ os) → J (context st1) →
            ensures (for_each deps (resolve table depth rem q)) st1 (λ r st2,
              J (context st2) ∧
              ∀ e, r = Raised e → raised_by_executor a e ∨ (P e ∧ handler_raised e st2)))
    as Hloop.
  { intros q deps st1 Hsub HJ1.
    eapply ensures_weaken; [by apply for_each_resolve_guarded|].
    intros r st2 [HJ2 He]. split; [done|]. intros e ->.
    destruct (He e eq_refl) as [(d & Hd & [->|[(b & -> & Hb & Hor)|[-> Hbr]]])|?]; [| | |auto].
    - left. by left.
    - left. right. left. exists b. split; [done|]. split; [done|]. right.
      destruct Hor as [->|?]; [|done]. split; [done|].
      exists a, op, hs, os. auto.
    - left. right. by right. }
  eapply ensures_seq; [apply Hloop; [auto|done]|..].
  { intros e st1 [? He]. split; [done|]. intros ? [= <-]. by apply He. }
  intros [] st1 [HJ1 _].
  eapply ensures_seq; [apply Hloop; [auto|done]|..].
  { intros e st2 [? He]. split; [done|]. intros ? [= <-]. by apply He. }
  intros [] st2 [HJ2 _].
  apply ensures_bind, ensures_gets.
  eapply (ensures_seq _ _ _ (λ r st3, J (context st3) ∧
            ∀ e, r = Raised e → raised_by_executor a e ∨ (P e ∧ handler_raised e st3))).
  - case_bool_decide; [by apply ensures_ret|].
    destruct op as [f|b].
    + eapply ensures_weaken; [by eapply invoke_guarded|].
      intros r st3 [? He]. split; [done|]. intros e ->. right. by apply He.
    + case_bool_decide as Hkey; cycle 1.
      { apply ensures_raise. split; [done|]. intros ? [= <-]. left. right. right.
        split; [done|]. exists a, b, hs, os. split; [done|]. by apply not_elem_of_dom. }
      eapply ensures_weaken; [by apply IH|].
      intros r st3 [? He]. split; [done|]. intros e ->.
      destruct (He e eq_refl) as [[->|[(c & -> & Hc & Hor)|[-> Hbr]]]|?]; [| | |auto].
      * left. by left.
      * left. right. left. exists c. split; [done|]. split; [done|]. right.
        destruct Hor as [->|?]; [|done].
        apply elem_of_dom in Hkey as [? ?]. congruence.
      * left. right. by right.
  - intros e st3 [? He]. split; [done|]. intros ? [= <-]. by apply He.
  - intros [] st3 [? _]. by apply ensures_modify.
Qed.

Lemma while_actions_guarded limit queue :
  ∀ st, J (context st) →
    ensures (while_actions table limit queue) st (λ r st',
      J (context st') ∧
      ∀ e, r = Raised e →
        (∃ a, a ∈ queue ∧ raised_by_executor a e) ∨ (P e ∧ handler_raised e st')).
Proof.
  induction queue as [|first rest IH]; intros st HJ; simpl.
  { by apply ensures_ret. }
  eapply ensures_seq; [by apply execute_action_guarded|..].
  - intros e st1 [? He]. split; [done|]. intros ? [= <-].
    destruct (He e eq_refl); [|auto]. left. exists first. split; [set_solver|done].
  - intros [] st1 [HJ1 _]. apply ensures_bind, ensures_modify.
    eapply ensures_weaken; [by apply IH|].
    intros r st2 [? He]. split; [done|]. intros e ->.
    destruct (He e eq_refl) as [(a & Ha & Hex)|?]; [|auto].
    left. exists a. split; [set_solver|done].
Qed.

Lemma parse_args_run st :
  parse_args table st =
  if generator_ok (args (context st)) && bool_decide (actions st ≠ [])
     && forallb (λ x, bool_decide (x ∈ dom table)) (actions st)
  then (Normal tt, st) else (Raised (SystemExit 2), st).
Proof. unfold parse_args. run. by destruct (_ && _). Qed.

Lemma parse_args_accepted cl w :
  generator_ok (args (context (initial cl w))) && bool_decide (opt_actions cl ≠ [])
     && forallb (λ x, bool_decide (x ∈ dom table)) (opt_actions cl) = true
  ↔ accepted cl w.
Proof.
  unfold accepted. rewrite !andb_true_iff, bool_decide_eq_true, forallb_forall.
  split.
  - intros [[? ?] Hall]. split; [done|]. split; [done|].
    intros a Ha%list_elem_of_In. apply Hall in Ha.
    by apply bool_decide_eq_true, elem_of_dom in Ha.
  - intros (? & ? & Hall). split; [done|].
    intros a Ha%list_elem_of_In. by apply bool_decide_eq_true, elem_of_dom, Hall.
Qed.

Lemma check_build_dir_raised c e c' :
  check_build_dir c = (Raised e, c') →
  ∃ dir msg, build_dir (args c) = Some dir ∧
    realpath (project_dir (args c)) (host c) = realpath dir (host c) ∧
    e = FatalError msg.
Proof.
  unfold check_build_dir. intros Hrun. run_in Hrun.
  destruct (build_dir (args c)) as [dir|]; run_in Hrun; [|done].
  destruct (bool_decide _) eqn:Hd in Hrun; run_in Hrun; [|done].
  apply bool_decide_eq_true in Hd. inversion Hrun; subst.
  exists dir. eexists. split; [done|]. split; [done|]. reflexivity.
Qed.

(** [main] with handlers that keep [J], begun where the loop finds [J]. *)
Lemma main_guarded limit cl w e st' :
  (∀ w1 c, check_environment w = (None, w1) →
     check_build_dir {| args := args (context (initial cl w)); host := w1 |}
       = (Normal tt, c) → J c) →
  main table limit (initial cl w) = (Raised e, st') →
  (raised_before_loop cl w e ∧ trace st' = []) ∨
  (accepted cl w ∧ (raised_by_table e ∨ (P e ∧ handler_raised e st'))).
Proof.
  unfold main. intros Hstart Hrun.
  rewrite bind_run, parse_args_run in Hrun. simpl in Hrun.
  destruct (_ && _) eqn:Hacc in Hrun; cycle 1.
  { inversion Hrun; subst. left. split; [|done]. left. split; [done|].
    intros Ha%parse_args_accepted. simpl in Ha. congruence. }
  apply parse_args_accepted in Hacc.
  rewrite bind_run in Hrun. unfold in_context at 1 in Hrun. simpl in Hrun.
  destruct (check_environment w) as [[f|] w1] eqn:Henv.
  { inversion Hrun; subst. left. split; [|done]. right. left. eauto. }
  rewrite bind_run in Hrun. unfold in_context in Hrun. simpl in Hrun.
  match type of Hrun with context [check_build_dir ?c] =>
    destruct (check_build_dir c) as [[[]|e'] c'] eqn:Hdir end.
  2:{ inversion Hrun; subst. left. split; [|done]. right. right. split; [done|].
      apply check_build_dir_raised in Hdir as (dir & msg & ? & ? & ->).
      exists dir, w1, msg. done. }
  run_in Hrun. right. split; [done|].
  apply while_actions_guarded in Hrun as [_ He]; [|by eapply Hstart].
  destruct (He e eq_refl) as [(a & Ha & Hex)|?]; [|auto].
  left. destruct Hacc as (_ & _ & Hkeys).
  destruct Hex as [->|[(b & -> & Hb & [->|?])|?]].
  - by left.
  - apply Hkeys in Ha as [? ?]. congruence.
  - right. left. eauto.
  - right. by right.
Qed.
End Guarded.

Section Failures.
Context {W : Type} {host_ops : Host W}.
Variable table : registry.

Implicit Types (st : state W) (rem : list string) (cl : command_line) (w : W).

Local Abbreviation raised_by_table := (raised_by_table table).
Local Abbreviation raised_before_loop := (raised_before_loop table).
Local Abbreviation accepted := (accepted table).

Lemma handlers_raise f a hs os (c : ctx W) :
  table !! a = Some (Callable f, hs, os) → True →
  ensures (call f a) c (λ r c', True ∧ ∀ e, r = Raised e → handler_exn e).
Proof.
  intros _ _ r c' Hrun. split; [done|]. intros e ->. by eapply call_handler_exn.
Qed.

Lemma main_located limit cl w e st' :
  main table limit (initial cl w) = (Raised e, st') →
  (raised_before_loop cl w e ∧ trace st' = []) ∨
  (accepted cl w ∧ (raised_by_table e ∨ (handler_exn e ∧ handler_raised e st'))).
Proof. by apply (main_guarded table (λ _, True) handler_exn handlers_raise). Qed.

(** X6. An exception that ends [main] was raised before the loop, with no
    handler entered; or the command line was accepted and the exception
    comes from a handler, whose call is the last event, or from
    [execute_action] on a table with a cycle or with a name that is not
    one of its keys.  No handler raises [IndexError], [RecursionError] or
    [SystemExit]. *)
Theorem main_failure_origin limit cl w e st' :
  main table limit (initial cl w) = (Raised e, st') →
  (raised_before_loop cl w e ∧ trace st' = []) ∨
  (accepted cl w ∧ (raised_by_table e ∨ (handler_exn e ∧ handler_raised e st'))).
Proof.
  intros Hrun.
  eapply (main_guarded table (λ _, True) handler_exn); [|done|exact Hrun].
  intros f a hs os c Hent _ r c' Hcall. split; [done|].
  intros e' ->. revert Hcall. apply call_handler_exn.
Qed.
End Failures.

(** ** Handlers that fail *)

Section Fail_fast.
Context {W : Type} {host_ops : Host W}.
Variable table : registry.
Variable recursion_limit : nat.

Implicit Types (st : state W) (rem : list string) (cl : command_line) (w : W).

Lemma invoke_excs f a st :
  handler_excs (trace st) →
  ensures (invoke f a) st (λ _ st', handler_excs (trace st')).
Proof.
  intros Ht r st' Hrun. pose proof Hrun as (_ & _ & Heq)%invoke_run.
  rewrite Heq. intros g b e [Hin|Hin]%elem_of_app; [by eapply Ht|].
  revert Hrun. unfold invoke, log, try_except, in_context. intros Hrun. run_in Hrun.
  destruct (call f a (context st)) as [[[]|e'] c] eqn:Hcall; run_in Hrun;
    inversion Hrun; subst; [set_solver|].
  assert (e = e') as -> by set_solver. by eapply call_handler_exn.
Qed.

Lemma execute_action_excs depth : ∀ a rem st,
  handler_excs (trace st) →
  ensures (execute_action table depth a rem) st (λ _ st', handler_excs (trace st')).
Proof.
  induction depth as [|depth IH]; intros a rem st Ht; [by apply ensures_raise|].
  rewrite execute_action_unfold.
  destruct (table !! a) as [[[op hs] os]|]; [|by apply ensures_raise].
  assert (∀ q deps st1, handler_excs (trace st1) →
            ensures (for_each deps (resolve table depth rem q)) st1
              (λ _ st2, handler_excs (trace st2))) as Hloop.
  { intros q deps.
    apply (ensures_for_each deps _ (λ st1, handler_excs (trace st1))); [|done].
    intros d st1 _ H1. unfold resolve. apply ensures_bind, ensures_gets.
    destruct (_ && _); [|by apply ensures_ret].
    eapply ensures_weaken; [by apply IH|]. by intros [[]|e] st2. }
  eapply ensures_seq; [by apply Hloop|done|]. intros [] st1 H1.
  eapply ensures_seq; [by apply Hloop|done|]. intros [] st2 H2.
  apply ensures_bind, ensures_gets.
  eapply (ensures_seq _ _ _ (λ _ st3, handler_excs (trace st3))).
  - case_bool_decide; [by apply ensures_ret|].
    destruct op as [f|b]; [by apply invoke_excs|].
    case_bool_decide; [by apply IH|by apply ensures_raise].
  - done.
  - intros [] st3 H3. by apply ensures_modify.
Qed.

Lemma while_actions_excs queue : ∀ st,
  handler_excs (trace st) →
  ensures (while_actions table recursion_limit queue) st
    (λ _ st', handler_excs (trace st')).
Proof.
  induction queue as [|first rest IH]; intros st Ht; simpl; [by apply ensures_ret|].
  eapply ensures_seq; [by apply execute_action_excs|done|]. intros [] st1 H1.
  apply ensures_bind, ensures_modify. by apply IH.
Qed.

(** C7 (fail-fast), amended. A handler that raises is the last thing the
    run does: the trace ends with its call, and the exception, which is
    none of [RecursionError], [SystemExit] and [IndexError], is the
    outcome of [main].  For a [FatalError] the script prints the message
    and exits with status 2; for any other exception of a handler it
    prints nothing and the interpreter ends with status 1.  A run that
    completes exits with status 0. *)
Theorem fail_fast cl w r st :
  main table recursion_limit (initial cl w) = (r, st) →
  (∀ f a e, Exc f a e ∈ trace st →
     (∃ t, paired t ∧ trace st = t ++ [Call f a; Exc f a e]) ∧
     r = Raised e ∧
     handler_exn e ∧
     (∀ msg, e = FatalError msg →
        idf_py table recursion_limit cl w =
        (2, set_context {| args := args (context st);
                           host := print msg (host (context st)) |} st)) ∧
     ((∀ msg, e ≠ FatalError msg) → idf_py table recursion_limit cl w = (1, st))) ∧
  (r = Normal tt → idf_py table recursion_limit cl w = (0, st)).
Proof.
  intros Hrun. split.
  - intros f a e Hexc.
    assert (handler_exn e) as Hexn.
    { destruct (main_prelude _ _ _ _ _ _ Hrun) as [(Ht & _)|(st0 & Ht & _ & _ & Hloop)].
      { rewrite Ht in Hexc. by apply elem_of_nil in Hexc. }
      eapply (while_actions_excs _ st0); [|done..].
      rewrite Ht. by intros ??? ?%elem_of_nil. }
    destruct (main_sound _ _ _ _ _ _ Hrun) as [_ Hpost].
    destruct r as [[]|e'].
    { destruct Hpost as (HI & _). by apply (paired_no_exc _ f a e) in Hexc; [|apply HI]. }
    destruct Hpost as [_ [Hp|(t & g & b & Ht & Hp)]].
    { by apply (paired_no_exc _ f a e) in Hexc. }
    rewrite Ht in Hexc. apply elem_of_app in Hexc as [Hexc|Hexc].
    { by apply (paired_no_exc _ f a e) in Hexc. }
    assert (g = f ∧ b = a ∧ e' = e) as (-> & -> & ->) by set_solver.
    split; [eauto|]. split; [done|]. split; [done|]. split.
    + intros msg ->. unfold idf_py. by rewrite Hrun.
    + intros Hne. unfold idf_py. rewrite Hrun.
      destruct e; try done. by destruct (Hne msg).
  - intros ->. unfold idf_py. by rewrite Hrun.
Qed.
End Fail_fast.

(** ** Runs that complete *)

Section Completion.
Context {W : Type} {host_ops : Host W}.
Variable table : registry.
Variable J : ctx W → Prop.

Implicit Types (st : state W) (rem : list string) (cl : command_line) (w : W).

Local Abbreviation reaches := (reaches table).

(** With handlers that return, on a table that names nothing but its keys
    and has no cycle, within the recursion limit, a run that reaches the
    loop completes. *)
Lemma main_completes rank limit cl w st0 :
  closed table → ranked table rank → (∀ x, (rank x < limit)%nat) →
  dependable table J →
  opt_actions cl ≠ [] → (∀ a, a ∈ opt_actions cl → is_Some (table !! a)) →
  prelude (initial cl w) = (Normal tt, st0) → J (context st0) →
  ∃ st, main table limit (initial cl w) = (Normal tt, st).
Proof.
  intros Hcl Hrk Hlt Hdep Hne Hkeys Hpre HJ.
  destruct (main table limit (initial cl w)) as [[[]|e] st] eqn:Hmain; [eauto|exfalso].
  assert (e ≠ RecursionError) as Hrec.
  { intros ->. by eapply (main_shallow table rank limit). }
  change (initial cl w) with (set_actions (opt_actions cl) (initial cl w)) in Hmain.
  rewrite main_request, Hpre in Hmain; [|done|]; cycle 1.
  { apply Forall_forall. intros a Ha. by apply elem_of_dom, Hkeys. }
  apply (while_actions_guarded table J (λ _, False)) in Hmain as [_ He].
  - destruct (He e eq_refl)
      as [(a & Ha & [->|[(b & -> & Hb & [->|(_ & x & op & hs & os & Hent & Hin)])
                        |[-> (x & b & hs & os & Hent & Hb)]]])|[[] _]].
    + done.
    + destruct (Hkeys _ Ha). congruence.
    + destruct (Hcl _ _ _ _ Hent) as [Hdeps _]. destruct (Hdeps b Hin). congruence.
    + destruct (Hcl _ _ _ _ Hent) as [_ Hali]. destruct (Hali b eq_refl). congruence.
  - intros f a hs os c Hent HJc r c' Hcall.
    destruct (Hdep _ _ _ _ _ Hent HJc) as (c1 & Heq & HJ1).
    rewrite Heq in Hcall. injection Hcall as <- <-. by split.
  - done.
Qed.

Lemma main_completes_with rank limit l cl w st0 :
  closed table → ranked table rank → (∀ x, (rank x < limit)%nat) →
  dependable table J →
  l ≠ [] → (∀ a, a ∈ l → is_Some (table !! a)) →
  prelude (initial cl w) = (Normal tt, st0) → J (context st0) →
  ∃ st, main table limit (initial (with_actions l cl) w) = (Normal tt, st).
Proof.
  intros Hcl Hrk Hlt Hdep Hne Hkeys Hpre HJ.
  apply (main_completes rank limit _ _ (set_actions l st0)); try done.
  change (initial (with_actions l cl) w) with (set_actions l (initial cl w)).
  by rewrite carries_prelude, Hpre.
Qed.

(** In a run that completes, the handler of a requested action has been
    entered. *)
Lemma completed_run_called limit cl w st a f hs os :
  main table limit (initial cl w) = (Normal tt, st) →
  a ∈ opt_actions cl → table !! a = Some (Callable f, hs, os) →
  NoDup (calls (trace st)) ∧ Call f a ∈ trace st.
Proof.
  intros Hrun Ha Hent.
  destruct (main_sound _ _ _ _ _ _ Hrun) as [_ (HI & _ & Hall)].
  split; [apply HI|].
  apply paired_ret_call; [apply HI|]. eapply inv_rets; [done| |done]. by apply Hall.
Qed.

(** C3 (order-only conditionality). [a] has the order-only dependency
    [d]; [d] is not among what [a] needs through dependencies and aliases,
    and [a] is not among what [d] resolves.  Then, in any run, requesting
    [a] alone never enters the handler of [d]; and requesting [a d] or
    [d a] enters the handler of [d] at most once, has it return before
    the handler of [a] is entered, and, when the run completes, has
    entered both exactly once.  And the runs do complete, when the table
    names nothing but its keys and has no cycle, the recursion limit is
    above its ranks, the handlers return, and [main] reaches its loop:
    the run for [a] enters the handler of [a] once and that of [d] not at
    all; the runs for [a d] and for [d a] enter each of the two handlers
    exactly once, and that of [d] has returned before that of [a] is
    entered. *)
Theorem order_only_conditionality limit cl w a d fa fd hsa osa hsd osd :
  table !! a = Some (Callable fa, hsa, osa) → d ∈ osa →
  table !! d = Some (Callable fd, hsd, osd) →
  ¬ reaches [] a d → ¬ reaches [a] d a →
  (∀ r st f, main table limit (initial (with_actions [a] cl) w) = (r, st) →
     Call f d ∉ trace st) ∧
  (∀ l r st, l = [a; d] ∨ l = [d; a] →
     main table limit (initial (with_actions l cl) w) = (r, st) →
     (invocations d (trace st) ≤ 1)%nat ∧
     (∀ t1 t2, trace st = t1 ++ Call fa a :: t2 → Ret fd d ∈ t1) ∧
     (r = Normal tt →
      invocations d (trace st) = 1%nat ∧ invocations a (trace st) = 1%nat)) ∧
  (∀ rank st0,
     closed table → ranked table rank → (∀ x, (rank x < limit)%nat) →
     dependable table J →
     prelude (initial cl w) = (Normal tt, st0) → J (context st0) →
     (∃ st, main table limit (initial (with_actions [a] cl) w) = (Normal tt, st) ∧
        invocations a (trace st) = 1%nat ∧ invocations d (trace st) = 0%nat) ∧
     (∀ l, l = [a; d] ∨ l = [d; a] →
        ∃ st, main table limit (initial (with_actions l cl) w) = (Normal tt, st) ∧
          invocations d (trace st) = 1%nat ∧ invocations a (trace st) = 1%nat ∧
          before (Ret fd d) (Call fa a) (trace st))).
Proof.
  intros Ha Hd Hdd Honly Hacyc.
  destruct (order_only_resolution table limit cl w a d fa fd hsa osa hsd osd
              Ha Hd Hdd Honly Hacyc) as [Halone Hpair].
  split; [done|]. split; [done|].
  intros rank st0 Hcl Hrk Hlt Hdep Hpre HJ. split.
  - destruct (main_completes_with rank limit [a] cl w st0) as [st Hrun]; try done.
    { intros x ->%list_elem_of_singleton. eauto. }
    exists st. split; [done|].
    destruct (completed_run_called _ _ _ _ a fa hsa osa Hrun) as [Hnd Hcall];
      [set_solver|done|].
    split; [by eapply invocations_once|].
    unfold invocations. rewrite filter_eq_NoDup by done.
    rewrite bool_decide_eq_false_2; [done|].
    intros [f Hin]%elem_of_calls. by eapply Halone.
  - intros l Hl.
    destruct (main_completes_with rank limit l cl w st0) as [st Hrun]; try done.
    { by destruct Hl as [-> | ->]. }
    { intros x Hx. destruct Hl as [-> | ->];
        repeat (apply elem_of_cons in Hx as [->|Hx]); eauto;
        by apply elem_of_nil in Hx. }
    exists st. split; [done|].
    destruct (Hpair l _ _ Hl Hrun) as (_ & Hbefore & Hone).
    destruct (Hone eq_refl) as [Hd1 Ha1]. split; [done|]. split; [done|].
    destruct (completed_run_called _ _ _ _ a fa hsa osa Hrun) as [Hnd Hcall]; [|done|].
    { destruct Hl as [-> | ->]; set_solver. }
    apply list_elem_of_split in Hcall as (t1 & t2 & Ht).
    pose proof (Hbefore _ _ Ht) as Hret.
    apply list_elem_of_split in Hret as (s1 & s2 & ->).
    exists s1, s2, t2. by rewrite Ht, <- app_assoc.
Qed.
End Completion.

Lemma closed_table_sound (table : registry) e :
  closed table → raised_by_table table e → e = RecursionError.
Proof.
  intros Hcl [->|[(b & -> & Hb & x & op & hs & os & Hent & Hin)|[-> (x & b & hs & os & Hent & Hb)]]];
    [done|..]; destruct (Hcl _ _ _ _ Hent) as [Hdeps Hali].
  - apply Hdeps in Hin as [? ?]. congruence.
  - destruct (Hali b eq_refl) as [? ?]. congruence.
Qed.

Lemma ACTIONS_closed : closed ACTIONS.
Proof.
  intros x op hs os Hent. each_entry Hent.
  all: split; [intros d [Hd|Hd]|intros b [= <-]];
    repeat (apply elem_of_cons in Hd as [->|Hd]);
    try (by apply elem_of_nil in Hd); eexists; vm_compute; reflexivity.
Qed.

Section Shipped_failures.
Context {W : Type} {host_ops : Host W}.

Implicit Types (st : state W) (cl : command_line) (w : W).

(** X7. With the shipped table and five activations or more, [execute_action]
    itself never raises: an exception that ends [main] was raised before
    the loop or by the handler whose call is the last event. *)
Theorem shipped_failure_origin limit cl w e st' :
  (5 ≤ limit)%nat →
  main ACTIONS limit (initial cl w) = (Raised e, st') →
  (raised_before_loop ACTIONS cl w e ∧ trace st' = []) ∨
  (accepted ACTIONS cl w ∧ handler_exn e ∧ handler_raised e st').
Proof.
  intros Hlimit Hrun.
  destruct (main_located _ _ _ _ _ _ Hrun) as [?|[Hacc [Htab|?]]]; [auto| |auto].
  apply closed_table_sound in Htab as ->; [|apply ACTIONS_closed].
  exfalso. eapply (main_shallow ACTIONS ACTIONS_rank limit); [apply ACTIONS_ranked| |done..].
  intros a. pose proof (ACTIONS_rank_le a). lia.
Qed.
End Shipped_failures.

(** ** What is run, and the exit status *)

Section Requested.
Context {W : Type} {host_ops : Host W}.
Variable table : registry.

Implicit Types (st : state W) (rem : list string) (cl : command_line) (w : W).

Local Abbreviation reaches := (reaches table).
Local Abbreviation accepted := (accepted table).

Lemma while_actions_confined limit queue :
  ∀ st r st', while_actions table limit queue st = (r, st') →
    ∀ f x, Call f x ∈ trace st' →
      Call f x ∈ trace st ∨
      ∃ done a rest, queue = done ++ a :: rest ∧ reaches rest a x.
Proof.
  induction queue as [|first rest IH]; intros st r st' Hrun f x Hin.
  { inversion Hrun; subst. auto. }
  simpl in Hrun.
  apply bind_inv in Hrun as [([] & st1 & Hfirst & Hrun)|(e & Hfirst & ->)].
  - run_in Hrun. destruct (IH _ _ _ Hrun f x Hin) as [Hin1|(pre & a & rest' & -> & Hr)].
    + destruct (execute_action_confined table _ _ _ _ _ _ Hfirst f x Hin1); [auto|].
      right. by exists [], first, rest.
    + right. by exists (first :: pre), a, rest'.
  - destruct (execute_action_confined table _ _ _ _ _ _ Hfirst f x Hin); [auto|].
    right. by exists [], first, rest.
Qed.

(** X8. A handler is entered only for a name that a requested action reaches
    through dependencies, aliases and those order-only dependencies that
    are requested after it; and it is the function the table has for
    that name. *)
Theorem handlers_are_requested limit cl w f x :
  Call f x ∈ trace (main table limit (initial cl w)).2 →
  (∃ hs os, table !! x = Some (Callable f, hs, os)) ∧
  ∃ done a rest, opt_actions cl = done ++ a :: rest ∧ reaches rest a x.
Proof.
  destruct (main table limit (initial cl w)) as [r st'] eqn:Hrun. simpl. intros Hin.
  split.
  - destruct (main_sound _ _ _ _ _ _ Hrun) as [[_ (new & Hnew & Hcalls)] _].
    simpl in Hnew. subst new.
    destruct (Hcalls _ _ Hin) as (_ & hs & os & Hent & _). eauto.
  - destruct (main_prelude _ _ _ _ _ _ Hrun) as [(Ht & _)|(st0 & Ht & _ & _ & Hloop)].
    { rewrite Ht in Hin. by apply elem_of_nil in Hin. }
    destruct (while_actions_confined _ _ _ _ _ Hloop f x Hin) as [Hin0|?]; [|done].
    rewrite Ht in Hin0. by apply elem_of_nil in Hin0.
Qed.

Lemma main_rejected limit cl w :
  ¬ accepted cl w →
  main table limit (initial cl w) = (Raised (SystemExit 2), initial cl w).
Proof.
  intros Hna. unfold main. rewrite bind_run, parse_args_run. simpl.
  destruct (_ && _) eqn:Hacc; [|done]. by apply parse_args_accepted in Hacc.
Qed.

Lemma main_accepted limit cl w e st :
  accepted cl w → main table limit (initial cl w) = (Raised e, st) →
  ∀ code, e ≠ SystemExit code.
Proof.
  intros Hacc Hrun code ->.
  destruct (main_located _ _ _ _ _ _ Hrun)
    as [[[[_ ?]|[(_ & [] & ? & _ & ?)|(_ & ? & ? & ? & _ & _ & _ & ?)]] _]
       |[_ [[?|[(? & ? & _)|[? _]]]|[[] _]]]]; done.
Qed.

(** X9. For a command line without [-h] and [--help], the exit status is
    0, 1 or 2: 0 for a run that returns, 2 for a command line that
    argparse refuses or a [FatalError], 1 for anything else; and for a
    refused command line no handler is entered and nothing is completed.
    (What argparse and the interpreter write to [stderr] is not part of
    the world, and the theorem says nothing of it.) *)
Theorem exit_status limit cl w :
  let run := idf_py table limit cl w in
  let result := (main table limit (initial cl w)).1 in
  (run.1 = 0 ∨ run.1 = 1 ∨ run.1 = 2)%Z ∧
  (run.1 = 0%Z ↔ result = Normal tt) ∧
  (run.1 = 2%Z ↔ ¬ accepted cl w ∨ ∃ msg, result = Raised (FatalError msg)) ∧
  (¬ accepted cl w → trace run.2 = [] ∧ completed_actions run.2 = ∅).
Proof.
  intros run result. unfold run, result, idf_py.
  destruct (generator_ok (args (context (initial cl w)))
            && bool_decide (opt_actions cl ≠ [])
            && forallb (λ x, bool_decide (x ∈ dom table)) (opt_actions cl)) eqn:Hacc;
    [apply parse_args_accepted in Hacc|]; cycle 1.
  { assert (¬ accepted cl w) as Hna.
    { intros ?%parse_args_accepted. congruence. }
    rewrite main_rejected by done. simpl. split; [auto|]. split; [done|].
    split; [|done]. split; auto. }
  destruct (main table limit (initial cl w)) as [[[]|e] st] eqn:Hrun; simpl.
  { split; [auto|]. split; [done|]. split; [|done].
    split; [done|]. by intros [?|[? ?]]. }
  pose proof (main_accepted _ _ _ _ _ Hacc Hrun) as Hexit.
  destruct e; simpl; try by (split; [auto|]; split; [done|]; split; [|done];
    split; [done|]; intros [?|[? ?]]).
  - split; [auto|]. split; [done|]. split; [|done]. split; eauto.
  - by destruct (Hexit code).
Qed.
End Requested.

(** ** The functions of the script on a system *)

Global Instance steady_preorder {W} : PreOrder (@steady W).
Proof.
  split.
  - by intros c.
  - intros c1 c2 c3 [] []. split; try congruence. auto.
Qed.

Section System_facts.
Context {W : Type} {system : System W}.

Implicit Types (p : process W) (c : ctx (process W)).

Lemma executable_exists_ensures tool_args p :
  ensures (Sys.executable_exists tool_args) p (λ r p',
    os_environ p' = os_environ p ∧
    ∃ status, subprocess_check_output tool_args (os_environ p) (world p) = (status, world p') ∧
              r = Normal (match status with Completed => true | _ => false end)).
Proof.
  intros r p'. unfold Sys.executable_exists, Sys.os_call. run.
  destruct (subprocess_check_output _ _ _) as [status w]. run.
  intros [= <- <-]. eauto.
Qed.

Lemma check_environment_ensures p :
  ensures Sys.check_environment p (λ r p',
    (∀ k, k ≠ "IDF_PATH" → os_environ p' !! k = os_environ p !! k) ∧
    (∀ v, os_environ p !! "IDF_PATH" = Some v → os_environ p' !! "IDF_PATH" = Some v) ∧
    match r with
    | Normal _ => is_Some (os_environ p' !! "IDF_PATH")
    | Raised e =>
        e = FatalError "'cmake' must be available on the PATH to use idf.py" ∧
        os_environ p' = os_environ p
    end).
Proof.
  unfold Sys.check_environment. apply ensures_bind.
  eapply ensures_weaken; [apply executable_exists_ensures|].
  intros r p1 (Henv & status & _ & ->).
  destruct (negb _).
  { apply ensures_raise. by rewrite Henv. }
  apply ensures_bind, ensures_gets, ensures_bind, ensures_gets.
  destruct (os_environ p1 !! "IDF_PATH") as [value|] eqn:Hset.
  - apply ensures_bind, ensures_gets.
    case_bool_decide; [apply ensures_modify|apply ensures_ret]; simpl;
      rewrite Henv in *; eauto.
  - apply ensures_modify. simpl. rewrite Henv in *. split; [|split].
    + intros k Hk. by rewrite lookup_insert_ne.
    + intros v. by rewrite Hset.
    + rewrite lookup_insert. eauto.
Qed.

Lemma detect_from_ensures generators p :
  ensures (Sys.detect_from generators) p (λ r p',
    os_environ p' = os_environ p ∧
    match r with
    | Normal g =>
        ∃ skipped cmd version_check rest w,
          generators = skipped ++ (g, cmd, version_check) :: rest ∧
          subprocess_check_output version_check (os_environ p) w = (Completed, world p')
    | Raised e =>
        e = FatalError "To use idf.py, either the 'ninja' or 'GNU make' build tool must be available in the PATH"
    end).
Proof.
  revert p. induction generators as [|[[g cmd] version_check] rest IH]; intros p; simpl.
  { by apply ensures_raise. }
  apply ensures_bind. eapply ensures_weaken; [apply executable_exists_ensures|].
  intros r p1 (Henv & status & Hrun & ->).
  destruct status.
  - apply ensures_ret. split; [done|]. by exists [], cmd, version_check, rest, (world p).
  - eapply ensures_weaken; [apply IH|]. intros r p2 [Henv2 Hr]. rewrite Henv in Henv2.
    split; [done|]. destruct r as [g'|e]; [|done].
    destruct Hr as (skipped & cmd' & vc & rest' & w & -> & Hok). rewrite Henv in Hok.
    by exists ((g, cmd, version_check) :: skipped), cmd', vc, rest', w.
  - eapply ensures_weaken; [apply IH|]. intros r p2 [Henv2 Hr]. rewrite Henv in Henv2.
    split; [done|]. destruct r as [g'|e]; [|done].
    destruct Hr as (skipped & cmd' & vc & rest' & w & -> & Hok). rewrite Henv in Hok.
    by exists ((g, cmd, version_check) :: skipped), cmd', vc, rest', w.
Qed.

Lemma parse_cmakecache_ensures path p :
  ensures (Sys.parse_cmakecache path) p (λ r p',
    p' = p ∧
    match r with
    | Normal cache => ∃ text, read_text path (world p) = inr text ∧
                              cache = parse_cmakecache_lines (file_lines text)
    | Raised e => ∃ name, e = OtherError name
    end).
Proof.
  unfold Sys.parse_cmakecache. apply ensures_bind, ensures_gets.
  destruct (read_text path (world p)) as [name|text] eqn:Hread.
  - apply ensures_raise. eauto.
  - apply ensures_ret. eauto.
Qed.

Lemma in_process_ensures {A} (m : prog (process W) A) c (R : outcome A → process W → Prop) :
  ensures m (host c) R →
  ensures (Sys.in_process m) c (λ r c', args c' = args c ∧ R r (host c')).
Proof.
  intros Hm r c'. unfold Sys.in_process.
  destruct (m (host c)) as [r' p'] eqn:Hrun. intros [= <- <-]. split; [done|].
  by apply (Hm _ _ Hrun).
Qed.

Lemma try_call_ensures (f : W → option string * W) p :
  ensures (Sys.try_call f) p (λ r p',
    os_environ p' = os_environ p ∧ ∀ e, r = Raised e → plain e).
Proof.
  intros r p'. unfold Sys.try_call, Sys.os_call. run. destruct (f (world p)) as [[name|] w]; run.
  - intros [= <- <-]. split; [done|]. by intros e [= <-].
  - intros [= <- <-]. done.
Qed.

Lemma run_tool_ensures tool_name tool_args cwd c :
  ensures (@_run_tool _ library tool_name tool_args (Some cwd)) c (λ r c',
    args c' = args c ∧ os_environ (host c') = os_environ (host c) ∧
    ∀ e, r = Raised e → plain e).
Proof.
  intros r c'. unfold _run_tool, do_print, on_host. run.
  destruct (subprocess_check_call _ _ _ _) as [status w]. run.
  destruct status; run; intros [= <- <-]; (split; [done|split; [done|]]);
    intros e; try done; by intros [= <-].
Qed.

Lemma steady_world c w :
  steady c {| args := args c;
              host := {| os_environ := os_environ (host c); world := w |} |}.
Proof. by split. Qed.

Lemma steady_args c c' :
  args c' = args c → os_environ (host c') = os_environ (host c) → steady c c'.
Proof. intros Ha He. split; by rewrite ?Ha, ?He. Qed.

Lemma steady_generator_set c c' g :
  steady c c' → generator (args c') = None →
  steady c {| args := {| port := port (args c'); baud := baud (args c');
                         project_dir := project_dir (args c');
                         build_dir := build_dir (args c');
                         generator := Some g |};
              host := host c' |}.
Proof.
  intros Hst Hnone. split; simpl; try apply Hst.
  intros g' Hg'. apply (steady_generator _ _ Hst) in Hg'. congruence.
Qed.

(** What [_ensure_build_directory] ensures, whatever the system does. *)
Lemma ensure_build_directory_ensures c :
  ensures Sys._ensure_build_directory c (λ r c',
    steady c c' ∧
    (r = Normal tt → is_Some (generator (args c'))) ∧
    (∀ e, r = Raised e →
       plain e ∨ (build_dir (args c) = None ∧ e = TypeError "NoneType"))).
Proof.
  unfold Sys._ensure_build_directory, Sys.isdir, Sys.exists_.
  apply ensures_bind, ensures_gets, ensures_bind, ensures_gets.
  apply ensures_bind.
  destruct (negb _).
  { apply ensures_bind, ensures_gets.
    destruct (negb _); apply ensures_raise; (split; [done|split; [done|]]);
      intros e [= <-]; by left. }
  apply ensures_ret.
  apply ensures_bind, ensures_gets. apply ensures_bind.
  destruct (negb _).
  { apply ensures_raise. split; [done|]. split; [done|]. intros e [= <-]. by left. }
  apply ensures_ret.
  destruct (build_dir (args c)) as [build|] eqn:Hbuild; cycle 1.
  { apply ensures_raise. split; [done|]. split; [done|]. intros e [= <-]. by right. }
  apply ensures_bind, ensures_gets.
  (* the build directory is made *)
  eapply (ensures_seq _ _ _ (λ r c1, (args c1 = args c ∧
            os_environ (host c1) = os_environ (host c)) ∧ ∀ e, r = Raised e → plain e)).
  { destruct (negb _); [|by apply ensures_ret].
    eapply ensures_weaken; [apply in_process_ensures, try_call_ensures|].
    by intros r c1 (? & ? & ?). }
  { intros e c1 [[Ha He] Hpl]. split; [by apply steady_args|]. split; [done|].
    intros ? [= <-]. left. by apply Hpl. }
  intros [] c1 [[Ha1 He1] _].
  apply ensures_bind, ensures_gets.
  (* cmake is run where there is no cache *)
  eapply (ensures_seq _ _ _ (λ r c2, steady c c2 ∧ ∀ e, r = Raised e → plain e)).
  { destruct (negb _); [|apply ensures_ret; split; [by apply steady_args|done]].
    eapply (ensures_seq _ _ _ (λ r c2, steady c c2 ∧
              (r = Normal tt → is_Some (generator (args c2))) ∧
              ∀ e, r = Raised e → plain e)).
    { destruct (generator (args c)) as [g|] eqn:Hgen.
      - apply ensures_ret. split; [by apply steady_args|]. split; [|done].
        rewrite Ha1, Hgen. eauto.
      - eapply ensures_seq; [apply in_process_ensures, detect_from_ensures|..].
        + intros e c2 (Ha2 & He2 & ->). split; [|split; [done|by intros ? [= <-]]].
          apply steady_args; congruence.
        + intros g c2 (Ha2 & He2 & _). apply ensures_modify.
          split; [|split; [simpl; eauto|done]].
          apply steady_generator_set; [apply steady_args; congruence|congruence]. }
    { intros e c2 (? & _ & ?). done. }
    intros [] c2 (Hst2 & [g Hg] & _); [done|]. 
    apply ensures_try_except, ensures_bind, ensures_gets. rewrite Hg.
    rewrite (steady_build_dir _ _ Hst2), Hbuild.
    eapply ensures_weaken; [apply run_tool_ensures|].
    intros [[]|e] c3 (Ha3 & He3 & Hpl); simpl.
    { split; [|done]. etrans; [done|by apply steady_args]. }
    apply ensures_bind, ensures_gets.
    eapply (ensures_seq _ _ _ (λ r c4, (args c4 = args c3 ∧
              os_environ (host c4) = os_environ (host c3)) ∧ ∀ e, r = Raised e → plain e)).
    { destruct (os_path_exists _ _); [|by apply ensures_ret].
      eapply ensures_weaken; [apply in_process_ensures, try_call_ensures|].
      by intros r c4 (? & ? & ?). }
    { intros e' c4 [[Ha4 He4] Hpl4]. split; [|by intros ? [= <-]; apply Hpl4].
      etrans; [done|]. apply steady_args; congruence. }
    intros [] c4 [[Ha4 He4] _]. apply ensures_raise. split; [|by intros ? [= <-]; apply Hpl].
    etrans; [done|]. apply steady_args; congruence. }
  { intros e c2 [Hst2 Hpl]. split; [done|]. split; [done|]. intros ? [= <-]. left. by apply Hpl. }
  intros [] c2 [Hst2 _].
  (* the cache is read *)
  eapply ensures_seq; [apply in_process_ensures, parse_cmakecache_ensures|..].
  { intros e c3 (Ha3 & Hp3 & name & ->). split; [|split; [done|by intros ? [= <-]; left]].
    etrans; [done|]. apply steady_args; [done|]. by rewrite Hp3. }
  intros cache c3 (Ha3 & Hp3 & _).
  assert (steady c c3) as Hst3.
  { etrans; [done|]. apply steady_args; [done|]. by rewrite Hp3. }
  clear dependent c1 c2.
  eapply (ensures_seq _ _ _ (λ r c4, (args c4 = args c3 ∧
            os_environ (host c4) = os_environ (host c3)) ∧ ∀ e, r = Raised e → plain e)).
  { destruct (cache !! "CMAKE_GENERATOR") as [g|]; [by apply ensures_ret|].
    eapply ensures_weaken; [apply in_process_ensures, detect_from_ensures|].
    intros r c4 (? & ? & Hr). split; [done|]. by intros e ->; subst. }
  { intros e c4 [[Ha4 He4] Hpl]. split; [|split; [done|by intros ? [= <-]; left; apply Hpl]].
    etrans; [done|]. by apply steady_args. }
  intros configured c4 [[Ha4 He4] _].
  assert (steady c c4) as Hst4.
  { etrans; [done|]. by apply steady_args. }
  clear dependent c3.
  apply ensures_bind, ensures_gets.
  eapply (ensures_seq _ _ _ (λ r c5, r = Normal tt ∧ steady c c5 ∧
            generator (args c5) = Some (default configured (generator (args c4))))).
  { destruct (generator (args c4)) as [g|] eqn:Hgen.
    - by apply ensures_ret.
    - apply ensures_modify. split; [done|]. split; [|done].
      by apply steady_generator_set. }
  { by intros e c5 [? _]. }
  intros [] c5 (_ & Hst5 & Hgen5).
  apply ensures_bind.
  case_bool_decide.
  { apply ensures_raise. split; [done|]. split; [done|]. intros ? [= <-]. by left. }
  apply ensures_ret.
  destruct (cache !! "CMAKE_HOME_DIRECTORY") as [home_dir|]; cycle 1.
  { apply ensures_ret. split; [done|]. split; [eauto|done]. }
  apply ensures_bind, ensures_gets, ensures_bind, ensures_gets.
  case_bool_decide.
  - apply ensures_raise. split; [done|]. split; [done|]. intros ? [= <-]. by left.
  - apply ensures_ret. split; [done|]. split; [eauto|done].
Qed.

Lemma listdir_ensures path c :
  ensures (Sys.listdir path) c (λ r c',
    c' = c ∧ match r with
             | Normal names => os_listdir path (world (host c)) = inr names
             | Raised e => plain e ∧ ∃ name, os_listdir path (world (host c)) = inl name
             end).
Proof.
  unfold Sys.listdir. apply ensures_bind, ensures_gets.
  destruct (os_listdir _ _) as [name|names].
  - apply ensures_raise. split; [done|]. split; [done|]. eauto.
  - by apply ensures_ret.
Qed.

Lemma do_print_ensures line c :
  ensures (@do_print _ library line) c (λ r c',
    r = Normal tt ∧ args c' = args c ∧ os_environ (host c') = os_environ (host c) ∧
    world (host c') = sys_print line (world (host c))).
Proof. by intros r c' [= <- <-]. Qed.

Ltac close_post :=
  repeat split;
  first [ done
        | by intros ? [= <-]; left
        | by intros ? [= <-]; right
        | by intros ? [=]
        | by intros ? ? [=]
        | by intros ? [= <-] _; left
        | by intros ? _ _; left
        | by intros ? [= <-] _; right; eauto
        | idtac ].

(** What [fullclean] ensures, whatever the system does. *)
Lemma fullclean_ensures action c :
  ensures (Sys.fullclean action) c (λ r c',
    args c' = args c ∧ os_environ (host c') = os_environ (host c) ∧
    (∀ e, r = Raised e →
       plain e ∨ (build_dir (args c) = None ∧ e = TypeError "NoneType")) ∧
    (∀ msg, r = Raised (FatalError msg) → c' = c) ∧
    (∀ build, build_dir (args c) = Some build →
       deletable build (world (host c)) = false →
       (r ≠ Normal tt ∧ c' = c) ∨
       (r = Normal tt ∧ ∃ line, world (host c') = sys_print line (world (host c))))).
Proof.
  unfold Sys.fullclean, Sys.isdir, Sys.exists_.
  apply ensures_bind, ensures_gets.
  destruct (build_dir (args c)) as [build|] eqn:Hbuild; cycle 1.
  { apply ensures_raise. close_post. }
  apply ensures_bind, ensures_gets.
  destruct (os_path_isdir build (world (host c))) eqn:Hdir; simpl; cycle 1.
  { eapply ensures_weaken; [apply do_print_ensures|].
    intros r c' (-> & Ha & He & Hw). close_post. }
  eapply ensures_seq; [apply listdir_ensures|..].
  { intros e c1 (-> & Hpl & name & Hls). close_post. }
  intros names c1 [-> Hls].
  case_bool_decide as Hempty; simpl.
  { eapply ensures_weaken; [apply do_print_ensures|].
    intros r c' (-> & Ha & He & Hw). close_post. }
  apply ensures_bind, ensures_gets.
  destruct (os_path_exists (os_path_join build "CMakeCache.txt") _) eqn:Hcache; simpl; cycle 1.
  { apply ensures_raise. close_post. }
  (* the red flags *)
  eapply (ensures_seq _ _ _ (λ r c1, c1 = c ∧
            match r with
            | Normal _ => forallb (λ red, negb (os_path_exists (os_path_join build red)
                                                  (world (host c)))) Sys.red_flags = true
            | Raised e => (∃ msg, e = FatalError msg) ∧
                forallb (λ red, negb (os_path_exists (os_path_join build red)
                                        (world (host c)))) Sys.red_flags = false
            end)).
  { intros r c1. simpl. run.
    destruct (os_path_exists (os_path_join build "CMakeLists.txt") _); run;
      [intros [= <- <-]; eauto|].
    destruct (os_path_exists (os_path_join build ".git") _); run;
      [intros [= <- <-]; eauto|].
    destruct (os_path_exists (os_path_join build ".svn") _); run;
      intros [= <- <-]; eauto. }
  { intros e c1 (-> & [msg ->] & Hred). close_post. }
  intros [] ? [-> Hred].
  (* everything in the build directory is deleted *)
  eapply ensures_seq; [apply listdir_ensures|..].
  { intros e c1 (-> & Hpl & _). close_post. }
  intros names' c1 [-> _].
  eapply ensures_weaken.
  { apply (ensures_for_each _ _
             (λ c1, args c1 = args c ∧ os_environ (host c1) = os_environ (host c))
             (λ r c1, (args c1 = args c ∧ os_environ (host c1) = os_environ (host c)) ∧
                      ∀ e, r = Raised e → plain e ∧ ∀ msg, e ≠ FatalError msg));
      [|done|done].
    intros f c1 _ [Ha1 He1]. apply ensures_bind, ensures_gets.
    assert (∀ g, ensures (Sys.in_process (Sys.try_call g)) c1
      (λ (r : outcome unit) st1,
         (args st1 = args c ∧ os_environ (host st1) = os_environ (host c)) ∧
         ∀ e0, r = Raised e0 → plain e0 ∧ ∀ msg, e0 ≠ FatalError msg)) as Hstep.
    { intros g r c2. unfold Sys.in_process, Sys.try_call, Sys.os_call. run.
      destruct (g (world (host c1))) as [[name|] w]; run; intros [= <- <-]; simpl;
        rewrite <- Ha1, <- He1; [|done].
      split; [done|]. by intros ? [= <-]. }
    destruct (os_path_isdir (os_path_join build f) _);
      (eapply ensures_weaken; [apply Hstep|]);
      intros [[]|e] st1 [? ?]; done. }
  intros r c1 ([Ha1 He1] & Hpl). close_post.
  - intros e ->. left. by apply (Hpl e).
  - intros msg ->. destruct (Hpl _ eq_refl) as [_ Hne]. by destruct (Hne msg).
  - intros ? [= <-]. unfold deletable. rewrite Hdir, Hls, Hcache, Hred. simpl.
    by rewrite bool_decide_false.
Qed.

Lemma subscript_ensures {S} value key (st : S) :
  ensures (Sys.subscript value key) st (λ r st',
    st' = st ∧ ∀ e, r = Raised e → e = KeyError key ∨ e = TypeError "subscript").
Proof.
  unfold Sys.subscript.
  destruct value; try (apply ensures_raise; split; [done|]; intros e [= <-]; by right).
  destruct (Sys.member _ _).
  - by apply ensures_ret.
  - apply ensures_raise. split; [done|]. intros e [= <-]. by left.
Qed.

(** What [monitor] ensures, whatever the system does and whatever the
    description holds. *)
Lemma monitor_ensures action c :
  ensures (Sys.monitor action) c (λ r c',
    steady c c' ∧
    ∀ e, r = Raised e →
      plain e ∨ description_error e ∨
      (os_environ (host c) !! "IDF_PATH" = None ∧ e = KeyError "IDF_PATH")).
Proof.
  unfold Sys.monitor, Sys.exists_.
  apply ensures_bind, ensures_gets.
  destruct (build_dir (args c)) as [build|] eqn:Hbuild; cycle 1.
  { apply ensures_raise. split; [done|]. intros e [= <-]. right. left.
    unfold description_error. eauto 10. }
  apply ensures_bind, ensures_gets.
  eapply (ensures_seq _ _ _ (λ r c1, steady c c1 ∧ ∀ e, r = Raised e → plain e)).
  { destruct (negb _); [|by apply ensures_ret].
    eapply ensures_weaken; [apply ensure_build_directory_ensures|].
    intros r c1 (Hst & _ & Hpl). split; [done|].
    intros e He. destruct (Hpl e He) as [?|[? _]]; [done|congruence]. }
  { intros e c1 [Hst Hpl]. split; [done|]. intros ? [= <-]. left. by apply Hpl. }
  intros [] c1 [Hst _].
  apply ensures_bind, ensures_gets.
  destruct (json_load _ _) as [name|project_desc].
  { apply ensures_raise. split; [done|]. intros e [= <-]. by left. }
  apply ensures_bind, ensures_gets.
  eapply ensures_seq; [apply subscript_ensures|..].
  { intros e c2 [-> He]. split; [done|]. intros ? [= <-]. right. left.
    unfold description_error. destruct (He e eq_refl) as [->| ->]; auto. }
  intros app_elf c2 [-> _].
  destruct (build_dir (args c1)) as [build1|]; cycle 1.
  { apply ensures_raise. split; [done|]. intros e [= <-]. right. left.
    unfold description_error. eauto 10. }
  destruct app_elf as [|b|text|app_elf|items|members];
    try (apply ensures_raise; split; [done|]; intros e [= <-]; right; left;
         unfold description_error; eauto 10).
  apply ensures_bind, ensures_gets.
  destruct (negb _).
  { apply ensures_raise. split; [done|]. intros e [= <-]. by left. }
  apply ensures_bind, ensures_gets.
  rewrite (steady_environ _ _ Hst).
  destruct (os_environ (host c) !! "IDF_PATH") as [idf_path|] eqn:Hidf; cycle 1.
  { apply ensures_raise. split; [done|]. intros e [= <-]. by right; right. }
  apply ensures_bind, ensures_gets.
  eapply ensures_seq; [apply subscript_ensures|..].
  { intros e c2 [-> He]. split; [done|]. intros ? [= <-]. right. left.
    unfold description_error. destruct (He e eq_refl) as [->| ->]; auto. }
  intros monitor_baud c2 [-> _].
  destruct monitor_baud as [|b|text|monitor_baud|items|members];
    try (apply ensures_raise; split; [done|]; intros e [= <-]; right; left;
         do 4 right;
         first [by exists JNull|by exists (JBool b)|by exists (JNumber text)
               |by exists (JArray items)|by exists (JObject members)]).
  rewrite (steady_build_dir _ _ Hst), Hbuild.
  eapply ensures_weaken; [apply run_tool_ensures|].
  intros r c2 (Ha & He & Hpl). split.
  - etrans; [done|]. by apply steady_args.
  - intros e ->. left. by apply (Hpl e).
Qed.

(** [monitor] over a description as the build writes it, with the binary
    in place: the call of [_run_tool] that it ends with. *)
Lemma monitor_described action c build members app_elf monitor_baud idf_path :
  let w := world (host c) in
  let desc_path := os_path_join build "project_description.json" in
  let elf_file := os_path_join build app_elf in
  build_dir (args c) = Some build →
  os_path_exists desc_path w = true →
  json_load desc_path w = inr (JObject members) →
  Sys.member members "app_elf" = Some (JString app_elf) →
  Sys.member members "monitor_baud" = Some (JString monitor_baud) →
  os_path_exists elf_file w = true →
  os_environ (host c) !! "IDF_PATH" = Some idf_path →
  Sys.monitor action c =
  @_run_tool _ library "idf_monitor"
    (match port (args c) with
     | Some p => [sys_executable; os_path_join idf_path "tools/idf_monitor.py"] ++ ["-p"; p]
     | None => [sys_executable; os_path_join idf_path "tools/idf_monitor.py"]
     end ++ ["-b"; monitor_baud] ++ [elf_file])
    (Some build) c.
Proof.
  intros w desc_path elf_file. subst w desc_path elf_file.
  intros Hbuild Hdesc Hload Helf Hbaud Hexists Hidf.
  unfold Sys.monitor, Sys.exists_, Sys.subscript. run.
  rewrite Hbuild. run. rewrite Hdesc. run. rewrite Hload. run.
  rewrite Helf. run. rewrite Hbuild. run. rewrite Hexists. run.
  rewrite Hidf. run. rewrite Hbaud. run. by rewrite Hbuild.
Qed.

Lemma steady_ready c c' : steady c c' → ready c → ready c'.
Proof. intros [] [? ?]. split; congruence. Qed.

Lemma exn_of_plain e : plain e → exn_of (failure_of e) = e.
Proof. by destruct e. Qed.

Lemma exn_of_failure_of f : exn_of (failure_of (exn_of f)) = exn_of f.
Proof. by destruct f. Qed.

Lemma exn_of_description_error e : description_error e → exn_of (failure_of e) = e.
Proof.
  intros [->|[->|[->|[[value ->]|[value ->]]]]]; try done.
  - apply exn_of_failure_of.
  - destruct value; try done; simpl; by destruct (existsb _ _).
Qed.

(** What the functions of the script behind the interface of [Host] raise
    comes through the interface as it is. *)
Lemma system_operations_transfer action c e c' :
  Sys._ensure_build_directory c = (Raised e, c') ∨
  Sys.monitor action c = (Raised e, c') ∨
  Sys.fullclean action c = (Raised e, c') →
  exn_of (failure_of e) = e.
Proof.
  intros [Hrun|[Hrun|Hrun]].
  - destruct (ensure_build_directory_ensures _ _ _ Hrun) as (_ & _ & Hpl).
    destruct (Hpl e eq_refl) as [?|[_ ->]]; [by apply exn_of_plain|done].
  - destruct (monitor_ensures _ _ _ _ Hrun) as [_ Hpl].
    destruct (Hpl e eq_refl) as [?|[?|[_ ->]]];
      [by apply exn_of_plain|by apply exn_of_description_error|done].
  - destruct (fullclean_ensures _ _ _ _ Hrun) as (_ & _ & Hpl & _).
    destruct (Hpl e eq_refl) as [?|[_ ->]]; [by apply exn_of_plain|done].
Qed.
End System_facts.

(** ** Properties of the functions on a system *)

Section System_functions.
Context {W : Type} {system : System W}.

Implicit Types (p : process W) (c : ctx (process W)).

(** X10. [check_environment] fails only for want of cmake, and then leaves
    the environment alone; when it returns, [IDF_PATH] is in the
    environment.  It never changes a variable that is set: an [IDF_PATH]
    given by the user is kept, whatever the script's own directory. *)
Theorem check_environment_idf_path p r p' :
  Sys.check_environment p = (r, p') →
  (∀ k v, os_environ p !! k = Some v → os_environ p' !! k = Some v) ∧
  (∀ k, k ≠ "IDF_PATH" → os_environ p' !! k = os_environ p !! k) ∧
  match r with
  | Normal _ => is_Some (os_environ p' !! "IDF_PATH")
  | Raised e =>
      e = FatalError "'cmake' must be available on the PATH to use idf.py" ∧
      os_environ p' = os_environ p
  end.
Proof.
  intros (Hother & Hidf & Hr)%check_environment_ensures. split; [|done].
  intros k v Hk. destruct (decide (k = "IDF_PATH")) as [->|Hne]; [auto|].
  by rewrite Hother.
Qed.

(** X11. [detect_cmake_generator] leaves the environment alone.  What it
    returns is a key of [GENERATOR_CMDS]: Ninja if and only if
    [ninja --version] could be run, and otherwise the make generator of
    the platform, with [make --version] run.  It raises [FatalError] when
    neither version check could be run. *)
Theorem detect_cmake_generator_known p r p' :
  Sys.detect_cmake_generator p = (r, p') →
  let ninja := subprocess_check_output ["ninja"; "--version"] (os_environ p) (world p) in
  let make := subprocess_check_output ["make"; "--version"] (os_environ p) ninja.2 in
  os_environ p' = os_environ p ∧
  match r with
  | Normal g =>
      is_Some (@GENERATOR_CMDS _ system_host !! g) ∧
      (g = "Ninja" ↔ ninja.1 = Completed) ∧
      (g ≠ "Ninja" → g = MAKE_GENERATOR sys_platform ∧ make.1 = Completed)
  | Raised e =>
      ninja.1 ≠ Completed ∧ make.1 ≠ Completed ∧
      e = FatalError "To use idf.py, either the 'ninja' or 'GNU make' build tool must be available in the PATH"
  end.
Proof.
  unfold Sys.detect_cmake_generator, GENERATORS. simpl.
  unfold Sys.executable_exists, Sys.os_call. run.
  destruct (subprocess_check_output ["ninja"; "--version"] _ _) as [ninja w1]. run.
  assert (is_Some (@GENERATOR_CMDS _ system_host !! "Ninja")) as Hninja.
  { unfold GENERATOR_CMDS, GENERATORS. simpl.
    destruct (decide (MAKE_GENERATOR sys_platform = "Ninja")) as [->|?].
    - rewrite lookup_insert_eq. eauto.
    - rewrite lookup_insert_ne, lookup_insert_eq by done. eauto. }
  assert (is_Some (@GENERATOR_CMDS _ system_host !! MAKE_GENERATOR sys_platform)) as Hmake.
  { unfold GENERATOR_CMDS, GENERATORS. simpl. rewrite lookup_insert_eq. eauto. }
  assert (MAKE_GENERATOR sys_platform ≠ "Ninja") as Hne by by destruct sys_platform.
  destruct ninja; run.
  - intros [= <- <-]. done.
  - destruct (subprocess_check_output ["make"; "--version"] _ _) as [[] w2]; run;
      intros [= <- <-]; (split; [done|]); try done; by repeat split.
  - destruct (subprocess_check_output ["make"; "--version"] _ _) as [[] w2]; run;
      intros [= <- <-]; (split; [done|]); try done; by repeat split.
Qed.

(** X12. [_ensure_build_directory] changes nothing of [args] but a generator
    that was not given, and nothing of the environment; when it returns,
    [args.generator] is set; and with [args.build_dir] set it raises
    nothing but [FatalError] and the exceptions of the system. *)
Theorem ensure_build_directory_args c r c' :
  Sys._ensure_build_directory c = (r, c') →
  steady c c' ∧
  (r = Normal tt → is_Some (generator (args c'))) ∧
  (is_Some (build_dir (args c)) → ∀ e, r = Raised e → plain e).
Proof.
  intros (Hst & Hgen & Hpl)%ensure_build_directory_ensures.
  split; [done|]. split; [done|]. intros [build Hbuild] e ->.
  destruct (Hpl e eq_refl) as [?|[? _]]; [done|congruence].
Qed.

(** X14. [monitor] changes nothing of [args] but a generator that was not
    given, and nothing of the environment.  Over a description that is a
    [dict] with strings for [app_elf] and [monitor_baud], with the
    description and the binary in place and [IDF_PATH] in the
    environment, it is the call of [_run_tool] for [idf_monitor] with
    the interpreter, [idf_monitor.py], [-p] and the port if one is
    given, [-b] and the baud rate of the description, and the binary,
    in the build directory.  What it raises is a
    [FatalError] or an exception of the system ([json.load] and
    [open] among its operations); or, over a description that is not as
    the build writes it, the [KeyError] of a missing [app_elf] or
    [monitor_baud], the [TypeError] of a description that is not a
    [dict], what [os.path.join] raises for an [app_elf] (or an
    [args.build_dir]) that is not a string, or what [_run_tool] raises
    for a [monitor_baud] that is not a string; or the [KeyError] of
    [os.environ["IDF_PATH"]], when the environment has no [IDF_PATH]. *)
Theorem monitor_args action c r c' :
  Sys.monitor action c = (r, c') →
  steady c c' ∧
  (∀ e, r = Raised e →
     plain e ∨ description_error e ∨
     (os_environ (host c) !! "IDF_PATH" = None ∧ e = KeyError "IDF_PATH")) ∧
  (∀ build members app_elf monitor_baud idf_path,
     build_dir (args c) = Some build →
     os_path_exists (os_path_join build "project_description.json") (world (host c))
       = true →
     json_load (os_path_join build "project_description.json") (world (host c))
       = inr (JObject members) →
     Sys.member members "app_elf" = Some (JString app_elf) →
     Sys.member members "monitor_baud" = Some (JString monitor_baud) →
     os_path_exists (os_path_join build app_elf) (world (host c)) = true →
     os_environ (host c) !! "IDF_PATH" = Some idf_path →
     (r, c') =
     @_run_tool _ library "idf_monitor"
       (match port (args c) with
        | Some p => [sys_executable; os_path_join idf_path "tools/idf_monitor.py"]
                    ++ ["-p"; p]
        | None => [sys_executable; os_path_join idf_path "tools/idf_monitor.py"]
        end ++ ["-b"; monitor_baud] ++ [os_path_join build app_elf])
       (Some build) c).
Proof.
  intros Hrun. pose proof Hrun as [Hst Hpl]%monitor_ensures.
  split; [done|]. split; [done|].
  intros build members app_elf monitor_baud idf_path Hbuild Hdesc Hload Helf Hbaud
    Hexists Hidf.
  rewrite <- Hrun. by eapply monitor_described.
Qed.

(** X15. [fullclean] never changes [args] or the environment.  When it
    refuses with a [FatalError], nothing has happened.  And for a build
    directory that is missing or empty, lacks [CMakeCache.txt], or holds
    [CMakeLists.txt], [.git] or [.svn], it deletes nothing: it fails with
    the world as it was, or returns after printing one line. *)
Theorem fullclean_safe action c r c' build :
  Sys.fullclean action c = (r, c') →
  build_dir (args c) = Some build →
  args c' = args c ∧ os_environ (host c') = os_environ (host c) ∧
  (∀ msg, r = Raised (FatalError msg) → c' = c) ∧
  (deletable build (world (host c)) = false →
   (r ≠ Normal tt ∧ c' = c) ∨
   (r = Normal tt ∧ ∃ line, world (host c') = sys_print line (world (host c)))).
Proof.
  intros (Ha & He & _ & Hfatal & Hsafe)%fullclean_ensures Hbuild.
  split; [done|]. split; [done|]. split; [done|]. by apply Hsafe.
Qed.

(** X13. Suppose that [args.project_dir] is a directory and holds a
    [CMakeLists.txt], that [args.build_dir] is set and is a directory,
    and that its [CMakeCache.txt] exists, can be read, and has a line
    that sets [CMAKE_GENERATOR].  Then [_ensure_build_directory] runs
    nothing and leaves the world and the environment as they are.  It
    returns if and only if the generator given with [-G], if any, is the
    one of the cache, and the [CMAKE_HOME_DIRECTORY] of the cache, if it
    has one, is the project directory (both through [os.path.realpath]);
    then [args.generator] is the generator of the cache.  Otherwise it
    raises [FatalError]. *)
Theorem ensure_build_directory_configured c build text configured :
  let w := world (host c) in
  let project := project_dir (args c) in
  let cache := parse_cmakecache_lines (file_lines text) in
  os_path_isdir project w = true →
  os_path_exists (os_path_join project "CMakeLists.txt") w = true →
  build_dir (args c) = Some build →
  os_path_isdir build w = true →
  os_path_exists (os_path_join build "CMakeCache.txt") w = true →
  read_text (os_path_join build "CMakeCache.txt") w = inr text →
  cache !! "CMAKE_GENERATOR" = Some configured →
  ∃ r c', Sys._ensure_build_directory c = (r, c') ∧
    host c' = host c ∧
    (r = Normal tt ↔
       (generator (args c) = None ∨ generator (args c) = Some configured) ∧
       ∀ home_dir, cache !! "CMAKE_HOME_DIRECTORY" = Some home_dir →
                   os_path_realpath home_dir w = os_path_realpath project w) ∧
    (r = Normal tt → generator (args c') = Some configured) ∧
    (∀ e, r = Raised e → ∃ msg, e = FatalError msg).
Proof.
  intros w project cache. subst w project cache.
  intros Hproject Hlists Hbuild Hdir Hcache Htext Hgen.
  unfold Sys._ensure_build_directory, Sys.isdir, Sys.exists_, Sys.in_process,
    Sys.parse_cmakecache, Sys.set_generator.
  run. rewrite Hproject. run. rewrite Hlists. run. rewrite Hbuild. run.
  rewrite Hdir. run. rewrite Hcache. run. rewrite Htext. run.
  rewrite Hgen. run.
  assert (∀ (c1 : ctx (process W)) given,
            host c1 = host c → project_dir (args c1) = project_dir (args c) →
            generator (args c1) = Some configured →
            (given = None ∨ given = Some configured) →
            ∃ r c',
              match parse_cmakecache_lines (file_lines text) !! "CMAKE_HOME_DIRECTORY" with
              | Some home_dir =>
                  home ← gets (λ c, os_path_realpath home_dir (world (host c)));
                  here ← gets (λ c, os_path_realpath (project_dir (args c1)) (world (host c)));
                  if bool_decide (home ≠ here)
                  then raise (FatalError ("Build directory '" +:+ build
                                          +:+ "' configured for project '" +:+ home
                                          +:+ "' not '" +:+ here
                                          +:+ "'. Run 'idf.py fullclean' to start again."))
                  else mret tt
              | None => mret tt
              end c1 = (r, c') ∧
              host c' = host c ∧
              (r = Normal tt ↔
                 (given = None ∨ given = Some configured) ∧
                 ∀ home_dir,
                   parse_cmakecache_lines (file_lines text) !! "CMAKE_HOME_DIRECTORY"
                     = Some home_dir →
                   os_path_realpath home_dir (world (host c))
                     = os_path_realpath (project_dir (args c)) (world (host c))) ∧
              (r = Normal tt → generator (args c') = Some configured) ∧
              (∀ e, r = Raised e → ∃ msg, e = FatalError msg)) as Hhome.
  { intros c1 given Hhost Hproj Hgen1 Hgiven.
    destruct (parse_cmakecache_lines (file_lines text) !! "CMAKE_HOME_DIRECTORY")
      as [home_dir|]; run; rewrite ?Hhost, ?Hproj.
    - case_bool_decide as Hne; run; eexists _, _; (split; [done|]); (split; [done|]).
      + split; [|split; [done|intros e [= <-]; eauto]].
        split; [done|]. intros [_ Heq]. destruct Hne. by apply Heq.
      + split; [|split; [done|done]].
        split; [|done]. intros _. split; [done|]. intros ? [= <-].
        by destruct (decide (os_path_realpath home_dir (world (host c))
                             = os_path_realpath (project_dir (args c)) (world (host c)))).
    - eexists _, _. split; [done|]. split; [done|]. split; [|split; [done|done]].
      split; [|done]. intros _. split; [done|]. done. }
  destruct (generator (args c)) as [given|] eqn:Hgiven; run.
  - case_bool_decide as Hne; run.
    + eexists _, _. split; [done|]. split; [done|]. split; [|split; [done|]].
      * split; [done|]. intros [[?|[= ->]] _]; done.
      * intros e [= <-]. eauto.
    + subst given.
      destruct (Hhome {| args := args c; host := host c |} (Some configured))
        as (r & c' & Hrun & ?); [done..|auto|]. simpl in Hrun.
      exists r, c'. split; [|done]. exact Hrun.
  - rewrite bool_decide_false by (intros ?; done). run.
    match goal with |- context [_ ?c1 = _] =>
      destruct (Hhome c1 None) as (r & c' & Hrun & ?); [done..|auto|] end.
    simpl in Hrun. exists r, c'. split; [|done]. exact Hrun.
Qed.
End System_functions.

(** ** The handlers on a system *)

Section System_handlers.
Context {W : Type} {system : System W}.
Local Existing Instance system_host.

Implicit Types (p : process W) (c : ctx (process W)).

Lemma host_call_as_operation (m : prog (ctx (process W)) unit) c :
  host_call (as_operation m) c =
  let '(r, c') := m c in
  (match r with Normal _ => Normal tt | Raised e => Raised (exn_of (failure_of e)) end, c').
Proof.
  destruct c as [a p]. unfold host_call, as_operation. simpl.
  by destruct (m _) as [[[]|e] [a' p']].
Qed.

Lemma host_call_ensures (m : prog (ctx (process W)) unit) c (R : outcome unit → ctx (process W) → Prop) :
  ensures m c R →
  ensures (host_call (as_operation m)) c (λ r c',
    match r with
    | Normal _ => R (Normal tt) c'
    | Raised e' => ∃ e, R (Raised e) c' ∧ e' = exn_of (failure_of e)
    end).
Proof.
  intros Hm r c'. rewrite host_call_as_operation.
  destruct (m c) as [[[]|e] c1] eqn:Hrun; intros [= <- <-].
  - by apply (Hm _ _ Hrun).
  - exists e. split; [by apply (Hm _ _ Hrun)|done].
Qed.

Lemma system_run_tool_ensures tool_name tool_args cwd c :
  ensures (_run_tool tool_name tool_args (Some cwd)) c (λ r c',
    args c' = args c ∧ os_environ (host c') = os_environ (host c) ∧
    ∀ e, r = Raised e → plain e).
Proof. exact (run_tool_ensures tool_name tool_args cwd c). Qed.

Lemma build_target_ensures target_name c :
  ready c →
  ensures (build_target target_name) c (λ r c',
    steady c c' ∧ ∀ e, r = Raised e → handler_failure e).
Proof.
  intros [[build Hbuild] Hidf]. unfold build_target.
  eapply ensures_seq.
  { apply (host_call_ensures Sys._ensure_build_directory), ensure_build_directory_ensures. }
  { intros e' c1 (e & (Hst & _ & Hpl) & ->). split; [done|]. intros ? [= <-]. left.
    destruct (Hpl e eq_refl) as [?|[? _]]; [|congruence]. by rewrite exn_of_plain. }
  intros [] c1 (Hst & [g Hg] & _); [done|].
  apply ensures_bind, ensures_gets. rewrite Hg.
  destruct (GENERATOR_CMDS !! g) as [cmd|] eqn:Hcmd; cycle 1.
  { apply ensures_raise. split; [done|]. intros e [= <-]. right. left. eauto. }
  apply GENERATOR_CMDS_lookup in Hcmd as [[_ ->]|[_ ->]];
    rewrite (steady_build_dir _ _ Hst), Hbuild;
    (eapply ensures_weaken; [apply system_run_tool_ensures|]);
    intros r c2 (Ha & He & Hpl);
    (split; [etrans; [done|by apply steady_args]|]);
    intros e ->; left; by apply (Hpl e).
Qed.

Lemma get_esptool_args_ensures c :
  ready c →
  ensures _get_esptool_args c (λ r c', c' = c ∧ ∃ esptool_args, r = Normal esptool_args).
Proof.
  intros [_ [idf_path Hidf]]. unfold _get_esptool_args.
  apply ensures_bind, ensures_gets. simpl. rewrite Hidf.
  apply ensures_bind, ensures_gets, ensures_ret. eauto.
Qed.

Lemma call_ensures f a c :
  (f = fn_flash → is_Some (flasher_args_path !! a)) →
  ready c →
  ensures (call f a) c (λ r c',
    steady c c' ∧ ∀ e, r = Raised e → handler_failure e).
Proof.
  intros Hflash Hready.
  assert (∀ tail, ensures (esptool_args ← _get_esptool_args;
                           a ← gets args;
                           _run_tool "esptool.py" (esptool_args ++ tail) (build_dir a)) c
            (λ r c', steady c c' ∧ ∀ e, r = Raised e → handler_failure e)) as Hesptool.
  { intros tail. eapply ensures_seq; [by apply get_esptool_args_ensures|..].
    { by intros e c1 [_ [? ?]]. }
    intros esptool_args c1 [-> _]. apply ensures_bind, ensures_gets.
    destruct Hready as [[build ->] _].
    eapply ensures_weaken; [apply system_run_tool_ensures|].
    intros r c2 (Ha & He & Hpl). split; [by apply steady_args|].
    intros e ->. left. by apply (Hpl e). }
  destruct f; simpl.
  - by apply build_target_ensures.
  - unfold flash. destruct Hflash as [path ->]; [done|]. apply Hesptool.
  - apply Hesptool.
  - eapply ensures_weaken.
    { apply (host_call_ensures (Sys.monitor a)), monitor_ensures. }
    intros [[]|e'] c1; [by intros [? _]|].
    intros (e & [Hst Hpl] & ->). split; [done|]. intros ? [= <-].
    destruct (Hpl e eq_refl) as [?|[?|[Hnone _]]].
    + left. by rewrite exn_of_plain.
    + right. right. by rewrite exn_of_description_error.
    + destruct Hready as [_ [? ?]]. congruence.
  - unfold clean. apply ensures_bind, ensures_gets.
    destruct Hready as [[build Hbuild] Hidf]. rewrite Hbuild.
    apply ensures_bind, ensures_gets.
    destruct (negb _).
    + intros r c1 [= <- <-]. split; [|done]. by apply steady_args.
    + apply build_target_ensures. split; [eauto|done].
  - eapply ensures_weaken.
    { apply (host_call_ensures (Sys.fullclean a)), fullclean_ensures. }
    intros [[]|e'] c1.
    + intros (Ha & He & _). split; [by apply steady_args|done].
    + intros (e & (Ha & He & Hpl & _) & ->). split; [by apply steady_args|].
      intros ? [= <-]. left.
      destruct (Hpl e eq_refl) as [?|[Hnone _]]; [by rewrite exn_of_plain|].
      destruct Hready as [[? ?] _]. congruence.
Qed.
End System_handlers.

(** ** Runs on a system *)

Lemma ACTIONS_flash_keys a hs os :
  ACTIONS !! a = Some (Callable fn_flash, hs, os) → is_Some (flasher_args_path !! a).
Proof. intros Hent. each_entry Hent; eexists; vm_compute; reflexivity. Qed.

Section System_run.
Context {W : Type} {system : System W}.
Local Existing Instance system_host.

Implicit Types (p : process W) (c : ctx (process W)) (cl : command_line).

Lemma check_build_dir_ready c c' :
  check_build_dir c = (Normal tt, c') →
  is_Some (build_dir (args c')) ∧ host c' = host c.
Proof.
  unfold check_build_dir. intros Hrun. run_in Hrun.
  destruct (build_dir (args c)) as [dir|]; run_in Hrun.
  - destruct (bool_decide _) in Hrun; run_in Hrun; [done|].
    inversion Hrun; subst. simpl. eauto.
  - inversion Hrun; subst. simpl. eauto.
Qed.

Lemma main_ready cl p p1 c :
  check_environment p = (None, p1) →
  check_build_dir {| args := args (context (initial cl p)); host := p1 |} = (Normal tt, c) →
  ready c.
Proof.
  intros Henv Hdir. apply check_build_dir_ready in Hdir as [Hbuild Hhost].
  split; [done|]. rewrite Hhost. simpl. simpl in Henv.
  destruct (Sys.check_environment p) as [[[]|e] p'] eqn:Hce; [|done].
  injection Henv as <-.
  by destruct (check_environment_ensures _ _ _ Hce) as (_ & _ & ?).
Qed.

(** X16. On a system, with the shipped table and five activations or more, a
    run that fails ends with the [SystemExit] of a command line that
    argparse refuses; with a [FatalError] or an exception out of an
    operation of the system; with the [KeyError] of a handler that found
    [args.generator] set to a generator that is not a key of
    [GENERATOR_CMDS]; or with what [monitor] raises over a
    [project_description.json] that is not as the build writes it: the
    [KeyError] of a missing [app_elf] or [monitor_baud], the [TypeError]
    of a description that is not a [dict], what [os.path.join] raises for
    an [app_elf] that is not a string, or what [_run_tool] raises for a
    [monitor_baud] that is not a string.  The last two kinds come out of
    a handler.  The script raises no [IndexError], no [RecursionError]
    and no other [KeyError], that of [os.environ["IDF_PATH"]] included:
    when the handlers run, [args.build_dir] is set and [IDF_PATH] is in
    the environment. *)
Theorem system_run_failures limit cl p e st' :
  (5 ≤ limit)%nat →
  main ACTIONS limit (initial cl p) = (Raised e, st') →
  (e = SystemExit 2 ∧ ¬ accepted ACTIONS cl p) ∨
  (accepted ACTIONS cl p ∧
   (plain e ∨
    ((∃ g, e = KeyError g ∧ GENERATOR_CMDS !! g = None) ∨ description_error e) ∧
    handler_raised e st')).
Proof.
  intros Hlimit Hrun. pose proof Hrun as Hrun0.
  apply (main_guarded ACTIONS ready handler_failure) in Hrun
    as [[[?|[[Hacc (f & p1 & Henv & ->)]|[Hacc (dir & p1 & msg & _ & _ & _ & ->)]]] _]
       |[Hacc [Htab|[[?|?] ?]]]]; auto.
  - right. split; [done|]. left. simpl in Henv.
    destruct (Sys.check_environment p) as [[[]|e] p'] eqn:Hce; [done|].
    injection Henv as <- <-.
    by destruct (check_environment_ensures _ _ _ Hce) as (_ & _ & -> & _).
  - right. split; [done|]. by left.
  - exfalso. apply closed_table_sound in Htab as ->; [|apply ACTIONS_closed].
    eapply (main_shallow ACTIONS ACTIONS_rank limit); [apply ACTIONS_ranked| |done..].
    intros a. pose proof (ACTIONS_rank_le a). lia.
  - intros f a hs os c Hent Hready.
    eapply ensures_weaken; [apply call_ensures; [|done]|].
    + intros ->. by eapply ACTIONS_flash_keys.
    + intros r c' [Hst ?]. split; [by eapply steady_ready|done].
  - intros p1 c. apply main_ready.
Qed.

Lemma prelude_ready cl p st0 :
  prelude (initial cl p) = (Normal tt, st0) → ready (context st0).
Proof.
  unfold prelude. intros Hrun. run_in Hrun.
  destruct (generator_ok _) in Hrun; run_in Hrun; [|done].
  unfold in_context at 1 in Hrun. simpl in Hrun.
  destruct (Sys.check_environment p) as [[[]|e] p1] eqn:Hce; run_in Hrun; [|done].
  unfold in_context in Hrun.
  match type of Hrun with context [check_build_dir ?c] =>
    destruct (check_build_dir c) as [[[]|e] c'] eqn:Hdir end; [|done].
  injection Hrun as <-. simpl.
  apply (main_ready cl p p1); [|done]. simpl. by rewrite Hce.
Qed.

End System_run.

(** ** Concrete runs *)

Local Open Scope nat_scope.

Section Concrete.
Existing Instance obliging.


(** In a state that no run goes through, with [flash] completed and its
    dependency [all] not, a call for [flash] enters the handler of [all]
    and adds [all] to [completed_actions]: the test of line 340 comes
    after the two dependency loops. *)
Example unsettled_state_resolves_dependencies :
  let st := {| completed_actions := {["flash"]}; actions := [];
               context := {| args := {| port := None; baud := BaudInt 460800;
                                        project_dir := "/project";
                                        build_dir := Some "/project/build";
                                        generator := None |};
                             host := [] |};
               trace := [] |} in
  let run := execute_action ACTIONS 100 "flash" [] st in
  "flash" ∈ completed_actions st ∧
  run.1 = Normal tt ∧
  trace run.2 = [Call fn_build_target "all"; Ret fn_build_target "all"] ∧
  ("all" ∉ completed_actions st) ∧ "all" ∈ completed_actions run.2.
Proof.
  intros st run. split; [|split; [|split; [|split]]].
  - by apply (bool_decide_unpack _); vm_compute.
  - by vm_compute.
  - by vm_compute.
  - by apply (bool_decide_eq_false_1 _); vm_compute.
  - by apply (bool_decide_unpack _); vm_compute.
Qed.

(** C7, counterexample.  On a build directory that cmake has configured
    for a generator the script does not know, the handler of [all] fails
    with the [KeyError] of [GENERATOR_CMDS[args.generator]].  The run
    ends there, with [flash] not entered; but the script prints no
    message, and the interpreter ends with status 1, not 2. *)
Lemma handler_failure_exits_with_1 :
  let run := @idf_py _ (@system_host _ (configured_project "Xcode")) ACTIONS 1000
               (request ["flash"]) fresh in
  trace run.2 = [Call fn_build_target "all";
                 Exc fn_build_target "all" (KeyError "Xcode")] ∧
  run.1 = 1%Z ∧
  world (host (context run.2)) = [].
Proof. by vm_compute. Qed.

Ltac by_computation := apply (bool_decide_unpack _); vm_compute; exact I.

(** [flash flash]: the build once, then [flash] once. *)
Example run_flash_flash :
  let run := idf_py ACTIONS 1000 (request ["flash"; "flash"]) [] in
  run.1 = 0%Z ∧
  trace run.2 = [Call fn_build_target "all"; Ret fn_build_target "all";
                 Call fn_flash "flash"; Ret fn_flash "flash"] ∧
  actions run.2 = [].
Proof. by vm_compute. Qed.

(** [monitor flash]: [flash], requested later, runs before [monitor]. *)
Example run_monitor_flash :
  calls (trace (idf_py ACTIONS 1000 (request ["monitor"; "flash"]) []).2)
  = ["all"; "flash"; "monitor"].
Proof. by vm_compute. Qed.

(** A name that is not in the table is refused by argparse: status 2,
    nothing run. *)
Example run_unknown_action :
  let run := idf_py ACTIONS 1000 (request ["flash"; "deploy"]) [] in
  run.1 = 2%Z ∧ trace run.2 = [].
Proof. by vm_compute. Qed.

(** The longest chain of the shipped table takes five activations. *)
Example run_deepest_chain :
  (main ACTIONS 4 (initial (request ["monitor"; "flash"; "clean"; "fullclean"]) [])).1
  = Raised RecursionError.
Proof. by vm_compute. Qed.

(** What [_run_tool] prints and raises when the tool fails. *)
Example run_tool_failure :
  @_run_tool _ no_device "esptool.py" ["esptool.py"; "write_flash"; "@my args"]
    (Some "/project/build") {| args := args (context (initial (request []) []));
                               host := [] |}
  = (Raised (FatalError "esptool.py failed with exit code 3"),
     {| args := args (context (initial (request []) []));
        host := ["Running esptool.py in directory /project/build";
                 "Executing " +:+ dq +:+ "esptool.py write_flash '@my args'"
                   +:+ dq +:+ "..."] |}).
Proof. by vm_compute. Qed.

Lemma handler_invoked_exactly_once_witness :
  invocations "base"
    (trace (main diamond 1000 (initial (request ["top"; "left"; "top"]) [])).2)
  = 1%nat.
Proof.
  destruct (handler_invoked_exactly_once diamond 1000
              (request ["top"; "left"; "top"]) [] _ _
              (surjective_pairing _)) as (_ & _ & Hone).
  apply (Hone ltac:(by vm_compute) "top" "base" fn_build_target [] []).
  - by_computation.
  - eapply reaches_hard with (d := "left"); [by vm_compute|by_computation|].
    eapply reaches_hard with (d := "base"); [by vm_compute|by_computation|].
    apply reaches_refl.
  - by vm_compute.
Defined.

Lemma hard_dependency_precedence_witness :
  trace (main ACTIONS 1000 (initial (request ["flash"]) [])).2
  = [Call fn_build_target "all"; Ret fn_build_target "all"]
      ++ Call fn_flash "flash" :: [Ret fn_flash "flash"] ∧
  Ret fn_build_target "all" ∈ [Call fn_build_target "all"; Ret fn_build_target "all"].
Proof.
  assert (trace (main ACTIONS 1000 (initial (request ["flash"]) [])).2
          = [Call fn_build_target "all"; Ret fn_build_target "all"]
              ++ Call fn_flash "flash" :: [Ret fn_flash "flash"]) as Ht
    by by vm_compute.
  split; [exact Ht|].
  apply (hard_dependency_precedence ACTIONS 1000 (request ["flash"]) [] _ _
           "flash" fn_flash ["all"] [] "all" (surjective_pairing _)
           ltac:(by vm_compute) ltac:(by_computation) _ _ Ht
           "all" fn_build_target [] ["menuconfig"; "clean"; "fullclean"]).
  - apply alias_refl.
  - by vm_compute.
Defined.

Lemma completed_run_closed_witness :
  let st := (main ACTIONS 1000 (initial (request ["flash"]) [])).2 in
  (∀ a, a ∈ ["flash"] → a ∈ completed_actions st) ∧
  actions st = [] ∧
  (∀ f a op hs os d, Call f a ∈ trace st → ACTIONS !! a = Some (op, hs, os) →
     d ∈ hs → d ∈ completed_actions st).
Proof.
  apply (completed_run_closed ACTIONS 1000 (request ["flash"]) []). by vm_compute.
Defined.

Lemma fail_fast_witness :
  (@idf_py _ no_device ACTIONS 1000 (request ["flash"; "monitor"]) []).1 = 2%Z.
Proof.
  destruct (@fail_fast _ no_device ACTIONS 1000 (request ["flash"; "monitor"]) [] _ _
              (surjective_pairing _)) as [Hexc _].
  destruct (Hexc fn_flash "flash" (FatalError "esptool.py failed with exit code 3"))
    as (_ & _ & _ & Hexit & _); [by_computation|].
  by rewrite (Hexit _ eq_refl).
Defined.

Lemma completed_action_is_noop_witness :
  let st0 := (prelude (initial (request ["flash"; "monitor"; "all"]) [])).2 in
  let st := (execute_action ACTIONS 1000 "flash" ["monitor"; "all"] st0).2 in
  execute_action ACTIONS 6 "all" ["monitor"; "all"] st = (Normal tt, st).
Proof.
  intros st0 st.
  apply (completed_action_is_noop ACTIONS st 5 "all" ["monitor"; "all"]).
  - apply (run_state_call ACTIONS st0 1000 "flash").
    + apply run_state_start. by vm_compute.
    + by vm_compute.
  - by vm_compute.
  - by_computation.
Defined.

Lemma flash_argfile_known_witness : is_Some (flasher_args_path !! "app-flash").
Proof.
  apply (proj1 flash_argfile_known "app-flash" [] ["app"]). by vm_compute.
Defined.

Lemma clean_then_flash_witness :
  trace (main ACTIONS 1000 (initial (request ["clean"; "flash"]) [])).2
  = [Call fn_clean "clean"; Ret fn_clean "clean";
     Call fn_build_target "all"; Ret fn_build_target "all";
     Call fn_flash "flash"; Ret fn_flash "flash"].
Proof.
  apply (clean_then_flash 998 (request ["clean"; "flash"]) [] _ _ eq_refl
           (surjective_pairing _)).
  by vm_compute.
Defined.


Lemma ACTIONS_dependable : @dependable _ obliging ACTIONS project_context.
Proof.
  intros f a hs os [A w] Hent [HA|HA]; simpl in HA; subst A; each_entry Hent.
  all: destruct (call _ _ _) as [r c'] eqn:Hcall; vm_compute in Hcall;
    injection Hcall as <- <-; eexists; (split; [reflexivity|]);
    first [by left|by right].
Qed.

Lemma order_only_conditionality_witness :
  (∃ st, main ACTIONS 1000 (initial (request ["clean"]) []) = (Normal tt, st) ∧
     invocations "clean" (trace st) = 1 ∧ invocations "fullclean" (trace st) = 0) ∧
  (∃ st, main ACTIONS 1000 (initial (request ["clean"; "fullclean"]) [])
         = (Normal tt, st) ∧
     invocations "fullclean" (trace st) = 1 ∧ invocations "clean" (trace st) = 1 ∧
     before (Ret fn_fullclean "fullclean") (Call fn_clean "clean") (trace st)) ∧
  (∃ st, main ACTIONS 1000 (initial (request ["fullclean"; "clean"]) [])
         = (Normal tt, st) ∧
     invocations "fullclean" (trace st) = 1 ∧ invocations "clean" (trace st) = 1 ∧
     before (Ret fn_fullclean "fullclean") (Call fn_clean "clean") (trace st)).
Proof.
  assert (¬ reaches ACTIONS [] "clean" "fullclean") as Honly.
  { intros Hr. inversion Hr as [|? ? ? ? ? ? He Hd|? ? ? ? ? ? He Hd Hrem|? ? ? ? ? He];
      subst; rewrite ACTIONS_clean in He; try discriminate He; injection He as <- <- <-.
    - by apply elem_of_nil in Hd.
    - by apply elem_of_nil in Hrem. }
  assert (¬ reaches ACTIONS ["clean"] "fullclean" "clean") as Hacyc.
  { assert (ACTIONS !! "fullclean" = Some (Callable fn_fullclean, [], [])) as Hfc
      by by vm_compute.
    intros Hr. inversion Hr as [|? ? ? ? ? ? He Hd|? ? ? ? ? ? He Hd Hrem|? ? ? ? ? He];
      subst; rewrite Hfc in He; try discriminate He; injection He as <- <- <-.
    - by apply elem_of_nil in Hd.
    - by apply elem_of_nil in Hd. }
  destruct (order_only_conditionality ACTIONS project_context 1000 (request []) []
              "clean" "fullclean" fn_clean fn_fullclean [] ["fullclean"] [] []
              ltac:(by vm_compute) ltac:(by_computation) ltac:(by vm_compute)
              Honly Hacyc) as (_ & _ & Hlive).
  destruct (Hlive ACTIONS_rank (prelude (initial (request []) [])).2)
    as [Halone Hpairs].
  - apply ACTIONS_closed.
  - apply ACTIONS_ranked.
  - intros x. pose proof (ACTIONS_rank_le x). lia.
  - apply ACTIONS_dependable.
  - by vm_compute.
  - by left.
  - split; [exact Halone|].
    split; [apply (Hpairs ["clean"; "fullclean"]); by left
           |apply (Hpairs ["fullclean"; "clean"]); by right].
Defined.


(** [idf.py all] in a configured project: ninja is run, nothing else. *)
Example run_configured_project :
  let run := @idf_py _ (@system_host _ (configured_project "Ninja")) ACTIONS 1000
               (request ["all"]) fresh in
  run.1 = 0%Z ∧
  world (host (context run.2))
  = [ "Running ninja in directory /project/build";
      "Executing " +:+ dq +:+ "ninja all" +:+ dq +:+ "..."; "ninja all" ] ∧
  os_environ (host (context run.2)) !! "IDF_PATH" = Some "/idf/tools/.." ∧
  generator (args (context run.2)) = Some "Ninja".
Proof. by vm_compute. Qed.

(** A build directory configured for a generator that the script does
    not know: [build_target] raises [KeyError], the script exits with
    status 1. *)
Example run_unknown_generator :
  let run := @idf_py _ (@system_host _ (configured_project "Xcode")) ACTIONS 1000
               (request ["all"]) fresh in
  run.1 = 1%Z ∧
  trace run.2 = [Call fn_build_target "all"; Exc fn_build_target "all" (KeyError "Xcode")] ∧
  world (host (context run.2)) = [].
Proof. by vm_compute. Qed.

(** [monitor] on a built project: the monitor is started on the binary
    of the description, at its baud rate. *)
Example run_monitor :
  let run := @idf_py _ (@system_host _ (configured_project "Ninja")) ACTIONS 1000
               (request ["monitor"]) fresh in
  run.1 = 0%Z ∧
  trace run.2 = [Call fn_monitor "monitor"; Ret fn_monitor "monitor"] ∧
  world (host (context run.2))
  = ["Running idf_monitor in directory /project/build";
     "Executing " +:+ dq +:+ "python /idf/tools/../tools/idf_monitor.py -b 115200 /project/build/app.elf" +:+ dq +:+ "...";
     "python /idf/tools/../tools/idf_monitor.py -b 115200 /project/build/app.elf"].
Proof. by vm_compute. Qed.

(** [monitor] over a description without [monitor_baud]: the handler
    raises [KeyError], nothing is run, the script exits with status 1
    and prints nothing. *)
Example run_monitor_misdescribed :
  let run := @idf_py _ (@system_host _ misdescribed_project) ACTIONS 1000
               (request ["monitor"]) fresh in
  run.1 = 1%Z ∧
  trace run.2 = [Call fn_monitor "monitor";
                 Exc fn_monitor "monitor" (KeyError "monitor_baud")] ∧
  world (host (context run.2)) = [].
Proof. by vm_compute. Qed.

(** [-G] against the cache. *)
Example run_other_generator :
  let run := @idf_py _ (@system_host _ (configured_project "Ninja")) ACTIONS 1000
               {| opt_port := None; opt_baud := None; opt_project_dir := None;
                  opt_build_dir := None; opt_generator := Some "Unix Makefiles";
                  opt_actions := ["all"] |} fresh in
  run.1 = 2%Z ∧
  world (host (context run.2))
  = ["Build is configured for generator 'Ninja' not 'Unix Makefiles'. Run 'idf.py fullclean' to start again."].
Proof. by vm_compute. Qed.

(** [fullclean] on a directory with a [.git]. *)
Example run_fullclean_sources :
  let run := @idf_py _ (@system_host _ precious_directory) ACTIONS 1000
               {| opt_port := None; opt_baud := None; opt_project_dir := None;
                  opt_build_dir := Some "/work"; opt_generator := None;
                  opt_actions := ["fullclean"] |} fresh in
  run.1 = 2%Z ∧
  world (host (context run.2))
  = ["Refusing to automatically delete files in directory containing '/work/.git'. Delete files manually if you're sure."].
Proof. by vm_compute. Qed.

(** [fullclean] on a build directory. *)
Example run_fullclean_build :
  let run := @idf_py _ (@system_host _ (configured_project "Ninja")) ACTIONS 1000
               (request ["fullclean"]) fresh in
  run.1 = 0%Z ∧
  world (host (context run.2))
  = ["remove /project/build/CMakeCache.txt"; "remove /project/build/app.elf";
     "remove /project/build/project_description.json"].
Proof. by vm_compute. Qed.

Lemma match_cache_line_entry_witness :
  match_cache_line ("CMAKE_GENERATOR" +:+ ":" +:+ "INTERNAL" +:+ "=" +:+ "Ninja" +:+ nl)
  = Some ("CMAKE_GENERATOR", "INTERNAL", "Ninja").
Proof. by apply (match_cache_line_entry "CMAKE_GENERATOR" "INTERNAL" "Ninja"). Defined.

Lemma match_cache_line_shape_witness :
  ("A:B=c" +:+ nl = "A" +:+ ":" +:+ "B" +:+ "=" +:+ "c" +:+ nl ∨
   "A:B=c" +:+ nl = "A" +:+ ":" +:+ "B" +:+ "=" +:+ "c" +:+ nl +:+ nl) ∧
  "A" ≠ EmptyString ∧ all_chars name_char "A" = true ∧
  "B" ≠ EmptyString ∧ all_chars type_char "B" = true ∧
  "c" ≠ EmptyString ∧ all_chars value_char "c" = true ∧
  (∀ text, "A:B=c" +:+ nl ∈ file_lines text →
           "A:B=c" +:+ nl = "A" +:+ ":" +:+ "B" +:+ "=" +:+ "c" +:+ nl).
Proof. apply (match_cache_line_shape ("A:B=c" +:+ nl) "A" "B" "c"). reflexivity. Defined.

Lemma main_failure_origin_witness :
  let run := @main _ no_device ACTIONS 1000 (initial (request ["flash"]) []) in
  let e := FatalError "esptool.py failed with exit code 3" in
  (@raised_before_loop _ no_device ACTIONS (request ["flash"]) [] e ∧ trace run.2 = []) ∨
  (@accepted _ no_device ACTIONS (request ["flash"]) [] ∧
   (raised_by_table ACTIONS e ∨ (handler_exn e ∧ handler_raised e run.2))).
Proof.
  apply (@main_failure_origin _ no_device ACTIONS 1000 (request ["flash"]) []).
  by vm_compute.
Defined.

Lemma shipped_failure_origin_witness :
  let run := @main _ no_device ACTIONS 5 (initial (request ["flash"]) []) in
  let e := FatalError "esptool.py failed with exit code 3" in
  (@raised_before_loop _ no_device ACTIONS (request ["flash"]) [] e ∧ trace run.2 = []) ∨
  (@accepted _ no_device ACTIONS (request ["flash"]) [] ∧
   handler_exn e ∧ handler_raised e run.2).
Proof.
  apply (@shipped_failure_origin _ no_device 5 (request ["flash"]) []); [lia|].
  by vm_compute.
Defined.

Lemma handlers_are_requested_witness :
  (∃ hs os, ACTIONS !! "all" = Some (Callable fn_build_target, hs, os)) ∧
  ∃ done a rest, opt_actions (request ["flash"]) = done ++ a :: rest ∧
                 reaches ACTIONS rest a "all".
Proof.
  apply (handlers_are_requested ACTIONS 1000 (request ["flash"]) [] fn_build_target "all").
  by_computation.
Defined.

Lemma check_environment_idf_path_witness :
  let run := @Sys.check_environment _ (configured_project "Ninja") fresh in
  (∀ k v, os_environ fresh !! k = Some v → os_environ run.2 !! k = Some v) ∧
  (∀ k, k ≠ "IDF_PATH" → os_environ run.2 !! k = os_environ fresh !! k) ∧
  match run.1 with
  | Normal _ => is_Some (os_environ run.2 !! "IDF_PATH")
  | Raised e =>
      e = FatalError "'cmake' must be available on the PATH to use idf.py" ∧
      os_environ run.2 = os_environ fresh
  end.
Proof.
  apply (@check_environment_idf_path _ (configured_project "Ninja") fresh).
  apply surjective_pairing.
Defined.

Lemma detect_cmake_generator_known_witness :
  let run := @Sys.detect_cmake_generator _ (configured_project "Ninja") fresh in
  let ninja := @subprocess_check_output _ (configured_project "Ninja")
                 ["ninja"; "--version"] (os_environ fresh) (world fresh) in
  let make := @subprocess_check_output _ (configured_project "Ninja")
                 ["make"; "--version"] (os_environ fresh) ninja.2 in
  os_environ run.2 = os_environ fresh ∧
  match run.1 with
  | Normal g =>
      is_Some (@GENERATOR_CMDS _ (@system_host _ (configured_project "Ninja")) !! g) ∧
      (g = "Ninja" ↔ ninja.1 = Completed) ∧
      (g ≠ "Ninja" →
       g = MAKE_GENERATOR (@sys_platform _ (configured_project "Ninja")) ∧
       make.1 = Completed)
  | Raised e =>
      ninja.1 ≠ Completed ∧ make.1 ≠ Completed ∧
      e = FatalError "To use idf.py, either the 'ninja' or 'GNU make' build tool must be available in the PATH"
  end.
Proof.
  apply (@detect_cmake_generator_known _ (configured_project "Ninja") fresh).
  apply surjective_pairing.
Defined.

Lemma ensure_build_directory_args_witness :
  let c := {| args := project_args; host := fresh |} in
  let run := @Sys._ensure_build_directory _ (configured_project "Ninja") c in
  steady c run.2 ∧
  (run.1 = Normal tt → is_Some (generator (args run.2))) ∧
  (is_Some (build_dir (args c)) → ∀ e, run.1 = Raised e → plain e).
Proof.
  apply (@ensure_build_directory_args _ (configured_project "Ninja")).
  apply surjective_pairing.
Defined.

Lemma monitor_args_witness :
  let c := {| args := project_args;
              host := {| os_environ := {[ "IDF_PATH" := "/idf" ]}; world := [] |} |} in
  let run := @Sys.monitor _ (configured_project "Ninja") "monitor" c in
  steady c run.2 ∧
  run = @_run_tool _ (@library _ (configured_project "Ninja")) "idf_monitor"
          (["python"; "/idf/tools/idf_monitor.py"] ++ ["-b"; "115200"]
           ++ ["/project/build/app.elf"])
          (Some "/project/build") c.
Proof.
  destruct (@monitor_args _ (configured_project "Ninja") "monitor"
              {| args := project_args;
                 host := {| os_environ := {[ "IDF_PATH" := "/idf" ]}; world := [] |} |}
              _ _ (surjective_pairing _)) as (Hst & _ & Hfun).
  split; [exact Hst|].
  rewrite (surjective_pairing (Sys.monitor _ _)).
  apply (Hfun "/project/build"
           [("app_elf", JString "app.elf"); ("monitor_baud", JString "115200")]
           "app.elf" "115200" "/idf"); by vm_compute.
Defined.

Lemma fullclean_safe_witness :
  let c := {| args := {| port := None; baud := BaudInt 460800; project_dir := "/project";
                         build_dir := Some "/work"; generator := None |};
              host := fresh |} in
  let run := @Sys.fullclean _ precious_directory "fullclean" c in
  args run.2 = args c ∧ os_environ (host run.2) = os_environ (host c) ∧
  (∀ msg, run.1 = Raised (FatalError msg) → run.2 = c) ∧
  (@deletable _ precious_directory "/work" (world (host c)) = false →
   (run.1 ≠ Normal tt ∧ run.2 = c) ∨
   (run.1 = Normal tt ∧
    ∃ line, world (host run.2) = @sys_print _ precious_directory line (world (host c)))).
Proof.
  apply (@fullclean_safe _ precious_directory "fullclean" _ _ _ "/work").
  - apply surjective_pairing.
  - reflexivity.
Defined.

Lemma ensure_build_directory_configured_witness :
  let c := {| args := project_args; host := fresh |} in
  ∃ r c', @Sys._ensure_build_directory _ (configured_project "Ninja") c = (r, c') ∧
    host c' = host c ∧
    (r = Normal tt ↔
       (generator (args c) = None ∨ generator (args c) = Some "Ninja") ∧
       ∀ home_dir,
         parse_cmakecache_lines
           (file_lines ("# This is the CMakeCache file." +:+ nl
                        +:+ "CMAKE_GENERATOR:INTERNAL=" +:+ "Ninja" +:+ nl
                        +:+ "CMAKE_HOME_DIRECTORY:INTERNAL=/project" +:+ nl))
           !! "CMAKE_HOME_DIRECTORY" = Some home_dir →
         @os_path_realpath _ (configured_project "Ninja") home_dir (world (host c))
         = @os_path_realpath _ (configured_project "Ninja") (project_dir (args c))
             (world (host c))) ∧
    (r = Normal tt → generator (args c') = Some "Ninja") ∧
    (∀ e, r = Raised e → ∃ msg, e = FatalError msg).
Proof.
  apply (@ensure_build_directory_configured _ (configured_project "Ninja")
           {| args := project_args; host := fresh |} "/project/build").
  - by vm_compute.
  - by vm_compute.
  - reflexivity.
  - by vm_compute.
  - by vm_compute.
  - by vm_compute.
  - by vm_compute.
Defined.

Lemma system_run_failures_witness :
  let host_ops := @system_host _ misdescribed_project in
  let run := @main _ host_ops ACTIONS 1000 (initial (request ["monitor"]) fresh) in
  let e := KeyError "monitor_baud" in
  (e = SystemExit 2 ∧ ¬ @accepted _ host_ops ACTIONS (request ["monitor"]) fresh) ∨
  (@accepted _ host_ops ACTIONS (request ["monitor"]) fresh ∧
   (plain e ∨
    ((∃ g, e = KeyError g ∧ @GENERATOR_CMDS _ host_ops !! g = None) ∨
     @description_error _ misdescribed_project e) ∧
    handler_raised e run.2)).
Proof.
  apply (@system_run_failures _ misdescribed_project 1000 (request ["monitor"]) fresh);
    [lia|].
  by vm_compute.
Defined.

End Concrete.
